(** * The battle engine of the RPG server: a shallow embedding

    Sources embedded here:
    - [constants.js]      ELEMENTS, STATUS_EFFECTS, ELEMENTAL_WEAKNESS
    - [abilities.js]      the ability catalog and ABILITIES_BY_ID
    - [battleManager.js]  turn order, createBattle, executeCommand, advanceTurn
    - [server.js]         unitById, validateBattleCommand,
                          findFirstAlivePartyMemberId, runEnemyTurns, the
                          BATTLE_COMMAND handler
    - [story.js]          the quests, updateQuestProgress and what it calls
    - [world.js]          MapGrid, the regions, getRegionById, canMoveTo

    Modelling decisions.
    - JavaScript objects that the engine shares and mutates live in a store
      ([World]): stats objects, status-effect arrays and unit objects are
      addressed by locations, so that two units holding the same stats object
      see each other's writes.  The battle object itself is threaded
      explicitly (the engine returns the instance it was given).
    - The fields of a stats object are integers, as the data model of the
      engine has them; they are kept in [Z].  The damage and healing formulas
      are evaluated in IEEE binary64, as the JavaScript engine does, with the
      kernel's primitive floats.  The model is meant for stats in the
      safe-integer range (magnitude below 2^53), where the conversion to
      binary64 and the integer arithmetic on hp and mp are exact.
    - A missing object ([null]/[undefined]) is a location that the store does
      not map.  Non-ASCII white space is outside the model.
    - The tables [ABILITIES_BY_ID] and [QUESTS_BY_ID] are plain frozen
      objects in the source.  Besides their own keys they answer to the keys
      every object inherits from [Object.prototype] ([constructor],
      [toString], [__proto__] and the like), with a function or with the
      prototype itself, which is truthy.  The embedding holds the own keys
      only: it agrees with the source on every id that is not one of these
      inherited keys, and a statement that relates the validator to the
      executor names the catalog entry of its command.
    - Every unit the repository builds carries a status-effect array (the
      [Character] constructor, [makeEnemyFromWorldObject], the loader of the
      saves), and [statusEffects] is the reference to it.  To a unit object
      without one the source gives a new array of its own; the embedding
      creates the array at the location the unit record names, which unit
      records copied from one another share.  The two agree on the units that
      have their array.
    - [String.prototype.localeCompare] is the host's and depends on its
      locale.  The turn order is defined for any comparison of the keys;
      [JS.localeCompare] is the root collation of ICU on the characters of
      identifiers, and the battles of the scenarios are created with it.
    - The records are typed: ids are strings, stats fields are numbers, a
      command is an object.  The [TypeError]s the engine throws on a missing
      battle, command, party id or enemy array therefore have no counterpart,
      and the registry [battlesById], which only stores the battle object, is
      left out.  The fields the engine never reads (an ability's description,
      a character's class, level and equipment) are left out as well.
    - The [while] loop of [runEnemyTurns] is a function with a bound on the
      number of iterations, [None] when the bound is reached; that the loop
      ends, and within which bound, is proved of that function.
    - The player state of story.js is typed in the same way: the quest lists
      are arrays of strings, the numbers are integers, and the array of a
      quest's progress records is kept by index, a missing record reading
      as 0 as it does in the source.  The maps of world.js are rows of ASCII
      characters, and positions are integers. *)

From Stdlib Require Import ZArith Ascii String PrimFloat FloatOps SpecFloat.
From stdpp Require Import gmap strings list sorting pretty.

Open Scope string_scope.

(** ** JavaScript values used by the engine *)

Module JS.

(** [Number(z)]: the binary64 nearest to the integer [z]. *)
Definition ofZ (z : Z) : float :=
  SF2Prim (binary_normalize prec emax z 0 false).

(** [Math.floor] of a finite double, as an integer.  On stats in the
    safe-integer range the formulas of the engine only reach it with finite
    values; the value at NaN and at the infinities is a convention. *)
Definition floor (f : float) : Z :=
  match Prim2SF f with
  | S754_finite s m e =>
      let v := if s then Z.neg m else Z.pos m in
      if (0 <=? e)%Z then (v * 2 ^ e)%Z else (v / 2 ^ (- e))%Z
  | _ => 0%Z
  end.

Definition is_space (c : ascii) : bool :=
  let n := nat_of_ascii c in
  ((9 <=? n)%nat && (n <=? 13)%nat) || (n =? 32)%nat.

(** [s.trim()] is a non-empty (truthy) string. *)
Fixpoint trim_truthy (s : string) : bool :=
  match s with
  | EmptyString => false
  | String c r => negb (is_space c) || trim_truthy r
  end.

Definition upper_ascii (c : ascii) : ascii :=
  let n := nat_of_ascii c in
  if ((97 <=? n)%nat && (n <=? 122)%nat)%bool then ascii_of_nat (n - 32) else c.

Fixpoint toUpperCase (s : string) : string :=
  match s with
  | EmptyString => EmptyString
  | String c r => String (upper_ascii c) (toUpperCase r)
  end.

(** The literals [0.6], [1.1] and [0.9], none of which is a binary64 value:
  each denotes the nearest double, written here exactly. *)
Definition n0_6 : float := 0x1.3333333333333p-1%float.
Definition n1_1 : float := 0x1.199999999999ap+0%float.
Definition n0_9 : float := 0x1.ccccccccccccdp-1%float.

(** [Array.prototype.sort(cmp)]: a stable sort; [cmp a b <= 0] keeps [a]
  before [b].  Insertion from the right end keeps equal elements in their
  original order. *)
Fixpoint sort_insert {A} (cmp : A -> A -> Z) (x : A) (l : list A) : list A :=
  match l with
  | [] => [x]
  | y :: r => if (cmp x y <=? 0)%Z then x :: y :: r else y :: sort_insert cmp x r
  end.

Definition sort {A} (cmp : A -> A -> Z) (l : list A) : list A :=
  foldr (sort_insert cmp) [] l.

(** Truthiness of a value that is a string, [null] or [undefined]. *)
Definition truthy (v : option string) : bool :=
  match v with
  | Some s => negb (String.eqb s "")
  | None => false
  end.

(** [String.prototype.localeCompare] is the host's: Node.js compares with
    the collation of ICU for the locale of the process.  What follows is the
    root collation, the one of an English or unset locale, on the characters
    of identifiers.  Every character has a primary weight: the underscore
    comes before the digits and the digits before the letters, and a letter
    weighs the same in either case.  It also has a tertiary weight: lower
    case before upper case.  (At the secondary level, the accents, these
    characters do not differ.)  Two strings compare as their sort keys do,
    number by number: the primary weights of the characters, a separator
    below every weight, and the tertiary weights.  So the letters decide
    before their case does.  A character that is none of these is weighed
    after the letters, by its code; that is a convention. *)
Definition primaryWeight (c : ascii) : nat :=
  let n := nat_of_ascii c in
  if (n =? 95)%nat then 1%nat
  else if ((48 <=? n)%nat && (n <=? 57)%nat)%bool then (2 + (n - 48))%nat
  else if ((97 <=? n)%nat && (n <=? 122)%nat)%bool then (12 + (n - 97))%nat
  else if ((65 <=? n)%nat && (n <=? 90)%nat)%bool then (12 + (n - 65))%nat
  else (38 + n)%nat.

Definition tertiaryWeight (c : ascii) : nat :=
  let n := nat_of_ascii c in
  if ((65 <=? n)%nat && (n <=? 90)%nat)%bool then 2%nat else 1%nat.

Definition sortKey (s : string) : list nat :=
  let cs := list_ascii_of_string s in
  map primaryWeight cs ++ 0%nat :: map tertiaryWeight cs.

Fixpoint compareKeys (k1 k2 : list nat) : comparison :=
  match k1, k2 with
  | [], [] => Eq
  | [], _ :: _ => Lt
  | _ :: _, [] => Gt
  | x :: r1, y :: r2 =>
      match Nat.compare x y with
      | Eq => compareKeys r1 r2
      | c => c
      end
  end.

Definition localeCompare (a b : string) : Z :=
  match compareKeys (sortKey a) (sortKey b) with
  | Lt => (-1)%Z
  | Eq => 0%Z
  | Gt => 1%Z
  end.

End JS.

(** ** constants.js *)

Module ELEMENTS.
Definition LIGHT := "LIGHT".
Definition SHADOW := "SHADOW".
Definition FIRE := "FIRE".
Definition WATER := "WATER".
Definition EARTH := "EARTH".
Definition WIND := "WIND".
Definition NULL := "NULL".

(** The own properties of the frozen object; each maps to its own name. *)
Definition keys : list string := [LIGHT; SHADOW; FIRE; WATER; EARTH; WIND; NULL].

Definition hasOwnProperty (k : string) : bool := bool_decide (k ∈ keys).
End ELEMENTS.

Module STATUS_EFFECTS.
Definition POISON := "POISON".
Definition STUN := "STUN".
Definition SLOW := "SLOW".
Definition SILENCE := "SILENCE".
Definition WEAKEN := "WEAKEN".
Definition BURN := "BURN".
End STATUS_EFFECTS.

Module CLASS_NAMES.
Definition CRYSTALBORNE := "CRYSTALBORNE".
Definition SAGE := "SAGE".
Definition KNIGHT := "KNIGHT".
Definition AEROMANCER := "AEROMANCER".
Definition UMBRAMANCER := "UMBRAMANCER".
Definition CRYSTAL_KNIGHT := "CRYSTAL_KNIGHT".
End CLASS_NAMES.

(** [ELEMENTAL_WEAKNESS[e]]; [None] where the table has no entry. *)
Definition ELEMENTAL_WEAKNESS (e : string) : option string :=
  if String.eqb e ELEMENTS.FIRE then Some ELEMENTS.WATER
  else if String.eqb e ELEMENTS.WATER then Some ELEMENTS.EARTH
  else if String.eqb e ELEMENTS.EARTH then Some ELEMENTS.WIND
  else if String.eqb e ELEMENTS.WIND then Some ELEMENTS.FIRE
  else if String.eqb e ELEMENTS.LIGHT then Some ELEMENTS.SHADOW
  else if String.eqb e ELEMENTS.SHADOW then Some ELEMENTS.LIGHT
  else if String.eqb e ELEMENTS.NULL then Some ELEMENTS.NULL
  else None.

(** ** abilities.js *)

Inductive TargetType := enemy_single | enemy_all | ally_single | party_target | self_target.

Global Instance TargetType_eq_dec : EqDecision TargetType.
Proof. solve_decision. Defined.

Record Ability := {
  a_id : string;
  a_name : string;
  a_element : string;
  mpCost : Z;
  targetType : TargetType;
  power : Z;
  statusEffect : option string;
  classRestriction : option (list string);
  levelRequirement : Z
}.

Definition mkAbility i n e c t p s r l : Ability :=
  {| a_id := i; a_name := n; a_element := e; mpCost := c; targetType := t;
     power := p; statusEffect := s; classRestriction := r; levelRequirement := l |}.

Definition ABILITIES : list Ability := [
  mkAbility "basic_attack" "Attack" ELEMENTS.NULL 0 enemy_single 4 None None 1;
  mkAbility "defend" "Defend" ELEMENTS.NULL 0 self_target 0 None None 1;
  mkAbility "flee" "Flee" ELEMENTS.NULL 0 self_target 0 None None 1;
  mkAbility "crystalborne_strike" "Strike" ELEMENTS.NULL 0 enemy_single 8 None
    (Some [CLASS_NAMES.CRYSTALBORNE]) 1;
  mkAbility "crystalborne_lumen_arc" "Lumen Arc" ELEMENTS.LIGHT 4 enemy_single 11 None
    (Some [CLASS_NAMES.CRYSTALBORNE]) 1;
  mkAbility "sage_mend" "Mend" ELEMENTS.LIGHT 5 ally_single 12 None
    (Some [CLASS_NAMES.SAGE]) 1;
  mkAbility "sage_barrier" "Barrier" ELEMENTS.LIGHT 6 ally_single 0 None
    (Some [CLASS_NAMES.SAGE]) 2;
  mkAbility "sage_scan" "Scan" ELEMENTS.NULL 2 enemy_single 0 None
    (Some [CLASS_NAMES.SAGE]) 1;
  mkAbility "knight_taunt" "Taunt" ELEMENTS.NULL 3 enemy_all 0 None
    (Some [CLASS_NAMES.KNIGHT]) 1;
  mkAbility "knight_heavy_strike" "Heavy Strike" ELEMENTS.NULL 2 enemy_single 14 None
    (Some [CLASS_NAMES.KNIGHT]) 1;
  mkAbility "aeromancer_gale_sweep" "Gale Sweep" ELEMENTS.WIND 6 enemy_all 9 None
    (Some [CLASS_NAMES.AEROMANCER]) 1;
  mkAbility "aeromancer_chain_spark" "Chain Spark" ELEMENTS.WIND 5 enemy_single 13 None
    (Some [CLASS_NAMES.AEROMANCER]) 2;
  mkAbility "aeromancer_haste" "Haste" ELEMENTS.WIND 4 ally_single 0 None
    (Some [CLASS_NAMES.AEROMANCER]) 1;
  mkAbility "umbramancer_venom_hex" "Venom Hex" ELEMENTS.SHADOW 4 enemy_single 6
    (Some STATUS_EFFECTS.POISON) (Some [CLASS_NAMES.UMBRAMANCER]) 1;
  mkAbility "umbramancer_sunder_ward" "Sunder Ward" ELEMENTS.SHADOW 5 enemy_single 8
    (Some STATUS_EFFECTS.WEAKEN) (Some [CLASS_NAMES.UMBRAMANCER]) 2;
  mkAbility "crystal_knight_crystal_blade" "Crystal Blade" ELEMENTS.LIGHT 3 enemy_single 12 None
    (Some [CLASS_NAMES.CRYSTAL_KNIGHT]) 1;
  mkAbility "crystal_knight_prismatic_aegis" "Prismatic Aegis" ELEMENTS.LIGHT 7 party_target 0 None
    (Some [CLASS_NAMES.CRYSTAL_KNIGHT]) 2
].

(** [ABILITIES.reduce((acc, a) => { acc[a.id] = a; return acc; }, {})]: the
    own properties of the table.  A lookup under a key the table does not
    own reads as [undefined] here; in the source the keys of
    [Object.prototype] read as what the table inherits there. *)
Definition ABILITIES_BY_ID : gmap string Ability :=
  foldl (fun acc a => <[a_id a := a]> acc) ∅ ABILITIES.

(** ** The data model *)

Definition loc := positive.

(** [class Stats] of models.js; every field is a number. *)
Record Stats := {
  hp : Z; maxHp : Z; mp : Z; maxMp : Z; strength : Z; defense : Z;
  magic : Z; speed : Z; spirit : Z; luck : Z
}.

Definition set_hp (v : Z) (s : Stats) : Stats :=
  {| hp := v; maxHp := maxHp s; mp := mp s; maxMp := maxMp s;
     strength := strength s; defense := defense s; magic := magic s;
     speed := speed s; spirit := spirit s; luck := luck s |}.

Definition set_mp (v : Z) (s : Stats) : Stats :=
  {| hp := hp s; maxHp := maxHp s; mp := v; maxMp := maxMp s;
     strength := strength s; defense := defense s; magic := magic s;
     speed := speed s; spirit := spirit s; luck := luck s |}.

(** A combatant: a [Character] or an enemy object.  [stats] and
    [statusEffects] are references to a stats object and to an array; the
    fields the engine never reads (class, level, equipment) are left out. *)
Record Unit := {
  unitId : string;
  unitName : option string;
  element : option string;
  stats : loc;
  statusEffects : loc;
  crystalResonance : list (string * Z)
}.

Inductive Kind := party | enemy.

Global Instance Kind_eq_dec : EqDecision Kind.
Proof. solve_decision. Defined.

Record TurnRef := { kind : Kind; refId : string }.

Global Instance TurnRef_eq_dec : EqDecision TurnRef.
Proof. solve_decision. Defined.

Inductive BattleState := pending | in_progress | victory | defeat.

Global Instance BattleState_eq_dec : EqDecision BattleState.
Proof. solve_decision. Defined.

Record Party := { partyIdOf : string; playerId : string; members : list loc }.

Record Battle := {
  battleId : string;
  partyId : string;
  enemies : list loc;
  turnOrder : list TurnRef;
  activeTurnIndex : nat;
  log : list string;
  state : BattleState
}.

Record Command := {
  cmdType : string;
  sourceId : option string;
  targetId : option string;
  abilityId : option string
}.

(** The store: the objects the engine reaches through references, and the
    module-level side map [partyByBattleId]. *)
Record World := {
  statsHeap : gmap loc Stats;
  arrayHeap : gmap loc (list string);
  unitHeap : gmap loc Unit;
  partyByBattleId : gmap string Party
}.

Definition with_stats (h : gmap loc Stats) (w : World) : World :=
  {| statsHeap := h; arrayHeap := arrayHeap w; unitHeap := unitHeap w;
     partyByBattleId := partyByBattleId w |}.

Definition with_arrays (h : gmap loc (list string)) (w : World) : World :=
  {| statsHeap := statsHeap w; arrayHeap := h; unitHeap := unitHeap w;
     partyByBattleId := partyByBattleId w |}.

Definition with_log (l : list string) (b : Battle) : Battle :=
  {| battleId := battleId b; partyId := partyId b; enemies := enemies b;
     turnOrder := turnOrder b; activeTurnIndex := activeTurnIndex b;
     log := l; state := state b |}.

Definition with_state (s : BattleState) (b : Battle) : Battle :=
  {| battleId := battleId b; partyId := partyId b; enemies := enemies b;
     turnOrder := turnOrder b; activeTurnIndex := activeTurnIndex b;
     log := log b; state := s |}.

Definition with_turns (t : list TurnRef) (i : nat) (b : Battle) : Battle :=
  {| battleId := battleId b; partyId := partyId b; enemies := enemies b;
     turnOrder := t; activeTurnIndex := i; log := log b; state := state b |}.

(** [battle.log.push(line)] *)
Definition log_push (line : string) (b : Battle) : Battle :=
  with_log (log b ++ [line]) b.

(** The unit objects behind an array of references, [null] entries skipped. *)
Definition unitsAt (w : World) (ls : list loc) : list Unit :=
  omap (fun l => unitHeap w !! l) ls.

(** ** battleManager.js: reading units *)

Definition getUnitSpeed (w : World) (u : Unit) : Z :=
  match statsHeap w !! stats u with
  | Some s => speed s
  | None => 0
  end.

Definition getUnitName (u : option Unit) : string :=
  match u with
  | Some u =>
      match unitName u with
      | Some n => if JS.trim_truthy n then n else unitId u
      | None => unitId u
      end
  | None => "Unknown"
  end.

(** The loop of [getUnitElement] over [Object.entries(cr)]: the first entry
    of greatest weight among the keys that name an element. *)
Fixpoint bestResonance (cr : list (string * Z)) (bestElement : option string)
    (bestValue : option Z) : option string :=
  match cr with
  | [] => bestElement
  | (k, v) :: rest =>
      let normalized := JS.toUpperCase k in
      if negb (ELEMENTS.hasOwnProperty normalized) then
        bestResonance rest bestElement bestValue
      else if match bestValue with None => true | Some bv => (bv <? v)%Z end then
        bestResonance rest (Some normalized) (Some v)
      else bestResonance rest bestElement bestValue
  end.

Definition getUnitElement (u : Unit) : option string :=
  match element u with
  | Some e => if JS.trim_truthy e then Some e else bestResonance (crystalResonance u) None None
  | None => bestResonance (crystalResonance u) None None
  end.

Definition elementalMultiplier (abilityElement targetElement : option string) : float :=
  if negb (JS.truthy abilityElement) || bool_decide (abilityElement = Some ELEMENTS.NULL)
  then 1%float
  else if negb (JS.truthy targetElement) || bool_decide (targetElement = Some ELEMENTS.NULL)
  then 1%float
  else if bool_decide (targetElement ≫= ELEMENTAL_WEAKNESS = abilityElement) then 1.25%float
  else if bool_decide (abilityElement ≫= ELEMENTAL_WEAKNESS = targetElement) then 0.75%float
  else if bool_decide (abilityElement = targetElement) then JS.n0_9
  else 1%float.

Definition clampHp (s : Stats) : Stats :=
  set_hp (Z.max 0 (Z.min (maxHp s) (hp s))) s.

Definition getPartyForBattle (w : World) (id : string) : option Party :=
  partyByBattleId w !! id.

(** [Array.isArray(party?.members) ? party.members : []] *)
Definition membersOf (w : World) (b : Battle) : list loc :=
  match getPartyForBattle w (battleId b) with
  | Some p => members p
  | None => []
  end.

Definition hasId (i : string) (u : Unit) : bool := String.eqb (unitId u) i.

Definition findUnitInBattle (w : World) (b : Battle) (i : option string)
    : option (Kind * Unit) :=
  match i with
  | None => None
  | Some i =>
      match find (hasId i) (unitsAt w (membersOf w b)) with
      | Some u => Some (party, u)
      | None =>
          match find (hasId i) (unitsAt w (enemies b)) with
          | Some u => Some (enemy, u)
          | None => None
          end
      end
  end.

Definition getUnitHp (w : World) (u : Unit) : Z :=
  match statsHeap w !! stats u with
  | Some s => hp s
  | None => 0
  end.

Definition isAlive (w : World) (u : Unit) : bool := (0 <? getUnitHp w u)%Z.

(** ** battleManager.js: the initial turn order *)

Record Entry := { ref : TurnRef; entrySpeed : Z; tie : string }.

Section TurnOrder.

(** [String.prototype.localeCompare] belongs to the host and its collation
    depends on the locale: the functions that sort take it as a parameter.
    [JS.localeCompare] is the collation the battles below are created
    with. *)
Variable localeCompare : string -> string -> Z.

Definition partyEntry (w : World) (m : Unit) : Entry :=
  {| ref := {| kind := party; refId := unitId m |};
     entrySpeed := getUnitSpeed w m; tie := "p_" ++ unitId m |}.

Definition enemyEntry (w : World) (e : Unit) : Entry :=
  {| ref := {| kind := enemy; refId := unitId e |};
     entrySpeed := getUnitSpeed w e; tie := "e_" ++ unitId e |}.

(** The two [for] loops that fill [entries]. *)
Definition turnEntries (w : World) (p : Party) (foes : list loc) : list Entry :=
  map (partyEntry w) (List.filter (isAlive w) (unitsAt w (members p)))
  ++ map (enemyEntry w) (List.filter (isAlive w) (unitsAt w foes)).

Definition compareEntries (a b : Entry) : Z :=
  if bool_decide (entrySpeed b ≠ entrySpeed a) then (entrySpeed b - entrySpeed a)%Z
  else localeCompare (tie a) (tie b).

Definition sortedEntries (w : World) (p : Party) (foes : list loc) : list Entry :=
  JS.sort compareEntries (turnEntries w p foes).

Definition calculateInitialTurnOrder (w : World) (p : Party) (foes : list loc)
    : list TurnRef :=
  map ref (sortedEntries w p foes).

(** ** battleManager.js: createBattle *)

(** [{ ...e }]: a new object with the fields of [e]; the objects its fields
    refer to are not copied.  A [null] entry has nothing to copy. *)
Definition spread (h : gmap loc Unit) (e : loc) : gmap loc Unit * loc :=
  match h !! e with
  | Some u => let l := fresh (dom h) in (<[l := u]> h, l)
  | None => (h, e)
  end.

(** [enemies.map((e) => ({ ...e }))] *)
Fixpoint spreadAll (h : gmap loc Unit) (es : list loc) : gmap loc Unit * list loc :=
  match es with
  | [] => (h, [])
  | e :: rest =>
      let '(h1, l) := spread h e in
      let '(h2, ls) := spreadAll h1 rest in
      (h2, l :: ls)
  end.

(** [id] is the value [makeBattleId()] drew. *)
Definition createBattle (w : World) (id : string) (p : Party) (foes : list loc)
    : World * Battle :=
  let order := calculateInitialTurnOrder w p foes in
  let '(units, copies) := spreadAll (unitHeap w) foes in
  let battle :=
    {| battleId := id; partyId := partyIdOf p; enemies := copies;
       turnOrder := order; activeTurnIndex := 0;
       log := ["Battle " ++ id ++ " created."]; state := pending |} in
  let w' :=
    {| statsHeap := statsHeap w; arrayHeap := arrayHeap w; unitHeap := units;
       partyByBattleId := <[id := p]> (partyByBattleId w) |} in
  let battle :=
    with_state (if bool_decide (0 < length (turnOrder battle))%nat
                then in_progress else defeat) battle in
  (w', if bool_decide (state battle = in_progress)
       then log_push "Battle started." battle else battle).

End TurnOrder.

(** ** battleManager.js: the active unit, terminal states, pruning *)

(** [battle.turnOrder[battle.activeTurnIndex % battle.turnOrder.length]];
    [undefined] when the schedule is empty. *)
Definition activeRef (b : Battle) : option TurnRef :=
  match turnOrder b with
  | [] => None
  | _ => turnOrder b !! (activeTurnIndex b mod length (turnOrder b))%nat
  end.

Definition getActiveUnit (w : World) (b : Battle) : option Unit :=
  match activeRef b with
  | None => None
  | Some r =>
      match kind r with
      | enemy => find (hasId (refId r)) (unitsAt w (enemies b))
      | party => find (hasId (refId r)) (unitsAt w (membersOf w b))
      end
  end.

Definition recomputeState (w : World) (b : Battle) : BattleState :=
  let partyAlive := existsb (isAlive w) (unitsAt w (membersOf w b)) in
  let enemiesAlive := existsb (isAlive w) (unitsAt w (enemies b)) in
  if negb partyAlive then defeat
  else if negb enemiesAlive then victory
  else in_progress.

Definition aliveIds (w : World) (ls : list loc) : gset string :=
  list_to_set (map unitId (List.filter (isAlive w) (unitsAt w ls))).

Definition pruneDeadFromTurnOrder (w : World) (b : Battle) : Battle :=
  let alivePartyIds := aliveIds w (membersOf w b) in
  let aliveEnemyIds := aliveIds w (enemies b) in
  let order :=
    List.filter (fun r =>
      match kind r with
      | party => bool_decide (refId r ∈ alivePartyIds)
      | enemy => bool_decide (refId r ∈ aliveEnemyIds)
      end) (turnOrder b) in
  with_turns order
    (if bool_decide (length order = 0)%nat then 0%nat
     else (activeTurnIndex b mod length order)%nat) b.

(** ** battleManager.js: executeCommand *)

Definition isHealingTarget (a : Ability) : bool :=
  bool_decide (targetType a = ally_single)
  || bool_decide (targetType a = party_target)
  || bool_decide (targetType a = self_target).

(** [typeof unit.stats?.f === "number" ? unit.stats.f : 0] *)
Definition statOr0 (w : World) (u : Unit) (f : Stats -> Z) : Z :=
  match statsHeap w !! stats u with
  | Some s => f s
  | None => 0
  end.

(** The "MP cost" block: the store after the deduction, or the log line of
    the early return. *)
Definition payMp (w : World) (a : Ability) (source : Unit) : World + string :=
  if (0 <? mpCost a)%Z then
    match statsHeap w !! stats source with
    | None => inr (getUnitName (Some source) ++ " failed to cast " ++ a_name a ++ ".")
    | Some s =>
        if (mp s <? mpCost a)%Z then
          inr (getUnitName (Some source) ++ " tried " ++ a_name a ++ " but lacked MP.")
        else
          inl (with_stats (<[stats source := set_mp (Z.max 0 (mp s - mpCost a)) s]> (statsHeap w)) w)
    end
  else inl w.

(** [Math.max(1, Math.floor((ability.power + sourceMag * 1.1) * mult))] *)
Definition healAmount (a : Ability) (sourceMag : Z) (mult : float) : Z :=
  Z.max 1 (JS.floor ((JS.ofZ (power a) + JS.ofZ sourceMag * JS.n1_1) * mult)%float).

(** [offense], [mitigation] and
    [Math.max(1, Math.floor((offense - mitigation) * mult))] *)
Definition damageAmount (a : Ability) (sourceStr sourceMag targetDef targetSpi : Z)
    (mult : float) : Z :=
  let physical := String.eqb (a_element a) ELEMENTS.NULL in
  let offense := (JS.ofZ (if physical then sourceStr else sourceMag) + JS.ofZ (power a))%float in
  let mitigation := (JS.ofZ (if physical then targetDef else targetSpi) * JS.n0_6)%float in
  Z.max 1 (JS.floor ((offense - mitigation) * mult)%float).

Definition healHp (amount : Z) (s : Stats) : Stats :=
  clampHp (set_hp (hp s + amount) s).

Definition damageHp (amount : Z) (s : Stats) : Stats :=
  clampHp (set_hp (Z.max 0 (hp s - amount)) s).

(** The heal / damage branches: the store and [amount], [verb]. *)
Definition applyPower (w : World) (a : Ability) (source target : Unit)
    : World * Z * string :=
  let sourceStr := statOr0 w source strength in
  let sourceMag := statOr0 w source magic in
  let targetDef := statOr0 w target defense in
  let targetSpi := statOr0 w target spirit in
  let mult := elementalMultiplier (Some (a_element a)) (getUnitElement target) in
  if (0 <? power a)%Z && isHealingTarget a then
    let amount := healAmount a sourceMag mult in
    (with_stats (alter (healHp amount) (stats target) (statsHeap w)) w, amount, "cast")
  else if (0 <? power a)%Z then
    let amount := damageAmount a sourceStr sourceMag targetDef targetSpi mult in
    (with_stats (alter (damageHp amount) (stats target) (statsHeap w)) w, amount, "used")
  else (w, 0%Z, "used").

(** [if (!arr.includes(tag)) arr.push(tag)]; [None] reads as the empty array
    that the block starts from when the unit had none. *)
Definition pushStatus (tag : string) (arr : option (list string)) : list string :=
  let l := default [] arr in
  if bool_decide (tag ∈ l) then l else l ++ [tag].

(** The "Apply status effect" block.  The array written is the one at the
    location the target names.  Where the store holds no array there, the
    source assigns a new array to the target object alone, while here the
    array appears at that location, for every unit record that names it. *)
Definition applyStatus (w : World) (a : Ability) (target : Unit) : World :=
  if JS.truthy (statusEffect a) then
    match statusEffect a with
    | Some tag =>
        with_arrays (<[statusEffects target :=
                        pushStatus tag (arrayHeap w !! statusEffects target)]> (arrayHeap w)) w
    | None => w
    end
  else w.

Definition actionLine (a : Ability) (source target : Unit) (amount : Z) (verb : string)
    : string :=
  let delta :=
    if (0 <? amount)%Z then
      (if isHealingTarget a then "+" ++ pretty amount ++ " HP"
       else "-" ++ pretty amount ++ " HP")
    else "" in
  let statusPart :=
    match statusEffect a with
    | Some tag => if JS.truthy (statusEffect a) then " (" ++ tag ++ ")" else ""
    | None => ""
    end in
  getUnitName (Some source) ++ " " ++ verb ++ " " ++ a_name a ++ " on "
  ++ getUnitName (Some target)
  ++ (if String.eqb delta "" then "" else " " ++ delta) ++ statusPart ++ ".".

(** "Cleanup and win/loss checks" *)
Definition settle (w : World) (b : Battle) : Battle :=
  let b1 := pruneDeadFromTurnOrder w b in
  let nextState := recomputeState w b1 in
  if bool_decide (nextState ≠ state b1) then
    let b2 := with_state nextState b1 in
    match nextState with
    | victory => log_push "Victory!" b2
    | defeat => log_push "Defeat." b2
    | _ => b2
    end
  else b1.

(** From the MP cost to the end of [executeCommand]. *)
Definition resolveCommand (w : World) (b : Battle) (a : Ability) (source target : Unit)
    : World * Battle :=
  match payMp w a source with
  | inr line => (w, log_push line b)
  | inl w1 =>
      let '(w2, amount, verb) := applyPower w1 a source target in
      let w3 := applyStatus w2 a target in
      (w3, settle w3 (log_push (actionLine a source target amount verb) b))
  end.

Definition executeCommand (w : World) (b : Battle) (c : Command) : World * Battle :=
  if bool_decide (state b ≠ in_progress) then (w, b)
  else
    match abilityId c ≫= (fun i => ABILITIES_BY_ID !! i) with
    | None => (w, log_push "Invalid command: unknown ability." b)
    | Some ability =>
        if bool_decide (abilityId c = Some "flee") then
          let sourceName := getUnitName (snd <$> findUnitInBattle w b (sourceId c)) in
          (w, with_state defeat (log_push (sourceName ++ " fled.") b))
        else
          match activeRef b with
          | None => (w, log_push "Invalid command: not active unit." b)
          | Some r =>
              if bool_decide (Some (refId r) ≠ sourceId c) then
                (w, log_push "Invalid command: not active unit." b)
              else
                match findUnitInBattle w b (sourceId c), findUnitInBattle w b (targetId c) with
                | Some (_, source), Some (_, target) =>
                    resolveCommand w b ability source target
                | _, _ => (w, log_push "Invalid command: missing source/target." b)
                end
          end
    end.

(** ** battleManager.js: advanceTurn *)

Definition nextIndex (b : Battle) : Battle :=
  with_turns (turnOrder b) ((activeTurnIndex b + 1) mod length (turnOrder b))%nat b.

(** The safety loop, [n] iterations left. *)
Fixpoint skipStale (w : World) (n : nat) (b : Battle) : Battle :=
  match n with
  | O => b
  | S n' =>
      match getActiveUnit w b with
      | Some u => if isAlive w u then b else skipStale w n' (nextIndex b)
      | None => skipStale w n' (nextIndex b)
      end
  end.

Definition advanceTurn (w : World) (b : Battle) : Battle :=
  if bool_decide (state b ≠ in_progress) then b
  else
    let b1 := pruneDeadFromTurnOrder w b in
    let nextState := recomputeState w b1 in
    if bool_decide (nextState ≠ in_progress) then
      log_push (if bool_decide (nextState = victory) then "Victory!" else "Defeat.")
        (with_state nextState b1)
    else if bool_decide (length (turnOrder b1) = 0)%nat then
      log_push "Defeat." (with_state defeat b1)
    else
      let b2 := nextIndex b1 in
      skipStale w (length (turnOrder b2)) b2.

(** ** server.js: the command validator *)

Record Verdict := { ok : bool; reason : option string }.

Definition rejected (why : string) : Verdict := {| ok := false; reason := Some why |}.

Definition unitById (w : World) (b : Battle) (i : string) : option (Kind * Unit) :=
  match find (hasId i) (unitsAt w (membersOf w b)) with
  | Some m => Some (party, m)
  | None =>
      match find (hasId i) (unitsAt w (enemies b)) with
      | Some e => Some (enemy, e)
      | None => None
      end
  end.

Definition validateBattleCommand (w : World) (b : Battle) (player : string) (c : Command)
    : Verdict :=
  if bool_decide (state b ≠ in_progress) then rejected "battle not in progress"
  else if bool_decide (length (turnOrder b) = 0)%nat then rejected "no turn order"
  else
    match activeRef b with
    | None => rejected "not player turn"
    | Some r =>
        if bool_decide (kind r ≠ party) then rejected "not player turn"
        else
          match getPartyForBattle w (battleId b) with
          | None => rejected "battle not owned by player"
          | Some p =>
              if bool_decide (playerId p ≠ player) then rejected "battle not owned by player"
              else
                match sourceId c with
                | None => rejected "invalid source for active turn"
                | Some src =>
                    if bool_decide (src ≠ refId r) then rejected "invalid source for active turn"
                    else
                      match abilityId c ≫= (fun i => ABILITIES_BY_ID !! i) with
                      | None => rejected "unknown ability"
                      | Some ability =>
                          match unitById w b src with
                          | None => rejected "missing source"
                          | Some (_, source) =>
                              if (0 <? mpCost ability)%Z
                                 && match statsHeap w !! stats source with
                                    | Some s => (mp s <? mpCost ability)%Z
                                    | None => true
                                    end
                              then rejected "not enough MP"
                              else
                                match (if bool_decide (targetType ability = self_target)
                                       then Some src else targetId c) with
                                | None => rejected "missing target"
                                | Some tgt =>
                                    match unitById w b tgt with
                                    | None => rejected "target not found"
                                    | Some (k, _) =>
                                        if bool_decide (targetType ability = enemy_single)
                                           && bool_decide (k ≠ enemy)
                                        then rejected "target must be enemy"
                                        else if bool_decide (targetType ability = ally_single)
                                                && bool_decide (k ≠ party)
                                        then rejected "target must be ally"
                                        else if bool_decide (targetType ability = party_target)
                                                || bool_decide (targetType ability = enemy_all)
                                        then rejected "unsupported target type"
                                        else {| ok := true; reason := None |}
                                    end
                                end
                          end
                      end
                end
          end
    end.

(** ** server.js: enemy turns and the battle command handler *)

Definition findFirstAlivePartyMemberId (w : World) (b : Battle) : option string :=
  unitId <$> find (isAlive w) (unitsAt w (membersOf w b)).

(** The command [runEnemyTurns] issues for an enemy. *)
Definition enemyAttack (source target : string) : Command :=
  {| cmdType := "ability"; sourceId := Some source; targetId := Some target;
     abilityId := Some "basic_attack" |}.

(** The [while] loop of [runEnemyTurns], cut off after [fuel] iterations:
    [None] when the fuel runs out before the loop exits. *)
Fixpoint runEnemyTurns (fuel : nat) (w : World) (b : Battle) : option (World * Battle) :=
  match fuel with
  | O => None
  | S n =>
      if bool_decide (state b ≠ in_progress) then Some (w, b)
      else
        match activeRef b with
        | None => Some (w, b)
        | Some r =>
            if bool_decide (kind r ≠ enemy) then Some (w, b)
            else
              match find (hasId (refId r)) (unitsAt w (enemies b)) with
              | None => runEnemyTurns n w (advanceTurn w b)
              | Some e =>
                  let targetId := findFirstAlivePartyMemberId w b in
                  if negb (JS.truthy targetId) then Some (w, b)
                  else
                    let '(w1, b1) :=
                      executeCommand w b
                        {| cmdType := "ability"; sourceId := Some (unitId e);
                           targetId := targetId; abilityId := Some "basic_attack" |} in
                    runEnemyTurns n w1 (advanceTurn w1 b1)
              end
        end
  end.

(** [msg.command] as it arrives: a field that is not a string is [None]. *)
Record Message := {
  msgType : option string;
  msgSourceId : option string;
  msgTargetId : option string;
  msgAbilityId : option string
}.

(** The object [normalized] of the BATTLE_COMMAND handler. *)
Definition normalized (b : Battle) (cmd : Message) : Command :=
  {| cmdType := default "ability" (msgType cmd);
     sourceId := match msgSourceId cmd with
                 | Some s => Some s
                 | None => refId <$> activeRef b
                 end;
     targetId := msgTargetId cmd;
     abilityId := msgAbilityId cmd |}.

(** The BATTLE_COMMAND handler, from the normalization of the command to the
    end of the enemy turns: what it does to the store and to the battle.
    The replies to the client and the copy of the active member's hp into
    the player's save write neither.  The cleanup of a finished battle comes
    after and is not part of this function: [deleteBattleById] removes the
    battle from the registry and its party from [partyByBattleId]. *)
Definition onBattleCommand (fuel : nat) (w : World) (b : Battle) (player : string)
    (cmd : Message) : option (World * Battle) :=
  let c := normalized b cmd in
  let verdict := validateBattleCommand w b player c in
  if negb (ok verdict) then
    Some (w, log_push ("Invalid command: "
                       ++ match reason verdict with Some r => r | None => "null" end
                       ++ ".") b)
  else
    let '(w1, b1) := executeCommand w b c in
    runEnemyTurns fuel w1 (advanceTurn w1 b1).

(** ** story.js *)

Module Story.

Record Objective := { objType : string; objTarget : string; requiredCount : Z }.

(** [rewards]: a field that the object does not have is [None]. *)
Record Rewards := {
  rewardGold : option Z;
  rewardExperience : option Z;
  rewardItems : option (list (string * Z))
}.

Record Quest := {
  questId : string;
  questName : string;
  prerequisites : list string;
  objectives : list Objective;
  rewards : Rewards;
  nextQuestIds : list string
}.

Definition QUESTS : list Quest := [
  {| questId := "act1_investigate_dawnrise"; questName := "Investigate Dawnrise";
     prerequisites := [];
     objectives := [ {| objType := "visit"; objTarget := "region:dawnrise"; requiredCount := 1 |};
                     {| objType := "talk"; objTarget := "npc:elder_rowan"; requiredCount := 1 |} ];
     rewards := {| rewardGold := Some 10%Z; rewardExperience := Some 10%Z;
                   rewardItems := Some [("potion", 1%Z)] |};
     nextQuestIds := ["act1_reach_light_shrine"] |};
  {| questId := "act1_reach_light_shrine"; questName := "Reach the Light Shrine";
     prerequisites := ["act1_investigate_dawnrise"];
     objectives := [ {| objType := "visit"; objTarget := "region:stormfell"; requiredCount := 1 |};
                     {| objType := "visit"; objTarget := "region:light_shrine"; requiredCount := 1 |} ];
     rewards := {| rewardGold := Some 15%Z; rewardExperience := Some 15%Z; rewardItems := None |};
     nextQuestIds := ["act1_cleanse_light_crystal"] |};
  {| questId := "act1_cleanse_light_crystal"; questName := "Cleanse the Light Crystal";
     prerequisites := ["act1_reach_light_shrine"];
     objectives := [ {| objType := "defeat"; objTarget := "boss:light_shrine_guardian";
                        requiredCount := 1 |};
                     {| objType := "visit"; objTarget := "object:light_crystal"; requiredCount := 1 |} ];
     rewards := {| rewardGold := Some 25%Z; rewardExperience := Some 30%Z;
                   rewardItems := Some [("light_crystal_shard", 1%Z)] |};
     nextQuestIds := [] |}
].

(** [QUESTS.reduce((acc, q) => { acc[q.id] = q; return acc; }, {})]: the own
    properties of the table, as for the abilities. *)
Definition QUESTS_BY_ID : gmap string Quest :=
  foldl (fun acc q => <[questId q := q]> acc) ∅ QUESTS.

(** The player state the module reads and writes.  [progressByQuestId] maps
    a quest id to the array of its objectives' progress records, kept by
    index; [gold], [experience] and [inventory] are [None] when the state
    has no such field. *)
Record PlayerState := {
  activeQuestIds : list string;
  completedQuestIds : list string;
  progressByQuestId : gmap string (gmap nat Z);
  gold : option Z;
  experience : option Z;
  inventory : option (gmap string Z)
}.

Definition with_active (l : list string) (s : PlayerState) : PlayerState :=
  {| activeQuestIds := l; completedQuestIds := completedQuestIds s;
     progressByQuestId := progressByQuestId s; gold := gold s;
     experience := experience s; inventory := inventory s |}.

Definition with_completed (l : list string) (s : PlayerState) : PlayerState :=
  {| activeQuestIds := activeQuestIds s; completedQuestIds := l;
     progressByQuestId := progressByQuestId s; gold := gold s;
     experience := experience s; inventory := inventory s |}.

Definition with_progress (p : gmap string (gmap nat Z)) (s : PlayerState) : PlayerState :=
  {| activeQuestIds := activeQuestIds s; completedQuestIds := completedQuestIds s;
     progressByQuestId := p; gold := gold s;
     experience := experience s; inventory := inventory s |}.

Record Event := { evType : string; evTarget : string; evCount : option Z }.

Definition isQuestCompleted (s : PlayerState) (i : string) : bool :=
  bool_decide (i ∈ completedQuestIds s).

Definition isQuestActive (s : PlayerState) (i : string) : bool :=
  bool_decide (i ∈ activeQuestIds s).

Definition prerequisitesMet (s : PlayerState) (q : Quest) : bool :=
  forallb (isQuestCompleted s) (prerequisites q).

Definition getAvailableQuestsForPlayer (s : PlayerState) : list Quest :=
  List.filter (fun q => negb (isQuestCompleted s (questId q))
                        && negb (isQuestActive s (questId q))
                        && prerequisitesMet s q) QUESTS.

(** [(base.objectives || []).map(() => ({ progress: 0 }))] *)
Definition freshProgress (q : Quest) : gmap nat Z :=
  map_seq 0 (replicate (length (objectives q)) 0%Z).

Definition ensureProgressForQuest (s : PlayerState) (i : string) : PlayerState :=
  match progressByQuestId s !! i with
  | Some _ => s
  | None =>
      match QUESTS_BY_ID !! i with
      | None => s
      | Some base => with_progress (<[i := freshProgress base]> (progressByQuestId s)) s
      end
  end.

Definition applyItems (inv : gmap string Z) (items : list (string * Z)) : gmap string Z :=
  foldl (fun acc it => <[it.1 := (default 0 (acc !! it.1) + it.2)%Z]> acc) inv items.

Definition applyRewards (s : PlayerState) (r : Rewards) : PlayerState :=
  {| activeQuestIds := activeQuestIds s; completedQuestIds := completedQuestIds s;
     progressByQuestId := progressByQuestId s;
     gold := match rewardGold r with
             | Some g => Some (default 0 (gold s) + g)%Z
             | None => gold s
             end;
     experience := match rewardExperience r with
                   | Some x => Some (default 0 (experience s) + x)%Z
                   | None => experience s
                   end;
     inventory := match rewardItems r with
                  | Some items => Some (applyItems (default ∅ (inventory s)) items)
                  | None => inventory s
                  end |}.

(** The loop of [questIsComplete], from index [i] on. *)
Fixpoint questIsCompleteFrom (i : nat) (objs : list Objective) (prog : gmap nat Z) : bool :=
  match objs with
  | [] => true
  | o :: rest =>
      if (default 0 (prog !! i) <? requiredCount o)%Z then false
      else questIsCompleteFrom (S i) rest prog
  end.

Definition questIsComplete (q : Quest) (prog : gmap nat Z) : bool :=
  questIsCompleteFrom 0 (objectives q) prog.

(** The inner loop of [updateQuestProgress] over the objectives, from index
    [i] on: the progress array and the flag [changed]. *)
Fixpoint advanceObjectives (ev : Event) (count : Z) (i : nat) (objs : list Objective)
    (prog : gmap nat Z) (changed : bool) : gmap nat Z * bool :=
  match objs with
  | [] => (prog, changed)
  | o :: rest =>
      if negb (String.eqb (objType o) (evType ev)) then
        advanceObjectives ev count (S i) rest prog changed
      else if negb (String.eqb (objTarget o) (evTarget ev)) then
        advanceObjectives ev count (S i) rest prog changed
      else
        let required := requiredCount o in
        let cur := default 0%Z (prog !! i) in
        let next := Z.min required (cur + count) in
        let prog1 := match prog !! i with
                     | Some _ => prog
                     | None => <[i := 0%Z]> prog
                     end in
        if bool_decide (next ≠ cur) then
          advanceObjectives ev count (S i) rest (<[i := next]> prog1) true
        else advanceObjectives ev count (S i) rest prog1 changed
  end.

(** What [updateQuestProgress] returns beside the state it mutates.
    [deltaCompleted] is the field [completedQuestIds] of the result, a name
    the player state already has; [availableQuests] holds the ids. *)
Record Delta := {
  changed : bool;
  deltaCompleted : list string;
  newlyActivatedQuestIds : list string;
  availableQuests : list string
}.

(** The loop over [quest.nextQuestIds]. *)
Definition activateNext (acc : PlayerState * list string) (nextId : string)
    : PlayerState * list string :=
  let '(s, activated) := acc in
  if negb (JS.trim_truthy nextId) then acc
  else
    match QUESTS_BY_ID !! nextId with
    | None => acc
    | Some nextQuest =>
        if isQuestCompleted s nextId then acc
        else if isQuestActive s nextId then acc
        else if negb (prerequisitesMet s nextQuest) then acc
        else
          (ensureProgressForQuest (with_active (activeQuestIds s ++ [nextId])%list s) nextId,
           (activated ++ [nextId])%list)
    end.

(** The accumulators of the outer loop: the state, [completedQuestIds],
    [newlyActivatedQuestIds] and [changed]. *)
Definition Acc : Type := PlayerState * list string * list string * bool.

(** One iteration of the loop over the snapshot of the active quests. *)
Definition updateQuest (ev : Event) (count : Z) (acc : Acc) (i : string) : Acc :=
  let '(s, completed, activated, ch) := acc in
  match QUESTS_BY_ID !! i with
  | None => acc
  | Some quest =>
      let s1 := ensureProgressForQuest s i in
      let '(prog, ch1) :=
        advanceObjectives ev count 0 (objectives quest)
          (default ∅ (progressByQuestId s1 !! i)) ch in
      let s2 := with_progress (<[i := prog]> (progressByQuestId s1)) s1 in
      if questIsComplete quest prog then
        let s3 := if isQuestCompleted s2 i then s2
                  else with_completed (completedQuestIds s2 ++ [i])%list s2 in
        let s4 := with_active (List.filter (fun j => negb (String.eqb j i))
                                 (activeQuestIds s3)) s3 in
        let s5 := applyRewards s4 (rewards quest) in
        let '(s6, activated') := foldl activateNext (s5, activated) (nextQuestIds quest) in
        (s6, (completed ++ [i])%list, activated', true)
      else (s2, completed, activated, ch1)
  end.

Definition updateQuestProgress (s : PlayerState) (ev : Event) : PlayerState * Delta :=
  let count := match evCount ev with
               | Some c => if (0 <? c)%Z then c else 1%Z
               | None => 1%Z
               end in
  let '(s', completed, activated, ch) :=
    foldl (updateQuest ev count) (s, [], [], false) (activeQuestIds s) in
  (s', {| changed := ch; deltaCompleted := completed;
          newlyActivatedQuestIds := activated;
          availableQuests := map questId (getAvailableQuestsForPlayer s') |}).

End Story.

(** ** world.js *)

Module TILE_TYPES.
Definition WALKABLE := "walkable".
Definition BLOCKING := "blocking".
Definition INTERACTIVE := "interactive".
Definition WARP := "warp".
Definition DOOR := "door".
End TILE_TYPES.

(** [class MapGrid]; [tiles] is indexed [tiles[y][x]]. *)
Record MapGrid := { width : Z; height : Z; tiles : list (list string) }.

(** [new MapGrid({ width, height, tiles })]: [None] where the constructor
    throws a [TypeError]. *)
Definition newMapGrid (w h : Z) (t : list (list string)) : option MapGrid :=
  if (w <=? 0)%Z then None
  else if (h <=? 0)%Z then None
  else if negb (Z.of_nat (length t) =? h)%Z then None
  else if negb (forallb (fun row => (Z.of_nat (length row) =? w)%Z) t) then None
  else Some {| width := w; height := h; tiles := t |}.

(** [tileAt(x, y)] at integer coordinates. *)
Definition tileAt (g : MapGrid) (x y : Z) : option string :=
  if (x <? 0)%Z || (y <? 0)%Z || (width g <=? x)%Z || (height g <=? y)%Z then None
  else tiles g !! Z.to_nat y ≫= (fun row => row !! Z.to_nat x).

(** The legend of [fromAscii]. *)
Definition tileOfChar (ch : ascii) : string :=
  if Ascii.eqb ch "."%char then TILE_TYPES.WALKABLE
  else if Ascii.eqb ch "#"%char then TILE_TYPES.BLOCKING
  else if Ascii.eqb ch "!"%char then TILE_TYPES.INTERACTIVE
  else if Ascii.eqb ch "^"%char then TILE_TYPES.WARP
  else if Ascii.eqb ch "+"%char then TILE_TYPES.DOOR
  else TILE_TYPES.BLOCKING.

(** [MapGrid.fromAscii(rows)]: [None] where it throws.  The rows are ASCII
    strings, for which [Array.from(r)] has [r.length] elements. *)
Definition fromAscii (rows : list string) : option MapGrid :=
  match rows with
  | [] => None
  | first :: _ =>
      let h := Z.of_nat (length rows) in
      let w := Z.of_nat (String.length first) in
      if (w =? 0)%Z then None
      else if negb (forallb (fun r => (Z.of_nat (String.length r) =? w)%Z) rows) then None
      else newMapGrid w h (map (fun r => map tileOfChar (list_ascii_of_string r)) rows)
  end.

Inductive RegionType := town | overworld | dungeon.

(** [class WorldRegion]; the constructor's checks are those of the record's
    types, but for the non-blank id and name. *)
Record WorldRegion := {
  regionId : string;
  regionName : string;
  regionType : RegionType;
  connections : list (string * string);
  encounterTableId : option string;
  regionMap : MapGrid
}.

Module REGION_IDS.
Definition VILLAGE_DAWNRISE := "village_dawnrise".
Definition STORMFELL := "stormfell".
Definition LIGHT_SHRINE := "light_shrine".
End REGION_IDS.

Definition villageOfDawnriseRows : list string := [
  "####################";
  "#....!.......+.....#";
  "#..................#";
  "#....######........#";
  "#....#....#........#";
  "#....#....#........#";
  "#....######........#";
  "#..................#";
  "#..........^.......#";
  "#..................#";
  "####################"
].

Definition stormfellRows : list string := [
  "####################";
  "#...........####...#";
  "#..####.....#..#...#";
  "#..#..#.....#..#...#";
  "#..#..#.....####...#";
  "#..#..#............#";
  "#..####............#";
  "#...........!......#";
  "#......^...........#";
  "#..................#";
  "####################"
].

Definition lightShrineRows : list string := [
  "####################";
  "#..+...............#";
  "#..######..######..#";
  "#..#....#..#....#..#";
  "#..#.!..#..#..!.#..#";
  "#..#....#..#....#..#";
  "#..######..######..#";
  "#..............^...#";
  "#..................#";
  "####################"
].

(** The module-level code that builds [REGIONS]: [None] if one of the
    constructors throws while the module loads. *)
Definition loadRegions : option (list WorldRegion) :=
  villageOfDawnriseMap ← fromAscii villageOfDawnriseRows;
  stormfellMap ← fromAscii stormfellRows;
  lightShrineMap ← fromAscii lightShrineRows;
  Some [
    {| regionId := REGION_IDS.VILLAGE_DAWNRISE; regionName := "Village of Dawnrise";
       regionType := town;
       connections := [(REGION_IDS.STORMFELL, "north_gate")];
       encounterTableId := None; regionMap := villageOfDawnriseMap |};
    {| regionId := REGION_IDS.STORMFELL; regionName := "Stormfell";
       regionType := overworld;
       connections := [(REGION_IDS.VILLAGE_DAWNRISE, "south_road");
                       (REGION_IDS.LIGHT_SHRINE, "shrine_path")];
       encounterTableId := Some "encounters_stormfell_v1"; regionMap := stormfellMap |};
    {| regionId := REGION_IDS.LIGHT_SHRINE; regionName := "Light Shrine";
       regionType := dungeon;
       connections := [(REGION_IDS.STORMFELL, "entrance")];
       encounterTableId := Some "encounters_light_shrine_v1"; regionMap := lightShrineMap |}
  ].

Definition REGIONS : list WorldRegion := default [] loadRegions.

Definition getRegionById (i : string) : option WorldRegion :=
  find (fun r => String.eqb (regionId r) i) REGIONS.

Definition canMoveTo (i : string) (x y : Z) : bool :=
  match getRegionById i with
  | None => false
  | Some region =>
      match tileAt (regionMap region) x y with
      | None => false
      | Some tile => if JS.truthy (Some tile) then negb (String.eqb tile TILE_TYPES.BLOCKING)
                     else false
      end
  end.

(** * The vocabulary of the statements *)

(** Code-unit lexicographic comparison: the order the specification names
    for the tie-break. *)
Definition lexCompare (a b : string) : Z :=
  match String.compare a b with
  | Lt => (-1)%Z
  | Eq => 0%Z
  | Gt => 1%Z
  end.


(** A field other than [mp]. *)
Definition mpFree (f : Stats -> Z) : Prop := forall v s, f (set_mp v s) = f s.

(** The stats heap after the MP block. *)
Definition paidHeap (w : World) (a : Ability) (source : Unit) : gmap loc Stats :=
  if (0 <? mpCost a)%Z then
    match statsHeap w !! stats source with
    | Some s => <[stats source := set_mp (Z.max 0 (mp s - mpCost a)) s]> (statsHeap w)
    | None => statsHeap w
    end
  else statsHeap w.

(** The MP block succeeds exactly when the ability is free or the source has
    a numeric [mp] that covers the cost. *)
Definition canPay (w : World) (a : Ability) (source : Unit) : Prop :=
  (0 < mpCost a)%Z ->
  exists s, statsHeap w !! stats source = Some s /\ (mpCost a <= mp s)%Z.

(** The weakness table as the pairs (element, the element it is weak to). *)
Definition weaknessPairs : list (string * string) :=
  [("FIRE", "WATER"); ("WATER", "EARTH"); ("EARTH", "WIND"); ("WIND", "FIRE");
   ("LIGHT", "SHADOW"); ("SHADOW", "LIGHT"); ("NULL", "NULL")].

(** A value that is [null], [undefined], the empty string or ["NULL"]. *)
Definition absentOrNull (e : option string) : Prop :=
  e = None \/ e = Some "" \/ e = Some "NULL".

(** The guards of [executeCommand] up to the MP block: a battle in progress,
    a known ability other than flee, a source that is the active turn
    reference, a source and a target that resolve. *)
Record resolves (w : World) (b : Battle) (c : Command) (a : Ability)
    (source target : Unit) : Prop := {
  res_state : state b = in_progress;
  res_ability : abilityId c ≫= (fun i => ABILITIES_BY_ID !! i) = Some a;
  res_not_flee : abilityId c ≠ Some "flee";
  res_active : exists r, activeRef b = Some r /\ sourceId c = Some (refId r);
  res_source : exists k, findUnitInBattle w b (sourceId c) = Some (k, source);
  res_target : exists k, findUnitInBattle w b (targetId c) = Some (k, target)
}.

(** The amounts as the formulas compute them from the store before the
    command. *)
Definition damageOf (w : World) (a : Ability) (source target : Unit) : Z :=
  damageAmount a (statOr0 w source strength) (statOr0 w source magic)
    (statOr0 w target defense) (statOr0 w target spirit)
    (elementalMultiplier (Some (a_element a)) (getUnitElement target)).

Definition healOf (w : World) (a : Ability) (source target : Unit) : Z :=
  healAmount a (statOr0 w source magic)
    (elementalMultiplier (Some (a_element a)) (getUnitElement target)).

(** The reasons the validator gives. *)
Definition validatorReasons : list string :=
  ["battle not in progress"; "no turn order"; "not player turn";
   "battle not owned by player"; "invalid source for active turn";
   "unknown ability"; "missing source"; "not enough MP"; "missing target";
   "target not found"; "target must be enemy"; "target must be ally";
   "unsupported target type"].

(** Some unit of the array is alive in the store. *)
Definition someAlive (w : World) (ls : list loc) : Prop :=
  exists u, u ∈ unitsAt w ls /\ (0 < getUnitHp w u)%Z.

Definition terminalLines (s : BattleState) : list string :=
  match s with
  | victory => ["Victory!"]
  | defeat => ["Defeat."]
  | _ => []
  end.

Definition occurrences (tag : string) (l : list string) : nat :=
  length (List.filter (String.eqb tag) l).

Definition multiTarget (a : Ability) : Prop :=
  targetType a = party_target \/ targetType a = enemy_all.

(** What it would mean for the executor to turn such abilities down: no
    command carrying one changes any unit's hit points. *)
Definition executorRejectsMultiTarget : Prop :=
  forall w b c a u,
    abilityId c ≫= (fun i => ABILITIES_BY_ID !! i) = Some a ->
    multiTarget a ->
    getUnitHp (fst (executeCommand w b c)) u = getUnitHp w u.

(** The checks of the validator that come before the target checks. *)
Record reachesTargetChecks (w : World) (b : Battle) (player : string) (c : Command)
    (a : Ability) : Prop := {
  rtc_state : state b = in_progress;
  rtc_active : exists r, activeRef b = Some r /\ kind r = party
                         /\ sourceId c = Some (refId r);
  rtc_owner : exists p, getPartyForBattle w (battleId b) = Some p /\ playerId p = player;
  rtc_source : exists k source, sourceId c ≫= unitById w b = Some (k, source)
                                /\ canPay w a source;
  rtc_target : exists k target,
      (if bool_decide (targetType a = self_target) then sourceId c else targetId c)
        ≫= unitById w b = Some (k, target)
}.

Definition terminal (b : Battle) : Prop := state b = victory \/ state b = defeat.

(** The invariant of the data model. *)
Definition scheduleInvariant (b : Battle) : Prop :=
  (turnOrder b ≠ [] /\ (activeTurnIndex b < length (turnOrder b))%nat)
  \/ (turnOrder b = [] /\ terminal b).

(** What every operation keeps: a valid index whenever there is a schedule,
    and a state past [pending]. *)
Definition scheduleShape (b : Battle) : Prop :=
  ((activeTurnIndex b < length (turnOrder b))%nat \/ turnOrder b = [])
  /\ state b ≠ pending.

(** One call of the engine on a stored battle. *)
Inductive step : World * Battle -> World * Battle -> Prop :=
  | step_execute (w : World) (b : Battle) (c : Command) :
      step (w, b) (executeCommand w b c)
  | step_advance (w : World) (b : Battle) :
      step (w, b) (w, advanceTurn w b).

(** The battles [createBattle] produces, evolved by the two operations. *)
Inductive reachable (lc : string -> string -> Z) : World * Battle -> Prop :=
  | reach_create (w : World) (id : string) (p : Party) (foes : list loc) :
      reachable lc (createBattle lc w id p foes)
  | reach_step (s s' : World * Battle) :
      reachable lc s -> step s s' -> reachable lc s'.

(** The invariant, required after every operation. *)
Definition scheduleInvariantAlways : Prop :=
  forall lc s, reachable lc s -> scheduleInvariant (snd s).








(** The fields of a stats object that no battle operation assigns. *)
Definition sameAttributes (s s' : Stats) : Prop :=
  maxHp s' = maxHp s /\ maxMp s' = maxMp s /\ strength s' = strength s
  /\ defense s' = defense s /\ magic s' = magic s /\ speed s' = speed s
  /\ spirit s' = spirit s /\ luck s' = luck s.

(** The three ways [executeCommand] returns without resolving the ability. *)
Definition turnedDown (b b' : Battle) : Prop :=
  b' = b
  \/ (exists line, b' = log_push line b)
  \/ (exists line, b' = with_state defeat (log_push line b)).

(** A stats object whose points lie within their maxima. *)
Definition withinBounds (s : Stats) : Prop :=
  (0 <= hp s <= maxHp s)%Z /\ (0 <= mp s <= maxMp s)%Z.

(** What an operation of the engine may do to a battle object: keep its
    identity and its enemies, drop entries of the schedule, leave the state
    [pending] behind for good, and append at most [n] lines to the log. *)
Definition evolves (n : nat) (b b' : Battle) : Prop :=
  battleId b' = battleId b /\ partyId b' = partyId b /\ enemies b' = enemies b
  /\ turnOrder b' `sublist_of` turnOrder b
  /\ (state b' = pending -> state b = pending)
  /\ exists new, log b' = (log b ++ new)%list /\ (length new <= n)%nat.

(** The array of unit references a turn reference of kind [k] points into. *)
Definition sideOf (w : World) (b : Battle) (k : Kind) : list loc :=
  match k with
  | party => membersOf w b
  | enemy => enemies b
  end.

(** No two units of the array carry the same id. *)
Definition uniqueIds (w : World) (ls : list loc) : Prop :=
  NoDup (map unitId (unitsAt w ls)).

(** A key of [crystalResonance] that names an element, in any letter case. *)
Definition namesElement (k : string) : Prop :=
  ELEMENTS.hasOwnProperty (JS.toUpperCase k) = true.

(** Entry [i] of [cr] is the first one of greatest weight among the entries
    whose key names an element. *)
Definition firstHeaviest (cr : list (string * Z)) (i : nat) (k : string) (v : Z) : Prop :=
  cr !! i = Some (k, v) /\ namesElement k
  /\ forall j k' v', cr !! j = Some (k', v') -> namesElement k' ->
        (v' <= v)%Z /\ ((j < i)%nat -> (v' < v)%Z).

(** The hit points the party has left, counted per member. *)
Definition partyHp (w : World) (b : Battle) : nat :=
  sum_list (map (fun u => Z.to_nat (getUnitHp w u)) (unitsAt w (membersOf w b))).

(** The states in which the loop of [runEnemyTurns] exits. *)
Definition enemyTurnsOver (w : World) (b : Battle) : Prop :=
  state b ≠ in_progress
  \/ activeRef b = None
  \/ (exists r, activeRef b = Some r /\ kind r = party)
  \/ JS.truthy (findFirstAlivePartyMemberId w b) = false.

(** What a run of engine operations keeps of the store and of the battle. *)
Definition sameBattle (w : World) (b : Battle) (w' : World) (b' : Battle) : Prop :=
  unitHeap w' = unitHeap w /\ partyByBattleId w' = partyByBattleId w
  /\ exists n, evolves n b b'.



(** The progress of objective [j] of quest [i] as the module reads it: 0
    where the state has no record. *)
Definition progressOf (s : Story.PlayerState) (i : string) (j : nat) : Z :=
  default 0%Z (Story.progressByQuestId s !! i ≫= (fun prog => prog !! j)).

(** [event.count] as [updateQuestProgress] reads it. *)
Definition countOf (ev : Story.Event) : Z :=
  match Story.evCount ev with
  | Some c => if (0 <? c)%Z then c else 1%Z
  | None => 1%Z
  end.

(** The objective is of the event's type and names the event's target. *)
Definition concerns (ev : Story.Event) (o : Story.Objective) : bool :=
  String.eqb (Story.objType o) (Story.evType ev)
  && String.eqb (Story.objTarget o) (Story.evTarget ev).

(** The progress of objective [j] of quest [i] after an event, given the
    progress [p] before it: advanced by the event's count, up to the required
    count, when the quest is active and known and the objective concerns the
    event. *)
Definition progressAfter (active : list string) (ev : Story.Event) (i : string) (j : nat)
    (p : Z) : Z :=
  match Story.QUESTS_BY_ID !! i with
  | Some q =>
      match Story.objectives q !! j with
      | Some o =>
          if bool_decide (i ∈ active) && concerns ev o
          then Z.min (Story.requiredCount o) (p + countOf ev)
          else p
      | None => p
      end
  | None => p
  end.

(** The state held by the accumulators of the outer loop. *)
Definition stateOf (acc : Story.Acc) : Story.PlayerState := acc.1.1.1.

(** A new game of the server ([buildDefaultSave]): the first quest active,
    10 gold and one potion. *)
Definition newGame : Story.PlayerState :=
  {| Story.activeQuestIds := ["act1_investigate_dawnrise"]; Story.completedQuestIds := [];
     Story.progressByQuestId := ∅; Story.gold := Some 10%Z; Story.experience := None;
     Story.inventory := Some {[ "potion" := 1%Z ]} |}.

Definition visitDawnrise : Story.Event :=
  {| Story.evType := "visit"; Story.evTarget := "region:dawnrise"; Story.evCount := None |}.

Definition talkToElder : Story.Event :=
  {| Story.evType := "talk"; Story.evTarget := "npc:elder_rowan"; Story.evCount := Some 3%Z |}.

(** The quest lists of a state are sets, and no quest is both active and
    completed. *)
Definition questSets (s : Story.PlayerState) : Prop :=
  NoDup (Story.activeQuestIds s) /\ NoDup (Story.completedQuestIds s)
  /\ forall i, i ∈ Story.activeQuestIds s -> i ∉ Story.completedQuestIds s.

(** [l] without the elements of [c], in the order of [l]. *)
Definition without (c l : list string) : list string :=
  List.filter (fun j => negb (bool_decide (j ∈ c))) l.

(** Gold, experience and inventory. *)
Definition purse (s : Story.PlayerState) : option Z * option Z * option (gmap string Z) :=
  (Story.gold s, Story.experience s, Story.inventory s).

(** The rewards of quest [i], granted to [s]. *)
Definition grant (s : Story.PlayerState) (i : string) : Story.PlayerState :=
  match Story.QUESTS_BY_ID !! i with
  | Some q => Story.applyRewards s (Story.rewards q)
  | None => s
  end.

(** The gold that completing quest [i] pays. *)
Definition goldOf (i : string) : Z :=
  default 0%Z (Story.QUESTS_BY_ID !! i ≫= (fun q => Story.rewardGold (Story.rewards q))).

(** Every objective of quest [q], stored under [i], has reached its required
    count. *)
Definition objectivesMet (s : Story.PlayerState) (i : string) (q : Story.Quest) : Prop :=
  forall j o, Story.objectives q !! j = Some o ->
              (Story.requiredCount o <= progressOf s i j)%Z.

(** The character at column [x] of row [y]. *)
Definition charAt (rows : list string) (x y : Z) : option ascii :=
  if (x <? 0)%Z || (y <? 0)%Z then None
  else rows !! Z.to_nat y ≫= (fun r => list_ascii_of_string r !! Z.to_nat x).

(** Rows that [fromAscii] accepts: at least one, the first not empty, all of
    the length of the first. *)
Definition rectangular (rows : list string) : Prop :=
  exists first rest, rows = first :: rest /\ String.length first ≠ 0%nat
                     /\ Forall (fun r => String.length r = String.length first) rows.

(** The characters of the legend that stand for a passable tile. *)
Definition passable (ch : ascii) : Prop :=
  ch = "."%char \/ ch = "!"%char \/ ch = "^"%char \/ ch = "+"%char.

(** The rows from which the map of a region is built. *)
Definition rowsOf (i : string) : option (list string) :=
  if String.eqb i REGION_IDS.VILLAGE_DAWNRISE then Some villageOfDawnriseRows
  else if String.eqb i REGION_IDS.STORMFELL then Some stormfellRows
  else if String.eqb i REGION_IDS.LIGHT_SHRINE then Some lightShrineRows
  else None.

(** Column [x] of row [y] lies on the rim of the rows. *)
Definition onRim (rows : list string) (x y : nat) : bool :=
  (x =? 0)%nat || (y =? 0)%nat
  || (S x =? String.length (hd "" rows))%nat || (S y =? length rows)%nat.

(** Every character on the rim is [#]; decided by going through the rows. *)
Definition walled (rows : list string) : bool :=
  forallb (fun yr : nat * string =>
             forallb (fun xc : nat * ascii =>
                        implb (onRim rows xc.1 yr.1) (Ascii.eqb xc.2 "#"%char))
               (imap pair (list_ascii_of_string yr.2)))
    (imap pair rows).

(** * Scenarios: the battles of the engine's unit tests *)

Module Scenario.

(** [makeStats] of the test file, with its defaults. *)
Definition makeStats (h mh m mm st ma sp : Z) : Stats :=
  {| hp := h; maxHp := mh; mp := m; maxMp := mm; strength := st; defense := 0;
     magic := ma; speed := sp; spirit := 0; luck := 0 |}.

Definition unit (i n : string) (e : option string) (l : loc) : Unit :=
  {| unitId := i; unitName := Some n; element := e; stats := l;
     statusEffects := l; crystalResonance := [] |}.

Definition command (s t a : string) : Command :=
  {| cmdType := "ability"; sourceId := Some s; targetId := Some t; abilityId := Some a |}.

(** A store with the party members at 1 and 2 and the enemy templates at 3
    and 4, each with its own stats object and status array. *)
Definition store (u1 u2 u3 u4 : Unit) (s1 s2 s3 s4 : Stats) : World :=
  {| statsHeap := list_to_map [(1%positive, s1); (2%positive, s2); (3%positive, s3); (4%positive, s4)];
     arrayHeap := list_to_map [(1%positive, []); (2%positive, []); (3%positive, []); (4%positive, [])];
     unitHeap := list_to_map [(1%positive, u1); (2%positive, u2); (3%positive, u3); (4%positive, u4)];
     partyByBattleId := ∅ |}.

Definition party1 (ms : list loc) : Party :=
  {| partyIdOf := "party1"; playerId := "player1"; members := ms |}.

Definition hero := unit "c1" "Hero" None 1%positive.
Definition ally := unit "c2" "Ally" None 2%positive.
Definition goblin := unit "e1" "Goblin" None 3%positive.
Definition wisp := unit "e2" "Stone Wisp" (Some ELEMENTS.EARTH) 4%positive.

(** "physical attack damage" and "magic damage with elemental weakness": one
    character against a goblin and an EARTH wisp. *)
Definition attackStore : World :=
  store hero ally goblin wisp
    (makeStats 10 10 50 50 10 10 10) (makeStats 5 30 0 0 10 10 1)
    (makeStats 20 20 10 10 10 10 1) (makeStats 40 40 10 10 10 10 1).

Definition attack : World * Battle :=
  createBattle JS.localeCompare attackStore "b1" (party1 [1%positive]) [3%positive; 4%positive].

(** "healing spell (sage_mend)": the healer, a wounded ally and a dummy. *)
Definition healStore : World :=
  store hero ally goblin wisp
    (makeStats 10 10 10 10 10 10 10) (makeStats 5 30 0 0 10 10 1)
    (makeStats 1 1 10 10 10 10 0) (makeStats 1 1 10 10 10 10 0).

Definition heal : World * Battle :=
  createBattle JS.localeCompare healStore "b2" (party1 [1%positive; 2%positive]) [3%positive].

End Scenario.

(** A store where the enemy's stats object is the hero's own. *)
Definition mirrorStore : World :=
  Scenario.store Scenario.hero Scenario.ally
    (Scenario.unit "e1" "Mirror" None 1%positive) Scenario.wisp
    (Scenario.makeStats 10 10 10 10 10 10 10) (Scenario.makeStats 5 30 0 0 10 10 1)
    (Scenario.makeStats 20 20 10 10 10 10 1) (Scenario.makeStats 40 40 10 10 10 10 1).

(** A battle that strands its living combatants: the ally and the wisp start
    at 0 hp, so only the hero and the goblin are scheduled.  The hero mends
    the ally, mends the wisp, kills the goblin and then strikes itself. *)
Module Stranded.

Definition store : World :=
  Scenario.store Scenario.hero Scenario.ally Scenario.goblin Scenario.wisp
    (Scenario.makeStats 10 10 10 10 10 10 10) (Scenario.makeStats 0 30 0 0 10 10 1)
    (Scenario.makeStats 1 1 10 10 10 10 1) (Scenario.makeStats 0 40 10 10 10 10 1).

Definition start : World * Battle :=
  createBattle JS.localeCompare store "b4" (Scenario.party1 [1%positive; 2%positive])
    [3%positive; 4%positive].

Definition commands : list Command :=
  [Scenario.command "c1" "c2" "sage_mend";
   Scenario.command "c1" "e2" "sage_mend";
   Scenario.command "c1" "e1" "basic_attack";
   Scenario.command "c1" "c1" "basic_attack"].

Definition run (s : World * Battle) (c : Command) : World * Battle :=
  executeCommand (fst s) (snd s) c.

Definition final : World * Battle := foldl run start commands.

End Stranded.


(** Two enemies of one speed whose ids differ in the case of a letter, and a
    faster hero. *)
Definition caseStore : World :=
  Scenario.store Scenario.hero Scenario.ally
    (Scenario.unit "a" "Adder" None 3%positive) (Scenario.unit "B" "Bat" None 4%positive)
    (Scenario.makeStats 10 10 0 0 0 0 9) (Scenario.makeStats 0 10 0 0 0 0 1)
    (Scenario.makeStats 10 10 0 0 0 0 5) (Scenario.makeStats 10 10 0 0 0 0 5).

(** Two party members with one id, the first of them fallen, and a goblin
    that is faster than both. *)
Definition twinStore : World :=
  Scenario.store (Scenario.unit "x" "Fallen" None 1%positive)
    (Scenario.unit "x" "Twin" None 2%positive) Scenario.goblin Scenario.wisp
    (Scenario.makeStats 0 10 0 0 1 1 1) (Scenario.makeStats 5 10 0 0 1 1 1)
    (Scenario.makeStats 20 20 0 0 10 10 10) (Scenario.makeStats 0 40 0 0 1 1 1).

Definition twinStart : World * Battle :=
  createBattle JS.localeCompare twinStore "b5" (Scenario.party1 [1%positive; 2%positive])
    [3%positive].

(** The battle of the twins with the log [l]. *)
Definition twinBattle (l : list string) : Battle := with_log l (snd twinStart).

(** * Properties *)

(** ** The catalog *)

Lemma ability_flee :
  ABILITIES_BY_ID !! "flee"
  = Some (mkAbility "flee" "Flee" ELEMENTS.NULL 0 self_target 0 None None 1).
Proof. vm_compute. reflexivity. Qed.

(** Every entry of the table is stored under its own id. *)
Lemma ABILITIES_BY_ID_id (i : string) (a : Ability) :
  ABILITIES_BY_ID !! i = Some a -> a_id a = i.
Proof.
  unfold ABILITIES_BY_ID, ABILITIES. cbn [foldl].
  intros H.
  repeat (rewrite lookup_insert in H; case_decide;
          [ inversion H; subst; reflexivity |]).
  rewrite lookup_empty in H. discriminate.
Qed.

Lemma ability_power_not_flee (c : Command) (a : Ability) :
  abilityId c ≫= (fun i => ABILITIES_BY_ID !! i) = Some a ->
  (0 < power a)%Z -> abilityId c ≠ Some "flee".
Proof.
  intros Ha Hp Hc. rewrite Hc in Ha.
  change (ABILITIES_BY_ID !! "flee" = Some a) in Ha. rewrite ability_flee in Ha.
  inversion Ha; subst. cbn in Hp. lia.
Qed.

(** ** What the stages of executeCommand read and write *)

Lemma mpFree_hp : mpFree hp. Proof. intros v s. reflexivity. Qed.
Lemma mpFree_maxHp : mpFree maxHp. Proof. intros v s. reflexivity. Qed.
Lemma mpFree_strength : mpFree strength. Proof. intros v s. reflexivity. Qed.
Lemma mpFree_magic : mpFree magic. Proof. intros v s. reflexivity. Qed.
Lemma mpFree_defense : mpFree defense. Proof. intros v s. reflexivity. Qed.
Lemma mpFree_spirit : mpFree spirit. Proof. intros v s. reflexivity. Qed.

Create HintDb battle.

#[local] Hint Resolve mpFree_hp mpFree_maxHp mpFree_strength mpFree_magic
  mpFree_defense mpFree_spirit : battle.

Lemma payMp_inl (w w1 : World) (a : Ability) (source : Unit) :
  payMp w a source = inl w1 -> w1 = with_stats (paidHeap w a source) w.
Proof.
  unfold payMp, paidHeap. destruct (0 <? mpCost a)%Z.
  - destruct (statsHeap w !! stats source) as [s|]; [|discriminate].
    destruct (mp s <? mpCost a)%Z; [discriminate|]. intros [= <-]. reflexivity.
  - intros [= <-]. destruct w; reflexivity.
Qed.

Lemma payMp_canPay (w : World) (a : Ability) (source : Unit) :
  canPay w a source -> payMp w a source = inl (with_stats (paidHeap w a source) w).
Proof.
  unfold canPay, payMp, paidHeap. intros H.
  destruct (0 <? mpCost a)%Z eqn:E.
  - apply Z.ltb_lt in E. destruct (H E) as (s & -> & Hs).
    destruct (mp s <? mpCost a)%Z eqn:E2; [apply Z.ltb_lt in E2; lia | reflexivity].
  - destruct w; reflexivity.
Qed.

Lemma payMp_cannot (w : World) (a : Ability) (source : Unit) :
  ~ canPay w a source -> exists line, payMp w a source = inr line.
Proof.
  unfold canPay, payMp. intros H.
  destruct (0 <? mpCost a)%Z eqn:E.
  - destruct (statsHeap w !! stats source) as [s|] eqn:Es; [|eauto].
    destruct (mp s <? mpCost a)%Z eqn:E2; [eauto|].
    exfalso. apply H. intros _. exists s. split; [reflexivity|].
    apply Z.ltb_ge in E2. exact E2.
  - exfalso. apply H. intros E'. apply Z.ltb_lt in E'. congruence.
Qed.

Lemma paidHeap_lookup (w : World) (a : Ability) (source : Unit) (l : loc)
    (f : Stats -> Z) :
  mpFree f -> f <$> (paidHeap w a source !! l) = f <$> (statsHeap w !! l).
Proof.
  intros Hf. unfold paidHeap. destruct (0 <? mpCost a)%Z; [|reflexivity].
  destruct (statsHeap w !! stats source) as [s|] eqn:Es; [|reflexivity].
  rewrite lookup_insert. case_decide as E; [|reflexivity].
  subst l. rewrite Es. cbn. f_equal. apply Hf.
Qed.

Lemma statOr0_fmap (w : World) (u : Unit) (f : Stats -> Z) :
  statOr0 w u f = default 0%Z (f <$> (statsHeap w !! stats u)).
Proof. unfold statOr0. destruct (statsHeap w !! stats u); reflexivity. Qed.

(** The damage and healing formulas read the same values after the MP
    deduction as before it. *)
Lemma statOr0_paid (w : World) (a : Ability) (source u : Unit) (f : Stats -> Z) :
  mpFree f -> statOr0 (with_stats (paidHeap w a source) w) u f = statOr0 w u f.
Proof.
  intros Hf. rewrite !statOr0_fmap. cbn. rewrite paidHeap_lookup by exact Hf.
  reflexivity.
Qed.

Lemma applyStatus_stats (w : World) (a : Ability) (target : Unit) :
  statsHeap (applyStatus w a target) = statsHeap w.
Proof.
  unfold applyStatus. destruct (JS.truthy (statusEffect a)); [|reflexivity].
  destruct (statusEffect a); reflexivity.
Qed.

(** [executeCommand] past its guards. *)
Lemma executeCommand_resolves (w : World) (b : Battle) (c : Command) (a : Ability)
    (r : TurnRef) (ks kt : Kind) (source target : Unit) :
  state b = in_progress ->
  abilityId c ≫= (fun i => ABILITIES_BY_ID !! i) = Some a ->
  abilityId c ≠ Some "flee" ->
  activeRef b = Some r ->
  sourceId c = Some (refId r) ->
  findUnitInBattle w b (sourceId c) = Some (ks, source) ->
  findUnitInBattle w b (targetId c) = Some (kt, target) ->
  executeCommand w b c = resolveCommand w b a source target.
Proof.
  intros Hs Ha Hf Hr Hc Hsrc Htgt. unfold executeCommand.
  rewrite bool_decide_eq_false_2 by (rewrite Hs; intros E; apply E; reflexivity).
  rewrite Ha. rewrite bool_decide_eq_false_2 by exact Hf.
  rewrite Hr. rewrite bool_decide_eq_false_2 by (intros E; apply E; symmetry; exact Hc).
  rewrite Hsrc, Htgt. reflexivity.
Qed.

(** The stats heap that a resolved command leaves. *)
Lemma resolveCommand_stats (w : World) (b : Battle) (a : Ability) (source target : Unit) :
  canPay w a source ->
  statsHeap (fst (resolveCommand w b a source target))
  = statsHeap (fst (fst (applyPower (with_stats (paidHeap w a source) w) a source target))).
Proof.
  intros Hp. unfold resolveCommand. rewrite (payMp_canPay _ _ _ Hp).
  destruct (applyPower _ a source target) as [[w2 amount] verb]. cbn.
  apply applyStatus_stats.
Qed.

(** ** The elemental multiplier *)

Lemma ELEMENTAL_WEAKNESS_pairs (e x : string) :
  ELEMENTAL_WEAKNESS e = Some x <-> (e, x) ∈ weaknessPairs.
Proof.
  unfold ELEMENTAL_WEAKNESS, weaknessPairs. split.
  - repeat (match goal with
            | |- context [String.eqb e ?s] => destruct (String.eqb_spec e s) as [->|?]
            end; [intros [= <-]; set_solver |]).
    discriminate.
  - intros H. repeat (apply elem_of_cons in H as [[= -> ->]|H]; [reflexivity|]).
    inversion H.
Qed.

Lemma absentOrNull_dec (e : option string) :
  absentOrNull e <->
  negb (JS.truthy e) || bool_decide (e = Some ELEMENTS.NULL) = true.
Proof.
  unfold absentOrNull, JS.truthy. split.
  - intros [->|[->| ->]]; reflexivity.
  - destruct e as [s|]; [|auto]. intros H. apply orb_prop in H as [H|H].
    + apply negb_true_iff, negb_false_iff, String.eqb_eq in H. subst s. auto.
    + apply bool_decide_eq_true in H. right. right. exact H.
Qed.

Lemma elementalMultiplier_absent (a t : option string) :
  absentOrNull a \/ absentOrNull t -> elementalMultiplier a t = 1%float.
Proof.
  unfold elementalMultiplier. intros [H|H]; apply absentOrNull_dec in H.
  - rewrite H. reflexivity.
  - rewrite H. destruct (negb (JS.truthy a) || _); reflexivity.
Qed.

Lemma elementalMultiplier_present (a t : string) :
  ~ absentOrNull (Some a) -> ~ absentOrNull (Some t) ->
  elementalMultiplier (Some a) (Some t)
  = if bool_decide ((t, a) ∈ weaknessPairs) then 1.25%float
    else if bool_decide ((a, t) ∈ weaknessPairs) then 0.75%float
    else if bool_decide (a = t) then JS.n0_9
    else 1%float.
Proof.
  intros Ha Ht. unfold elementalMultiplier.
  destruct (negb (JS.truthy (Some a)) || _) eqn:Ea;
    [exfalso; apply Ha, absentOrNull_dec, Ea|].
  destruct (negb (JS.truthy (Some t)) || _) eqn:Et;
    [exfalso; apply Ht, absentOrNull_dec, Et|].
  cbn [mbind option_bind].
  rewrite (bool_decide_ext _ _ (ELEMENTAL_WEAKNESS_pairs t a)).
  rewrite (bool_decide_ext _ _ (ELEMENTAL_WEAKNESS_pairs a t)).
  destruct (bool_decide ((t, a) ∈ weaknessPairs)); [reflexivity|].
  destruct (bool_decide ((a, t) ∈ weaknessPairs)); [reflexivity|].
  apply (f_equal (fun c : bool => if c then JS.n0_9 else 1%float)).
  apply bool_decide_ext. split; congruence.
Qed.

(** LIGHT and SHADOW are each other's weakness: both the 1.25 and the 0.75
    condition hold, and the first one decides. *)
Example elementalMultiplier_light_shadow :
  elementalMultiplier (Some ELEMENTS.LIGHT) (Some ELEMENTS.SHADOW) = 1.25%float
  /\ elementalMultiplier (Some ELEMENTS.SHADOW) (Some ELEMENTS.LIGHT) = 1.25%float
  /\ elementalMultiplier (Some ELEMENTS.FIRE) (Some ELEMENTS.WATER) = 0.75%float
  /\ elementalMultiplier (Some ELEMENTS.WATER) (Some ELEMENTS.FIRE) = 1.25%float
  /\ elementalMultiplier (Some ELEMENTS.FIRE) (Some ELEMENTS.FIRE) = JS.n0_9
  /\ elementalMultiplier (Some ELEMENTS.FIRE) (Some ELEMENTS.EARTH) = 1%float.
Proof. repeat split; vm_compute; reflexivity. Qed.

(** ** Resolved commands *)

Lemma resolves_execute (w : World) (b : Battle) (c : Command) (a : Ability)
    (source target : Unit) :
  resolves w b c a source target ->
  executeCommand w b c = resolveCommand w b a source target.
Proof.
  intros [Hs Ha Hf (r & Hr & Hc) (ks & Hsrc) (kt & Htgt)].
  eapply executeCommand_resolves; eassumption.
Qed.

Lemma isHealingTarget_false (a : Ability) :
  targetType a ∉ [ally_single; party_target; self_target] -> isHealingTarget a = false.
Proof.
  unfold isHealingTarget. intros H.
  destruct (targetType a); try reflexivity; exfalso; apply H; repeat constructor.
Qed.

Lemma isHealingTarget_true (a : Ability) :
  targetType a ∈ [ally_single; party_target; self_target] -> isHealingTarget a = true.
Proof.
  unfold isHealingTarget. intros H.
  destruct (targetType a); try reflexivity; exfalso;
    repeat (apply elem_of_cons in H as [H|H]; [discriminate|]); inversion H.
Qed.

(** The stats heap after a resolved command whose MP block succeeds. *)
Lemma resolved_stats (w : World) (b : Battle) (c : Command) (a : Ability)
    (source target : Unit) :
  resolves w b c a source target ->
  canPay w a source ->
  statsHeap (fst (executeCommand w b c))
  = if (0 <? power a)%Z && isHealingTarget a then
      alter (healHp (healOf w a source target)) (stats target) (paidHeap w a source)
    else if (0 <? power a)%Z then
      alter (damageHp (damageOf w a source target)) (stats target) (paidHeap w a source)
    else paidHeap w a source.
Proof.
  intros Hres Hpay. rewrite (resolves_execute _ _ _ _ _ _ Hres).
  rewrite resolveCommand_stats by exact Hpay.
  unfold applyPower, healOf, damageOf.
  rewrite !statOr0_paid by auto with battle.
  destruct ((0 <? power a)%Z && isHealingTarget a); [reflexivity|].
  destruct (0 <? power a)%Z; reflexivity.
Qed.

Lemma paid_target (w : World) (a : Ability) (source target : Unit) (st : Stats) :
  statsHeap w !! stats target = Some st ->
  exists st1, paidHeap w a source !! stats target = Some st1
              /\ hp st1 = hp st /\ maxHp st1 = maxHp st.
Proof.
  intros H.
  pose proof (paidHeap_lookup w a source (stats target) hp mpFree_hp) as Hh.
  pose proof (paidHeap_lookup w a source (stats target) maxHp mpFree_maxHp) as Hm.
  rewrite H in Hh, Hm. destruct (paidHeap w a source !! stats target) as [st1|];
    [|discriminate].
  exists st1. cbn in Hh, Hm. split; [reflexivity|]. split; congruence.
Qed.

(** The target of a resolved damage command. *)
Lemma resolved_damage_hp (w : World) (b : Battle) (c : Command) (a : Ability)
    (source target : Unit) (st : Stats) :
  resolves w b c a source target ->
  canPay w a source ->
  (0 < power a)%Z ->
  isHealingTarget a = false ->
  statsHeap w !! stats target = Some st ->
  exists st', statsHeap (fst (executeCommand w b c)) !! stats target = Some st'
              /\ hp st' = Z.max 0 (Z.min (maxHp st) (hp st - damageOf w a source target))
              /\ maxHp st' = maxHp st.
Proof.
  intros Hres Hpay Hpow Hheal Hst.
  rewrite (resolved_stats _ _ _ _ _ _ Hres Hpay).
  rewrite Hheal, andb_false_r, (proj2 (Z.ltb_lt 0 (power a)) Hpow).
  destruct (paid_target w a source target st Hst) as (st1 & H1 & Hh & Hm).
  rewrite lookup_alter_eq, H1. eexists. split; [reflexivity|].
  unfold damageHp, clampHp. cbn [hp maxHp set_hp]. rewrite Hh, Hm.
  split; [lia | reflexivity].
Qed.

(** The target of a resolved heal command. *)
Lemma resolved_heal_hp (w : World) (b : Battle) (c : Command) (a : Ability)
    (source target : Unit) (st : Stats) :
  resolves w b c a source target ->
  canPay w a source ->
  (0 < power a)%Z ->
  isHealingTarget a = true ->
  statsHeap w !! stats target = Some st ->
  exists st', statsHeap (fst (executeCommand w b c)) !! stats target = Some st'
              /\ hp st' = Z.max 0 (Z.min (maxHp st) (hp st + healOf w a source target))
              /\ maxHp st' = maxHp st.
Proof.
  intros Hres Hpay Hpow Hheal Hst.
  rewrite (resolved_stats _ _ _ _ _ _ Hres Hpay).
  rewrite Hheal, andb_true_r, (proj2 (Z.ltb_lt 0 (power a)) Hpow).
  destruct (paid_target w a source target st Hst) as (st1 & H1 & Hh & Hm).
  rewrite lookup_alter_eq, H1. eexists. split; [reflexivity|].
  unfold healHp, clampHp. cbn [hp maxHp set_hp]. rewrite Hh, Hm.
  split; reflexivity.
Qed.

Lemma lookup_alter_field (h : gmap loc Stats) (g : Stats -> Stats) (f : Stats -> Z)
    (l l' : loc) :
  (forall s, f (g s) = f s) -> f <$> (alter g l h !! l') = f <$> (h !! l').
Proof.
  intros Hf. rewrite lookup_alter. case_decide as E; [|reflexivity].
  subst l'. destruct (h !! l) as [s|]; cbn; [f_equal; apply Hf | reflexivity].
Qed.

Lemma paid_source_mp (w : World) (a : Ability) (source : Unit) (ss : Stats) :
  statsHeap w !! stats source = Some ss ->
  mp <$> (paidHeap w a source !! stats source)
  = Some (if (0 <? mpCost a)%Z then Z.max 0 (mp ss - mpCost a) else mp ss).
Proof.
  intros Hss. unfold paidHeap. destruct (0 <? mpCost a)%Z.
  - rewrite Hss, lookup_insert_eq. reflexivity.
  - rewrite Hss. reflexivity.
Qed.

(** The source of a resolved command has paid the cost, whatever the effect. *)
Lemma resolved_source_mp (w : World) (b : Battle) (c : Command) (a : Ability)
    (source target : Unit) (ss : Stats) :
  resolves w b c a source target ->
  canPay w a source ->
  statsHeap w !! stats source = Some ss ->
  exists ss', statsHeap (fst (executeCommand w b c)) !! stats source = Some ss'
              /\ mp ss' = if (0 <? mpCost a)%Z then Z.max 0 (mp ss - mpCost a) else mp ss.
Proof.
  intros Hres Hpay Hss.
  rewrite (resolved_stats _ _ _ _ _ _ Hres Hpay).
  pose proof (paid_source_mp w a source ss Hss) as Hmp.
  assert (forall h : gmap loc Stats,
            mp <$> (h !! stats source) = mp <$> (paidHeap w a source !! stats source) ->
          exists ss', h !! stats source = Some ss'
            /\ mp ss' = if (0 <? mpCost a)%Z then Z.max 0 (mp ss - mpCost a) else mp ss) as K.
  { intros h Hh. rewrite Hmp in Hh. destruct (h !! stats source) as [ss'|]; [|discriminate].
    exists ss'. split; [reflexivity|]. cbn in Hh. congruence. }
  destruct ((0 <? power a)%Z && isHealingTarget a); [|destruct (0 <? power a)%Z];
    apply K; try reflexivity; apply lookup_alter_field; reflexivity.
Qed.

(** A command whose MP block fails changes nothing but the log. *)
Lemma resolved_unpaid (w : World) (b : Battle) (c : Command) (a : Ability)
    (source target : Unit) :
  resolves w b c a source target ->
  ~ canPay w a source ->
  exists line, executeCommand w b c = (w, log_push line b).
Proof.
  intros Hres Hno. rewrite (resolves_execute _ _ _ _ _ _ Hres).
  destruct (payMp_cannot w a source Hno) as [line Hline].
  unfold resolveCommand. rewrite Hline. eauto.
Qed.

(** ** C1: the damage formula *)

(** C1.  A valid damage command on a battle in progress leaves the target
    with hp = clamp(hp - amount) into [0, maxHp], where amount is
    max(1, floor((offense - mitigation) * mult)) evaluated in binary64;
    offense takes strength for a NULL-element ability and magic otherwise,
    mitigation takes defense or spirit times 0.6, and mult follows the
    weakness table (first matching case). *)
Theorem executeCommand_damage (w : World) (b : Battle) (c : Command) (a : Ability)
    (r : TurnRef) (ks kt : Kind) (source target : Unit) (st : Stats) :
  state b = in_progress ->
  abilityId c ≫= (fun i => ABILITIES_BY_ID !! i) = Some a ->
  (0 < power a)%Z ->
  targetType a ∉ [ally_single; party_target; self_target] ->
  activeRef b = Some r ->
  sourceId c = Some (refId r) ->
  findUnitInBattle w b (sourceId c) = Some (ks, source) ->
  findUnitInBattle w b (targetId c) = Some (kt, target) ->
  canPay w a source ->
  statsHeap w !! stats target = Some st ->
  let physical := String.eqb (a_element a) ELEMENTS.NULL in
  let offense :=
    (JS.ofZ (if physical then statOr0 w source strength else statOr0 w source magic)
     + JS.ofZ (power a))%float in
  let mitigation :=
    (JS.ofZ (if physical then defense st else spirit st) * JS.n0_6)%float in
  let mult := elementalMultiplier (Some (a_element a)) (getUnitElement target) in
  let amount := Z.max 1 (JS.floor ((offense - mitigation) * mult)%float) in
  (exists st', statsHeap (fst (executeCommand w b c)) !! stats target = Some st'
               /\ hp st' = Z.max 0 (Z.min (maxHp st) (hp st - amount))
               /\ maxHp st' = maxHp st)
  /\ (forall ae te, absentOrNull ae \/ absentOrNull te ->
                    elementalMultiplier ae te = 1%float)
  /\ (forall ae te, ~ absentOrNull (Some ae) -> ~ absentOrNull (Some te) ->
        elementalMultiplier (Some ae) (Some te)
        = if bool_decide ((te, ae) ∈ weaknessPairs) then 1.25%float
          else if bool_decide ((ae, te) ∈ weaknessPairs) then 0.75%float
          else if bool_decide (ae = te) then JS.n0_9
          else 1%float).
Proof.
  intros Hs Ha Hpow Htt Hr Hc Hsrc Htgt Hpay Hst physical offense mitigation mult amount.
  split; [|split; [exact elementalMultiplier_absent | exact elementalMultiplier_present]].
  assert (resolves w b c a source target) as Hres
    by (constructor; eauto using ability_power_not_flee).
  destruct (resolved_damage_hp w b c a source target st Hres Hpay Hpow
              (isHealingTarget_false a Htt) Hst) as (st' & H1 & H2 & H3).
  exists st'. split; [exact H1|]. split; [|exact H3]. rewrite H2.
  unfold damageOf, damageAmount, statOr0 at 3 4. rewrite Hst. reflexivity.
Qed.

(** The unit test "physical attack damage": strength 10, basic_attack
    (power 4), target defense 0 and hp 20: 14 damage, hp 6. *)
Lemma executeCommand_damage_witness :
  getUnitHp
    (fst (executeCommand (fst Scenario.attack) (snd Scenario.attack)
            (Scenario.command "c1" "e1" "basic_attack")))
    Scenario.goblin = 6%Z.
Proof.
  destruct (executeCommand_damage (fst Scenario.attack) (snd Scenario.attack)
              (Scenario.command "c1" "e1" "basic_attack")
              (mkAbility "basic_attack" "Attack" ELEMENTS.NULL 0 enemy_single 4 None None 1)
              {| kind := party; refId := "c1" |} party enemy
              Scenario.hero Scenario.goblin (Scenario.makeStats 20 20 10 10 10 10 1))
    as [(st' & H1 & H2 & _) _].
  - vm_compute. reflexivity.
  - vm_compute. reflexivity.
  - vm_compute. reflexivity.
  - apply (bool_decide_unpack _). vm_compute. exact I.
  - vm_compute. reflexivity.
  - vm_compute. reflexivity.
  - vm_compute. reflexivity.
  - vm_compute. reflexivity.
  - intros H. vm_compute in H. discriminate.
  - vm_compute. reflexivity.
  - unfold getUnitHp. change (stats Scenario.goblin) with 3%positive in *.
    rewrite H1, H2. vm_compute. reflexivity.
Defined.

(** The unit test "magic damage with elemental weakness": a WIND ability of
    power 13, magic 10, against an EARTH target of spirit 0 and hp 40:
    floor(23 * 1.25) = 28 damage, hp 12. *)
Example executeCommand_weakness :
  getUnitHp
    (fst (executeCommand (fst Scenario.attack) (snd Scenario.attack)
            (Scenario.command "c1" "e2" "aeromancer_chain_spark")))
    Scenario.wisp = 12%Z.
Proof. vm_compute. reflexivity. Qed.

(** The formula is the binary64 one: with offense 10, mitigation 14 * 0.6
    and multiplier 1.25 the engine computes 1, where exact arithmetic gives
    (10 - 8.4) * 1.25 = 2. *)
Example damage_is_binary64 :
  JS.floor ((JS.ofZ 10 - JS.ofZ 14 * JS.n0_6) * 1.25)%float = 1%Z
  /\ ((10 * 10 - 14 * 6) * 125 / 1000 = 2)%Z.
Proof. split; vm_compute; reflexivity. Qed.

(** ** C4: healing and the MP cost *)

(** C4.  A valid heal command first pays the MP cost: when the cost is
    positive and the source has no numeric mp covering it, the command
    returns with only a log line; otherwise the source's mp drops by the cost
    (not below 0) and the target's hp becomes clamp(hp + amount) into
    [0, maxHp], with amount = max(1, floor((power + magic * 1.1) * mult)). *)
Theorem executeCommand_heal (w : World) (b : Battle) (c : Command) (a : Ability)
    (r : TurnRef) (ks kt : Kind) (source target : Unit) :
  state b = in_progress ->
  abilityId c ≫= (fun i => ABILITIES_BY_ID !! i) = Some a ->
  (0 < power a)%Z ->
  targetType a ∈ [ally_single; party_target; self_target] ->
  activeRef b = Some r ->
  sourceId c = Some (refId r) ->
  findUnitInBattle w b (sourceId c) = Some (ks, source) ->
  findUnitInBattle w b (targetId c) = Some (kt, target) ->
  let mult := elementalMultiplier (Some (a_element a)) (getUnitElement target) in
  let amount :=
    Z.max 1 (JS.floor ((JS.ofZ (power a) + JS.ofZ (statOr0 w source magic) * JS.n1_1)
                       * mult)%float) in
  let w' := fst (executeCommand w b c) in
  (~ canPay w a source ->
   w' = w /\ exists line, snd (executeCommand w b c) = log_push line b)
  /\ (canPay w a source ->
      (forall ss, statsHeap w !! stats source = Some ss ->
         exists ss', statsHeap w' !! stats source = Some ss'
                     /\ mp ss' = if (0 <? mpCost a)%Z then Z.max 0 (mp ss - mpCost a)
                                 else mp ss)
      /\ (forall st, statsHeap w !! stats target = Some st ->
            exists st', statsHeap w' !! stats target = Some st'
                        /\ hp st' = Z.max 0 (Z.min (maxHp st) (hp st + amount))
                        /\ maxHp st' = maxHp st)).
Proof.
  intros Hs Ha Hpow Htt Hr Hc Hsrc Htgt mult amount w'. subst w'.
  assert (resolves w b c a source target) as Hres
    by (constructor; eauto using ability_power_not_flee).
  split.
  - intros Hno. destruct (resolved_unpaid _ _ _ _ _ _ Hres Hno) as [line ->]. eauto.
  - intros Hpay. split.
    + intros ss Hss. exact (resolved_source_mp _ _ _ _ _ _ ss Hres Hpay Hss).
    + intros st Hst.
      exact (resolved_heal_hp _ _ _ _ _ _ st Hres Hpay Hpow (isHealingTarget_true a Htt) Hst).
Qed.

(** The unit test "healing spell (sage_mend)": magic 10, power 12, target at
    5 of 30 hp: healed by 23 to 28, and the caster's mp goes from 10 to 5. *)
Lemma executeCommand_heal_witness :
  let w' := fst (executeCommand (fst Scenario.heal) (snd Scenario.heal)
                   (Scenario.command "c1" "c2" "sage_mend")) in
  getUnitHp w' Scenario.ally = 28%Z /\ statOr0 w' Scenario.hero mp = (10 - 5)%Z.
Proof.
  destruct (executeCommand_heal (fst Scenario.heal) (snd Scenario.heal)
              (Scenario.command "c1" "c2" "sage_mend")
              (mkAbility "sage_mend" "Mend" ELEMENTS.LIGHT 5 ally_single 12 None
                 (Some [CLASS_NAMES.SAGE]) 1)
              {| kind := party; refId := "c1" |} party party
              Scenario.hero Scenario.ally) as [_ H].
  - vm_compute. reflexivity.
  - vm_compute. reflexivity.
  - vm_compute. reflexivity.
  - apply (bool_decide_unpack _). vm_compute. exact I.
  - vm_compute. reflexivity.
  - vm_compute. reflexivity.
  - vm_compute. reflexivity.
  - vm_compute. reflexivity.
  - destruct H as [Hmp Hhp].
    + intros _. exists (Scenario.makeStats 10 10 10 10 10 10 10).
      split; vm_compute; [reflexivity | discriminate].
    + destruct (Hmp (Scenario.makeStats 10 10 10 10 10 10 10)) as (ss' & E1 & E2);
        [vm_compute; reflexivity|].
      destruct (Hhp (Scenario.makeStats 5 30 0 0 10 10 1)) as (st' & E3 & E4 & _);
        [vm_compute; reflexivity|].
      intros w'. subst w'. unfold getUnitHp, statOr0.
      change (stats Scenario.ally) with 2%positive in *.
      change (stats Scenario.hero) with 1%positive in *.
      rewrite E1, E3, E2, E4. split; vm_compute; reflexivity.
Defined.

(** ** C6: flee *)

(** C6.  On a battle in progress, flee sets the state to defeat whatever the
    hit points are, appends the one line "<source name> fled.", and touches
    nothing else: the store, the enemies, the schedule and the active index
    are as before. *)
Theorem executeCommand_flee (w : World) (b : Battle) (c : Command) :
  state b = in_progress ->
  abilityId c = Some "flee" ->
  let sourceName := getUnitName (snd <$> findUnitInBattle w b (sourceId c)) in
  executeCommand w b c
  = (w, {| battleId := battleId b; partyId := partyId b; enemies := enemies b;
           turnOrder := turnOrder b; activeTurnIndex := activeTurnIndex b;
           log := log b ++ [sourceName ++ " fled."]; state := defeat |})
  /\ (forall k u n, findUnitInBattle w b (sourceId c) = Some (k, u) ->
        unitName u = Some n -> JS.trim_truthy n = true -> sourceName = n).
Proof.
  intros Hs Hc sourceName. split.
  - unfold executeCommand.
    rewrite bool_decide_eq_false_2 by (rewrite Hs; intros E; apply E; reflexivity).
    rewrite Hc. change (Some "flee" ≫= _) with (ABILITIES_BY_ID !! "flee").
    rewrite ability_flee. rewrite bool_decide_eq_true_2 by reflexivity.
    reflexivity.
  - intros k u n Hu Hn Ht. subst sourceName. rewrite Hu. cbn. rewrite Hn, Ht.
    reflexivity.
Qed.

(** Flee in the attack scenario, with every combatant at full health. *)
Lemma executeCommand_flee_witness :
  let r := executeCommand (fst Scenario.attack) (snd Scenario.attack)
             (Scenario.command "c1" "e1" "flee") in
  fst r = fst Scenario.attack
  /\ state (snd r) = defeat
  /\ log (snd r) = (log (snd Scenario.attack) ++ ["Hero fled."])%list.
Proof.
  destruct (executeCommand_flee (fst Scenario.attack) (snd Scenario.attack)
              (Scenario.command "c1" "e1" "flee")) as [H _].
  - vm_compute. reflexivity.
  - reflexivity.
  - intros r. subst r. rewrite H. cbn [fst snd state log]. repeat split.
Defined.

(** ** C5: the validator *)

Lemma unitById_findUnitInBattle (w : World) (b : Battle) (i : string) :
  unitById w b i = findUnitInBattle w b (Some i).
Proof. reflexivity. Qed.

Lemma validateBattleCommand_verdict (w : World) (b : Battle) (player : string)
    (c : Command) :
  validateBattleCommand w b player c = {| ok := true; reason := None |}
  \/ exists why, why ∈ validatorReasons
                 /\ validateBattleCommand w b player c = rejected why.
Proof.
  unfold validateBattleCommand, validatorReasons.
  repeat case_match; first [ left; reflexivity | right; eexists; split; [|reflexivity];
                             repeat constructor ].
Qed.

(** C5.  The validator computes a verdict from the store and the battle and
    returns nothing else: it has no store or battle to hand back.  The
    verdict is either ok with no reason, or a rejection with one of the
    listed, non-empty reasons; and a command whose source is not the id of
    the active turn reference is always rejected. *)
Theorem validateBattleCommand_off_turn (w : World) (b : Battle) (player : string)
    (c : Command) :
  (forall r, activeRef b = Some r -> sourceId c ≠ Some (refId r)) ->
  (exists why, why ∈ validatorReasons /\ why ≠ ""
               /\ validateBattleCommand w b player c = rejected why)
  /\ (forall w' b' player' c',
        validateBattleCommand w' b' player' c' = {| ok := true; reason := None |}
        \/ exists why, why ∈ validatorReasons
                       /\ validateBattleCommand w' b' player' c' = rejected why).
Proof.
  intros Hoff. split; [|exact validateBattleCommand_verdict].
  assert (ok (validateBattleCommand w b player c) = false) as Hok.
  { unfold validateBattleCommand.
    destruct (bool_decide (state b ≠ in_progress)); [reflexivity|].
    destruct (bool_decide (length (turnOrder b) = 0%nat)); [reflexivity|].
    destruct (activeRef b) as [r|] eqn:Er; [|reflexivity].
    destruct (bool_decide (kind r ≠ party)); [reflexivity|].
    destruct (getPartyForBattle w (battleId b)) as [p|]; [|reflexivity].
    destruct (bool_decide (playerId p ≠ player)); [reflexivity|].
    destruct (sourceId c) as [src|] eqn:Es; [|reflexivity].
    rewrite bool_decide_eq_true_2; [reflexivity|].
    intros ->. exact (Hoff r eq_refl eq_refl). }
  destruct (validateBattleCommand_verdict w b player c) as [E|(why & Hin & E)].
  - rewrite E in Hok. discriminate.
  - exists why. split; [exact Hin|]. split; [|exact E].
    intros ->. unfold validatorReasons in Hin.
    repeat (apply elem_of_cons in Hin as [Hin|Hin]; [discriminate|]). inversion Hin.
Qed.

(** In the attack scenario the active reference is c1: a command that names
    the ally as its source is turned down. *)
Lemma validateBattleCommand_off_turn_witness :
  validateBattleCommand (fst Scenario.attack) (snd Scenario.attack) "player1"
    (Scenario.command "c2" "e1" "basic_attack")
  = rejected "invalid source for active turn".
Proof.
  destruct (validateBattleCommand_off_turn (fst Scenario.attack) (snd Scenario.attack)
              "player1" (Scenario.command "c2" "e1" "basic_attack"))
    as [(why & _ & _ & E) _].
  - intros r Hr. vm_compute in Hr. injection Hr as <-. vm_compute. discriminate.
  - vm_compute. reflexivity.
Defined.

(** ** C3: terminal states *)

Lemma existsb_isAlive (w : World) (ls : list loc) :
  existsb (isAlive w) (unitsAt w ls) = true <-> someAlive w ls.
Proof.
  unfold someAlive, isAlive. rewrite existsb_exists. split.
  - intros (u & Hin & Hu). exists u. split; [apply list_elem_of_In, Hin|].
    apply Z.ltb_lt, Hu.
  - intros (u & Hin & Hu). exists u. split; [apply list_elem_of_In, Hin|].
    apply Z.ltb_lt, Hu.
Qed.

Lemma recomputeState_spec (w : World) (b : Battle) :
  (recomputeState w b = defeat <-> ~ someAlive w (membersOf w b))
  /\ (recomputeState w b = victory <->
      someAlive w (membersOf w b) /\ ~ someAlive w (enemies b))
  /\ (recomputeState w b = in_progress <->
      someAlive w (membersOf w b) /\ someAlive w (enemies b)).
Proof.
  unfold recomputeState.
  pose proof (existsb_isAlive w (membersOf w b)) as Hp.
  pose proof (existsb_isAlive w (enemies b)) as He.
  destruct (existsb (isAlive w) (unitsAt w (membersOf w b)));
    destruct (existsb (isAlive w) (unitsAt w (enemies b))); cbn;
    intuition (try discriminate; try congruence).
Qed.

Lemma recomputeState_not_pending (w : World) (b : Battle) :
  recomputeState w b ≠ pending.
Proof.
  unfold recomputeState. destruct (negb _); [discriminate|].
  destruct (negb _); discriminate.
Qed.

(** The cleanup stage on a battle in progress. *)
Lemma settle_spec (w : World) (b : Battle) :
  state b = in_progress ->
  state (settle w b) = recomputeState w (settle w b)
  /\ log (settle w b) = (log b ++ terminalLines (state (settle w b)))%list
  /\ battleId (settle w b) = battleId b
  /\ enemies (settle w b) = enemies b
  /\ turnOrder (settle w b) = turnOrder (pruneDeadFromTurnOrder w b)
  /\ activeTurnIndex (settle w b) = activeTurnIndex (pruneDeadFromTurnOrder w b).
Proof.
  intros Hs. unfold settle.
  set (b1 := pruneDeadFromTurnOrder w b).
  assert (state b1 = in_progress) as Hs1 by exact Hs.
  assert (forall l s, recomputeState w (log_push l (with_state s b1))
                      = recomputeState w b1) as Hrec by reflexivity.
  pose proof (recomputeState_not_pending w b1) as Hnp.
  case_bool_decide as E.
  - destruct (recomputeState w b1) eqn:Er; try congruence;
      rewrite Hrec; repeat split.
  - rewrite <- E. rewrite Hs1 in E. rewrite E. cbn. rewrite app_nil_r. repeat split.
Qed.

Lemma applyStatus_frame (w : World) (a : Ability) (target : Unit) :
  unitHeap (applyStatus w a target) = unitHeap w
  /\ partyByBattleId (applyStatus w a target) = partyByBattleId w.
Proof.
  unfold applyStatus. destruct (JS.truthy (statusEffect a)); [|split; reflexivity].
  destruct (statusEffect a); split; reflexivity.
Qed.

Lemma applyPower_frame (w : World) (a : Ability) (source target : Unit) :
  unitHeap (fst (fst (applyPower w a source target))) = unitHeap w
  /\ partyByBattleId (fst (fst (applyPower w a source target))) = partyByBattleId w
  /\ arrayHeap (fst (fst (applyPower w a source target))) = arrayHeap w.
Proof.
  unfold applyPower. destruct ((0 <? power a)%Z && isHealingTarget a);
    [repeat split|]. destruct (0 <? power a)%Z; repeat split.
Qed.

(** A resolved command in full: the store after the three stages, and the
    battle after the action line and the cleanup. *)
Lemma resolved_result (w : World) (b : Battle) (c : Command) (a : Ability)
    (source target : Unit) :
  resolves w b c a source target ->
  canPay w a source ->
  exists line,
    snd (executeCommand w b c)
    = settle (fst (executeCommand w b c)) (log_push line b).
Proof.
  intros Hres Hpay. rewrite (resolves_execute _ _ _ _ _ _ Hres).
  unfold resolveCommand. rewrite (payMp_canPay _ _ _ Hpay).
  destruct (applyPower _ a source target) as [[w2 amount] verb]. cbn.
  eauto.
Qed.

(** No command replaces a unit object or the party of a battle. *)
Lemma executeCommand_frame (w : World) (b : Battle) (c : Command) :
  unitHeap (fst (executeCommand w b c)) = unitHeap w
  /\ partyByBattleId (fst (executeCommand w b c)) = partyByBattleId w.
Proof.
  unfold executeCommand.
  destruct (bool_decide (state b ≠ in_progress)); [split; reflexivity|].
  destruct (abilityId c ≫= _) as [a|]; [|split; reflexivity].
  destruct (bool_decide (abilityId c = Some "flee")); [split; reflexivity|].
  destruct (activeRef b) as [r|]; [|split; reflexivity].
  destruct (bool_decide (Some (refId r) ≠ sourceId c)); [split; reflexivity|].
  destruct (findUnitInBattle w b (sourceId c)) as [[ks source]|]; [|split; reflexivity].
  destruct (findUnitInBattle w b (targetId c)) as [[kt target]|]; [|split; reflexivity].
  unfold resolveCommand.
  destruct (payMp w a source) as [w1|line] eqn:Ep; [|split; reflexivity].
  apply payMp_inl in Ep. subst w1.
  pose proof (applyPower_frame (with_stats (paidHeap w a source) w) a source target) as Hf.
  destruct (applyPower _ a source target) as [[w2 amount] verb]. cbn in *.
  destruct Hf as (H1 & H2 & _).
  destruct (applyStatus_frame w2 a target) as [H3 H4]. split; congruence.
Qed.

(** C3.  After a resolved action on a battle in progress the state is the
    recomputed one: defeat when no party member has hp > 0, whatever the
    enemies (a double knock-out is a defeat), else victory when no enemy has
    hp > 0, else in progress; and the log gains the action line followed by
    exactly one "Victory!" on a victory, exactly one "Defeat." on a defeat,
    and nothing more otherwise. *)
Theorem executeCommand_terminal (w : World) (b : Battle) (c : Command) (a : Ability)
    (r : TurnRef) (ks kt : Kind) (source target : Unit) :
  state b = in_progress ->
  abilityId c ≫= (fun i => ABILITIES_BY_ID !! i) = Some a ->
  abilityId c ≠ Some "flee" ->
  activeRef b = Some r ->
  sourceId c = Some (refId r) ->
  findUnitInBattle w b (sourceId c) = Some (ks, source) ->
  findUnitInBattle w b (targetId c) = Some (kt, target) ->
  canPay w a source ->
  let w' := fst (executeCommand w b c) in
  let b' := snd (executeCommand w b c) in
  let partyAlive := someAlive w' (membersOf w' b') in
  let enemiesAlive := someAlive w' (enemies b') in
  (state b' = defeat <-> ~ partyAlive)
  /\ (state b' = victory <-> partyAlive /\ ~ enemiesAlive)
  /\ (state b' = in_progress <-> partyAlive /\ enemiesAlive)
  /\ exists line,
       log b' = (log b ++ [line]
                 ++ match state b' with
                    | victory => ["Victory!"]
                    | defeat => ["Defeat."]
                    | _ => []
                    end)%list.
Proof.
  intros Hs Ha Hf Hr Hc Hsrc Htgt Hpay w' b' partyAlive enemiesAlive.
  assert (resolves w b c a source target) as Hres by (constructor; eauto).
  destruct (resolved_result _ _ _ _ _ _ Hres Hpay) as [line Hline].
  fold w' b' in Hline.
  destruct (settle_spec w' (log_push line b) Hs) as (H1 & H2 & _).
  rewrite <- Hline in H1, H2.
  destruct (recomputeState_spec w' b') as (R1 & R2 & R3).
  rewrite <- H1 in R1, R2, R3.
  split; [exact R1|]. split; [exact R2|]. split; [exact R3|].
  exists line. rewrite H2. cbn [log log_push with_log].
  rewrite <- app_assoc. reflexivity.
Qed.

(** In the heal scenario the only enemy has 1 hp: the hero's attack ends
    the battle, and the log gains the action line and one "Victory!". *)
Lemma executeCommand_terminal_witness :
  let r := executeCommand (fst Scenario.heal) (snd Scenario.heal)
             (Scenario.command "c1" "e1" "basic_attack") in
  state (snd r) = victory
  /\ exists line, log (snd r) = (log (snd Scenario.heal) ++ [line; "Victory!"])%list.
Proof.
  destruct (executeCommand_terminal (fst Scenario.heal) (snd Scenario.heal)
              (Scenario.command "c1" "e1" "basic_attack")
              (mkAbility "basic_attack" "Attack" ELEMENTS.NULL 0 enemy_single 4 None None 1)
              {| kind := party; refId := "c1" |} party enemy
              Scenario.hero Scenario.goblin) as (_ & _ & _ & line & H).
  - vm_compute. reflexivity.
  - vm_compute. reflexivity.
  - discriminate.
  - vm_compute. reflexivity.
  - vm_compute. reflexivity.
  - vm_compute. reflexivity.
  - vm_compute. reflexivity.
  - intros E. vm_compute in E. discriminate.
  - assert (state (snd (executeCommand (fst Scenario.heal) (snd Scenario.heal)
              (Scenario.command "c1" "e1" "basic_attack"))) = victory) as Hv
      by (vm_compute; reflexivity).
    intros r. subst r. split; [exact Hv|]. exists line. rewrite H, Hv. reflexivity.
Defined.

(** A double knock-out: the enemy's stats object is the hero's own, so its
    blow fells both sides at once; the battle is a defeat, and the log ends
    with the action line and one "Defeat.". *)
Example double_knock_out_is_defeat :
  let start := createBattle JS.localeCompare mirrorStore "b3" (Scenario.party1 [1%positive])
                 [3%positive] in
  let r := executeCommand (fst start) (snd start)
             (Scenario.command "e1" "c1" "basic_attack") in
  state (snd start) = in_progress
  /\ someAlive (fst start) (membersOf (fst start) (snd start))
  /\ someAlive (fst start) (enemies (snd start))
  /\ ~ someAlive (fst r) (membersOf (fst r) (snd r))
  /\ ~ someAlive (fst r) (enemies (snd r))
  /\ state (snd r) = defeat
  /\ log (snd r) = (log (snd start) ++ ["Mirror used Attack on Hero -14 HP."; "Defeat."])%list.
Proof.
  cbv zeta.
  split; [vm_compute; reflexivity|].
  split; [apply existsb_isAlive; vm_compute; reflexivity|].
  split; [apply existsb_isAlive; vm_compute; reflexivity|].
  split; [intros H; apply existsb_isAlive in H; vm_compute in H; discriminate|].
  split; [intros H; apply existsb_isAlive in H; vm_compute in H; discriminate|].
  split; vm_compute; reflexivity.
Qed.

(** ** C9: status effects *)

Lemma occurrences_app (tag : string) (l1 l2 : list string) :
  occurrences tag (l1 ++ l2) = (occurrences tag l1 + occurrences tag l2)%nat.
Proof. unfold occurrences. rewrite List.filter_app, length_app. reflexivity. Qed.

Lemma occurrences_absent (tag : string) (l : list string) :
  tag ∉ l -> occurrences tag l = 0%nat.
Proof.
  unfold occurrences. induction l as [|x l IH]; intros H; [reflexivity|].
  cbn. destruct (String.eqb_spec tag x) as [->|_].
  - exfalso. apply H. constructor.
  - apply IH. intros Hin. apply H. constructor. exact Hin.
Qed.

Lemma occurrences_present (tag : string) (l : list string) :
  tag ∈ l -> (1 <= occurrences tag l)%nat.
Proof.
  unfold occurrences. induction l as [|x l IH]; intros H; [inversion H|].
  cbn. destruct (String.eqb_spec tag x) as [->|Hne]; [cbn; lia|].
  apply IH. apply elem_of_cons in H as [H|H]; [congruence | exact H].
Qed.

Lemma pushStatus_elem (tag : string) (arr : option (list string)) :
  tag ∈ pushStatus tag arr.
Proof.
  unfold pushStatus. case_bool_decide as E; [exact E|].
  apply elem_of_app. right. constructor.
Qed.

(** Pushing a tag that is there changes nothing. *)
Lemma pushStatus_idempotent (tag : string) (arr : option (list string)) :
  pushStatus tag (Some (pushStatus tag arr)) = pushStatus tag arr.
Proof.
  unfold pushStatus at 1. cbn [default].
  rewrite bool_decide_eq_true_2 by apply pushStatus_elem. reflexivity.
Qed.

Lemma pushStatus_once (tag : string) (arr : option (list string)) :
  (occurrences tag (default [] arr) <= 1)%nat ->
  occurrences tag (pushStatus tag arr) = 1%nat.
Proof.
  unfold pushStatus. intros H. case_bool_decide as E.
  - apply occurrences_present in E. lia.
  - rewrite occurrences_app, (occurrences_absent _ _ E).
    unfold occurrences. cbn. rewrite String.eqb_refl. reflexivity.
Qed.

(** The arrays after a resolved command. *)
Lemma resolved_arrays (w : World) (b : Battle) (c : Command) (a : Ability)
    (source target : Unit) :
  resolves w b c a source target ->
  canPay w a source ->
  arrayHeap (fst (executeCommand w b c)) = arrayHeap (applyStatus w a target).
Proof.
  intros Hres Hpay. rewrite (resolves_execute _ _ _ _ _ _ Hres).
  unfold resolveCommand. rewrite (payMp_canPay _ _ _ Hpay).
  pose proof (applyPower_frame (with_stats (paidHeap w a source) w) a source target)
    as (_ & _ & Hf).
  destruct (applyPower _ a source target) as [[w2 amount] verb]. cbn in *.
  unfold applyStatus.
  destruct (JS.truthy (statusEffect a)); [|exact Hf].
  destruct (statusEffect a); [|exact Hf]. cbn. rewrite Hf. reflexivity.
Qed.

Lemma resolved_status (w : World) (b : Battle) (c : Command) (a : Ability)
    (source target : Unit) (tag : string) :
  resolves w b c a source target ->
  canPay w a source ->
  statusEffect a = Some tag -> tag ≠ "" ->
  arrayHeap (fst (executeCommand w b c)) !! statusEffects target
  = Some (pushStatus tag (arrayHeap w !! statusEffects target)).
Proof.
  intros Hres Hpay Htag Hne. rewrite (resolved_arrays _ _ _ _ _ _ Hres Hpay).
  unfold applyStatus. rewrite Htag. cbn [JS.truthy].
  rewrite (proj2 (String.eqb_neq tag "") Hne). cbn [negb arrayHeap with_arrays].
  apply lookup_insert_eq.
Qed.

(** C9.  A resolved command whose ability carries a status tag adds the tag
    to the target's array only when the array does not hold it; a second
    resolved application leaves the array as the first one left it, so an
    array that held the tag at most once holds it exactly once after both. *)
Theorem executeCommand_status_idempotent (w : World) (b : Battle) (c : Command)
    (a : Ability) (source target : Unit) (tag : string) :
  statusEffect a = Some tag -> tag ≠ "" ->
  resolves w b c a source target ->
  canPay w a source ->
  let w1 := fst (executeCommand w b c) in
  let b1 := snd (executeCommand w b c) in
  let before := default [] (arrayHeap w !! statusEffects target) in
  arrayHeap w1 !! statusEffects target
  = Some (if bool_decide (tag ∈ before) then before else (before ++ [tag])%list)
  /\ (resolves w1 b1 c a source target ->
      canPay w1 a source ->
      let w2 := fst (executeCommand w1 b1 c) in
      arrayHeap w2 !! statusEffects target = arrayHeap w1 !! statusEffects target
      /\ ((occurrences tag before <= 1)%nat ->
          exists l, arrayHeap w2 !! statusEffects target = Some l
                    /\ occurrences tag l = 1%nat)).
Proof.
  intros Htag Hne Hres Hpay w1 b1 before.
  pose proof (resolved_status _ _ _ _ _ _ tag Hres Hpay Htag Hne) as H1.
  fold w1 in H1. split; [exact H1|].
  intros Hres1 Hpay1 w2.
  pose proof (resolved_status _ _ _ _ _ _ tag Hres1 Hpay1 Htag Hne) as H2.
  fold w2 in H2. rewrite H1 in H2. rewrite pushStatus_idempotent in H2.
  split; [congruence|].
  intros Hocc. eexists. split; [exact H2|]. apply pushStatus_once. exact Hocc.
Qed.

(** The guards of a command on a concrete battle, by evaluation. *)
Ltac resolves_by_evaluation :=
  constructor;
  [ vm_compute; reflexivity
  | vm_compute; reflexivity
  | discriminate
  | eexists; split; vm_compute; reflexivity
  | eexists; vm_compute; reflexivity
  | eexists; vm_compute; reflexivity ].

Ltac canPay_by_evaluation :=
  let H := fresh in
  intros H; first [ vm_compute in H; discriminate
                  | eexists; split; [vm_compute; reflexivity | vm_compute; discriminate] ].

(** The unit test "status effect application (poison)", cast twice: the
    goblin carries POISON exactly once. *)
Lemma executeCommand_status_idempotent_witness :
  let c := Scenario.command "c1" "e1" "umbramancer_venom_hex" in
  let r1 := executeCommand (fst Scenario.attack) (snd Scenario.attack) c in
  let r2 := executeCommand (fst r1) (snd r1) c in
  exists l, arrayHeap (fst r2) !! statusEffects Scenario.goblin = Some l
            /\ occurrences STATUS_EFFECTS.POISON l = 1%nat.
Proof.
  destruct (executeCommand_status_idempotent (fst Scenario.attack) (snd Scenario.attack)
              (Scenario.command "c1" "e1" "umbramancer_venom_hex")
              (mkAbility "umbramancer_venom_hex" "Venom Hex" ELEMENTS.SHADOW 4 enemy_single 6
                 (Some STATUS_EFFECTS.POISON) (Some [CLASS_NAMES.UMBRAMANCER]) 1)
              Scenario.hero Scenario.goblin STATUS_EFFECTS.POISON) as [_ H].
  - reflexivity.
  - discriminate.
  - resolves_by_evaluation.
  - canPay_by_evaluation.
  - destruct H as [_ H].
    + resolves_by_evaluation.
    + canPay_by_evaluation.
    + apply H. vm_compute. lia.
Defined.

(** ** C10: createBattle copies the enemies shallowly *)

Lemma spread_spec (h h' : gmap loc Unit) (e l : loc) :
  spread h e = (h', l) ->
  h ⊆ h'
  /\ (forall u, h !! e = Some u -> h !! l = None /\ h' !! l = Some u).
Proof.
  unfold spread. destruct (h !! e) as [u|] eqn:E.
  - intros [= <- <-].
    assert (h !! fresh (dom h) = None) as Hfresh
      by (apply not_elem_of_dom, is_fresh).
    split; [apply insert_subseteq, Hfresh|].
    intros u' [= <-]. split; [exact Hfresh | apply lookup_insert_eq].
  - intros [= <- <-]. split; [reflexivity | discriminate].
Qed.

Lemma spreadAll_spec (es : list loc) :
  forall (h h' : gmap loc Unit) (ls : list loc),
    spreadAll h es = (h', ls) ->
    length ls = length es
    /\ h ⊆ h'
    /\ (forall i e u, es !! i = Some e -> h !! e = Some u ->
          exists l, ls !! i = Some l /\ h !! l = None /\ h' !! l = Some u).
Proof.
  induction es as [|e es IH]; intros h h' ls.
  - intros [= <- <-]. split; [reflexivity|]. split; [reflexivity|].
    intros i e u Hi. rewrite lookup_nil in Hi. discriminate.
  - cbn [spreadAll]. destruct (spread h e) as [h1 l] eqn:E1.
    destruct (spreadAll h1 es) as [h2 ls'] eqn:E2. intros [= <- <-].
    destruct (spread_spec _ _ _ _ E1) as [Hsub1 Hnew].
    destruct (IH _ _ _ E2) as (Hlen & Hsub2 & Hrest).
    split; [cbn; congruence|]. split; [etrans; eassumption|].
    intros [|i] e' u Hi Hu.
    + cbn in Hi. injection Hi as <-. destruct (Hnew u Hu) as [Hl1 Hl2].
      exists l. split; [reflexivity|]. split; [exact Hl1|].
      eapply lookup_weaken; eassumption.
    + cbn in Hi.
      destruct (Hrest i e' u Hi (lookup_weaken _ _ _ _ Hu Hsub1)) as (l' & H1 & H2 & H3).
      exists l'. split; [exact H1|]. split; [|exact H3].
      destruct (h !! l') as [x|] eqn:Ex; [|reflexivity].
      rewrite (lookup_weaken _ _ _ _ Ex Hsub1) in H2. discriminate.
Qed.

(** Two templates of one call get two different copies. *)
Lemma spreadAll_distinct (es : list loc) :
  forall (h h' : gmap loc Unit) (ls : list loc) (i j : nat) (e e' l : loc),
    spreadAll h es = (h', ls) ->
    i ≠ j ->
    es !! i = Some e -> is_Some (h !! e) ->
    es !! j = Some e' -> is_Some (h !! e') ->
    ls !! i = Some l -> ls !! j = Some l -> False.
Proof.
  induction es as [|e0 es IH]; intros h h' ls i j e e' l.
  - intros _ _ Hi. rewrite lookup_nil in Hi. discriminate.
  - cbn [spreadAll]. destruct (spread h e0) as [h1 l0] eqn:E1.
    destruct (spreadAll h1 es) as [h2 ls'] eqn:E2. intros [= <- <-] Hij.
    destruct (spread_spec _ _ _ _ E1) as [Hsub1 Hnew].
    destruct (spreadAll_spec _ _ _ _ E2) as (_ & _ & Hrest).
    assert (forall k x lx, es !! k = Some x -> is_Some (h !! x) ->
              is_Some (h !! e0) -> ls' !! k = Some lx -> lx ≠ l0) as Hfresh.
    { intros k x lx Hk [u Hu] [u0 Hu0] Hlx ->.
      destruct (Hrest k x u Hk (lookup_weaken _ _ _ _ Hu Hsub1)) as (l' & H1 & H2 & _).
      rewrite Hlx in H1. injection H1 as <-.
      destruct (Hnew u0 Hu0) as [_ Hl0].
      assert (h1 !! l0 = Some u0) as Hin.
      { unfold spread in E1. rewrite Hu0 in E1. injection E1 as <- <-.
        apply lookup_insert_eq. }
      congruence. }
    destruct i as [|i], j as [|j]; cbn; intros Hi He Hj He' Hli Hlj.
    + congruence.
    + injection Hi as <-. injection Hli as <-.
      exact (Hfresh j e' l0 Hj He' He Hlj eq_refl).
    + injection Hj as <-. injection Hlj as <-.
      exact (Hfresh i e l0 Hi He He' Hli eq_refl).
    + destruct He as [u Hu], He' as [u' Hu'].
      eapply (IH h1 h2 ls' i j e e' l E2); eauto using lookup_weaken.
Qed.

Lemma createBattle_fields (lc : string -> string -> Z) (w : World) (id : string)
    (p : Party) (foes : list loc) :
  let r := createBattle lc w id p foes in
  statsHeap (fst r) = statsHeap w
  /\ arrayHeap (fst r) = arrayHeap w
  /\ spreadAll (unitHeap w) foes = (unitHeap (fst r), enemies (snd r))
  /\ partyByBattleId (fst r) = <[id := p]> (partyByBattleId w)
  /\ battleId (snd r) = id
  /\ turnOrder (snd r) = calculateInitialTurnOrder lc w p foes
  /\ activeTurnIndex (snd r) = 0%nat
  /\ state (snd r) = if bool_decide (0 < length (turnOrder (snd r)))%nat
                     then in_progress else defeat.
Proof.
  unfold createBattle. destruct (spreadAll (unitHeap w) foes) as [units copies].
  cbn [turnOrder with_state state].
  destruct (bool_decide (0 < length (calculateInitialTurnOrder lc w p foes))%nat) eqn:E.
  - rewrite (bool_decide_eq_true_2 (in_progress = in_progress)) by reflexivity.
    cbn. rewrite E. repeat split.
  - rewrite (bool_decide_eq_false_2 (defeat = in_progress)) by discriminate.
    cbn. rewrite E. repeat split.
Qed.

(** C10.  [createBattle] gives the battle one new unit object per enemy
    template: an object that was not in the store, with the fields of the
    template, hence with the template's own stats object; the template stays
    as it was.  So when a later command damages or heals such an enemy, or
    charges it MP, the hp and mp read through the template change as well. *)
Theorem createBattle_shares_stats (lc : string -> string -> Z) (w : World) (id : string)
    (p : Party) (foes : list loc) :
  let w0 := fst (createBattle lc w id p foes) in
  let b0 := snd (createBattle lc w id p foes) in
  length (enemies b0) = length foes
  /\ forall i e u, foes !! i = Some e -> unitHeap w !! e = Some u ->
       exists l,
         enemies b0 !! i = Some l
         /\ unitHeap w !! l = None
         /\ unitHeap w0 !! l = Some u
         /\ unitHeap w0 !! e = Some u
         /\ (forall j e' l', j ≠ i -> foes !! j = Some e' -> is_Some (unitHeap w !! e') ->
               enemies b0 !! j = Some l' -> l' ≠ l)
         /\ forall w1 b1 c a other,
              unitHeap w1 = unitHeap w0 ->
              let w2 := fst (executeCommand w1 b1 c) in
              unitHeap w2 !! e = Some u /\ unitHeap w2 !! l = Some u
              /\ (forall st, resolves w1 b1 c a other u -> canPay w1 a other ->
                    (0 < power a)%Z -> statsHeap w1 !! stats u = Some st ->
                    exists st', statsHeap w2 !! stats u = Some st'
                      /\ hp st' = if isHealingTarget a
                                  then Z.max 0 (Z.min (maxHp st) (hp st + healOf w1 a other u))
                                  else Z.max 0 (Z.min (maxHp st) (hp st - damageOf w1 a other u)))
              /\ (forall ss, resolves w1 b1 c a u other -> canPay w1 a u ->
                    statsHeap w1 !! stats u = Some ss ->
                    exists ss', statsHeap w2 !! stats u = Some ss'
                      /\ mp ss' = if (0 <? mpCost a)%Z then Z.max 0 (mp ss - mpCost a)
                                  else mp ss).
Proof.
  intros w0 b0.
  destruct (createBattle_fields lc w id p foes) as (_ & _ & Hsp & _).
  fold w0 b0 in Hsp.
  destruct (spreadAll_spec _ _ _ _ Hsp) as (Hlen & Hsub & Hcopies).
  split; [exact Hlen|].
  intros i e u Hi Hu. destruct (Hcopies i e u Hi Hu) as (l & Hl & Hnew & Hcopy).
  exists l. split; [exact Hl|]. split; [exact Hnew|]. split; [exact Hcopy|].
  split; [eapply lookup_weaken; eassumption|].
  split.
  { intros j e' l' Hji Hj He' Hl' ->.
    eapply (spreadAll_distinct foes _ _ _ j i e' e l Hsp); eauto. }
  intros w1 b1 c a other Hunits w2.
  destruct (executeCommand_frame w1 b1 c) as [Hframe _]. fold w2 in Hframe.
  rewrite Hframe, Hunits.
  split; [eapply lookup_weaken; eassumption|]. split; [exact Hcopy|].
  split.
  - intros st Hres Hpay Hpow Hst. subst w2.
    destruct (isHealingTarget a) eqn:Eh.
    + destruct (resolved_heal_hp _ _ _ _ _ _ st Hres Hpay Hpow Eh Hst)
        as (st' & H1 & H2 & _). eauto.
    + destruct (resolved_damage_hp _ _ _ _ _ _ st Hres Hpay Hpow Eh Hst)
        as (st' & H1 & H2 & _). eauto.
  - intros ss Hres Hpay Hss. subst w2.
    exact (resolved_source_mp _ _ _ _ _ _ ss Hres Hpay Hss).
Qed.

(** The unit test "physical attack damage" again: the goblin template is the
    object at 3, the battle's goblin a new object at 5; after the attack the
    template reads 6 hp, as the battle's copy does. *)
Example template_is_damaged :
  let c := Scenario.command "c1" "e1" "basic_attack" in
  let w2 := fst (executeCommand (fst Scenario.attack) (snd Scenario.attack) c) in
  enemies (snd Scenario.attack) = [5%positive; 6%positive]
  /\ getUnitHp Scenario.attackStore <$> (unitHeap Scenario.attackStore !! 3%positive) = Some 20%Z
  /\ getUnitHp w2 <$> (unitHeap w2 !! 3%positive) = Some 6%Z
  /\ getUnitHp w2 <$> (unitHeap w2 !! 5%positive) = Some 6%Z.
Proof. cbv zeta. repeat split; vm_compute; reflexivity. Qed.

(** ** C7: the multi-target types *)

(** Gale Sweep (enemy_all, power 9) in the attack scenario: the executor
    resolves it against the goblin alone, for 19 damage. *)
Lemma executor_resolves_multi_target : ~ executorRejectsMultiTarget.
Proof.
  intros H.
  specialize (H (fst Scenario.attack) (snd Scenario.attack)
                (Scenario.command "c1" "e1" "aeromancer_gale_sweep")
                (mkAbility "aeromancer_gale_sweep" "Gale Sweep" ELEMENTS.WIND 6 enemy_all 9
                   None (Some [CLASS_NAMES.AEROMANCER]) 1)
                Scenario.goblin).
  vm_compute in H. specialize (H eq_refl (or_intror eq_refl)). discriminate.
Qed.

Lemma activeRef_Some_length (b : Battle) (r : TurnRef) :
  activeRef b = Some r -> length (turnOrder b) ≠ 0%nat.
Proof. unfold activeRef. destruct (turnOrder b); [discriminate | cbn; lia]. Qed.

Lemma validateBattleCommand_multi (w : World) (b : Battle) (player : string)
    (c : Command) (a : Ability) :
  abilityId c ≫= (fun i => ABILITIES_BY_ID !! i) = Some a ->
  multiTarget a ->
  ok (validateBattleCommand w b player c) = false
  /\ (reachesTargetChecks w b player c a ->
      validateBattleCommand w b player c = rejected "unsupported target type").
Proof.
  intros Ha Hm.
  assert (bool_decide (targetType a = party_target) || bool_decide (targetType a = enemy_all)
          = true) as Hmulti.
  { destruct Hm as [-> | ->]; reflexivity. }
  assert (bool_decide (targetType a = enemy_single) = false
          /\ bool_decide (targetType a = ally_single) = false
          /\ bool_decide (targetType a = self_target) = false) as (H1 & H2 & H3).
  { destruct Hm as [-> | ->]; repeat split. }
  split.
  - unfold validateBattleCommand. rewrite Ha, Hmulti, H1, H2, H3. cbn [andb].
    repeat case_match; reflexivity.
  - intros [Hs (r & Hr & Hk & Hc) (p & Hp & Hpl) (ks & source & Hsrc & Hpay)
              (kt & target & Htgt)].
    unfold validateBattleCommand.
    rewrite bool_decide_eq_false_2 by (rewrite Hs; intros E; apply E; reflexivity).
    rewrite bool_decide_eq_false_2 by (eapply activeRef_Some_length; eassumption).
    rewrite Hr. rewrite bool_decide_eq_false_2 by (rewrite Hk; intros E; apply E; reflexivity).
    rewrite Hp. rewrite bool_decide_eq_false_2 by (rewrite Hpl; intros E; apply E; reflexivity).
    rewrite Hc in *. rewrite bool_decide_eq_false_2 by (intros E; apply E; reflexivity).
    rewrite Ha. cbn [mbind option_bind] in Hsrc, Htgt. rewrite Hsrc.
    rewrite H3 in *. cbn [mbind option_bind] in Htgt.
    assert ((0 <? mpCost a)%Z
            && match statsHeap w !! stats source with
               | Some s => (mp s <? mpCost a)%Z
               | None => true
               end = false) as ->.
    { destruct (0 <? mpCost a)%Z eqn:E0; [|reflexivity]. cbn.
      destruct (Hpay (proj1 (Z.ltb_lt _ _) E0)) as (s & -> & Hle).
      apply Z.ltb_ge. exact Hle. }
    destruct (targetId c) as [tgt|]; [|discriminate]. cbn in Htgt. rewrite Htgt.
    rewrite H1, H2, Hmulti. reflexivity.
Qed.

(** C7, amended.  The validator rejects every command whose ability has
    target type party or enemy_all, with the reason "unsupported target type"
    once the earlier checks pass.  The executor has no such check: a command
    of that kind that passes its guards and pays its cost is resolved against
    the one unit named by the target id, as damage for enemy_all and as
    healing for party, when the power is positive. *)
Theorem multi_target_validator_only (w : World) (b : Battle) (player : string)
    (c : Command) (a : Ability) :
  abilityId c ≫= (fun i => ABILITIES_BY_ID !! i) = Some a ->
  multiTarget a ->
  ok (validateBattleCommand w b player c) = false
  /\ (reachesTargetChecks w b player c a ->
      validateBattleCommand w b player c = rejected "unsupported target type")
  /\ (forall source target st,
        resolves w b c a source target -> canPay w a source -> (0 < power a)%Z ->
        statsHeap w !! stats target = Some st ->
        exists st', statsHeap (fst (executeCommand w b c)) !! stats target = Some st'
          /\ hp st' = if bool_decide (targetType a = enemy_all)
                      then Z.max 0 (Z.min (maxHp st) (hp st - damageOf w a source target))
                      else Z.max 0 (Z.min (maxHp st) (hp st + healOf w a source target))).
Proof.
  intros Ha Hm. destruct (validateBattleCommand_multi w b player c a Ha Hm) as [H1 H2].
  split; [exact H1|]. split; [exact H2|].
  intros source target st Hres Hpay Hpow Hst. destruct Hm as [Hm|Hm].
  - destruct (resolved_heal_hp _ _ _ _ _ _ st Hres Hpay Hpow) as (st' & E1 & E2 & _);
      [unfold isHealingTarget; rewrite Hm; reflexivity | exact Hst |].
    exists st'. rewrite Hm. split; [exact E1 | exact E2].
  - destruct (resolved_damage_hp _ _ _ _ _ _ st Hres Hpay Hpow) as (st' & E1 & E2 & _);
      [unfold isHealingTarget; rewrite Hm; reflexivity | exact Hst |].
    exists st'. rewrite Hm. split; [exact E1 | exact E2].
Qed.

(** Gale Sweep in the attack scenario: turned down by the validator for its
    target type, and worth 19 damage to the goblin when executed. *)
Lemma multi_target_validator_only_witness :
  let c := Scenario.command "c1" "e1" "aeromancer_gale_sweep" in
  validateBattleCommand (fst Scenario.attack) (snd Scenario.attack) "player1" c
  = rejected "unsupported target type"
  /\ getUnitHp (fst (executeCommand (fst Scenario.attack) (snd Scenario.attack) c))
       Scenario.goblin = (20 - 19)%Z.
Proof.
  destruct (multi_target_validator_only (fst Scenario.attack) (snd Scenario.attack)
              "player1" (Scenario.command "c1" "e1" "aeromancer_gale_sweep")
              (mkAbility "aeromancer_gale_sweep" "Gale Sweep" ELEMENTS.WIND 6 enemy_all 9
                 None (Some [CLASS_NAMES.AEROMANCER]) 1)) as (_ & Hv & He).
  - vm_compute. reflexivity.
  - right. reflexivity.
  - intros c. subst c. split.
    + apply Hv. constructor.
      * vm_compute. reflexivity.
      * eexists. repeat split; vm_compute; reflexivity.
      * eexists. split; vm_compute; reflexivity.
      * exists party, Scenario.hero. split; [vm_compute; reflexivity|].
        canPay_by_evaluation.
      * exists enemy, Scenario.goblin. vm_compute. reflexivity.
    + destruct (He Scenario.hero Scenario.goblin (Scenario.makeStats 20 20 10 10 10 10 1))
        as (st' & E1 & E2).
      * resolves_by_evaluation.
      * canPay_by_evaluation.
      * vm_compute. reflexivity.
      * vm_compute. reflexivity.
      * unfold getUnitHp. change (stats Scenario.goblin) with 3%positive in *.
        rewrite E1, E2. vm_compute. reflexivity.
Defined.

(** ** C8: the schedule and the active index *)

Lemma shape_invariant (b : Battle) :
  scheduleShape b -> ~ (turnOrder b = [] /\ state b = in_progress) ->
  scheduleInvariant b.
Proof.
  unfold scheduleInvariant, scheduleShape, terminal. intros [[Hlt|He] Hnp] Hno.
  - left. split; [|exact Hlt]. intros E. rewrite E in Hlt. cbn in Hlt. lia.
  - right. split; [exact He|]. destruct (state b) eqn:E; tauto.
Qed.

Lemma prune_index (w : World) (b : Battle) :
  (activeTurnIndex (pruneDeadFromTurnOrder w b)
   < length (turnOrder (pruneDeadFromTurnOrder w b)))%nat
  \/ turnOrder (pruneDeadFromTurnOrder w b) = [].
Proof.
  unfold pruneDeadFromTurnOrder. cbn [turnOrder activeTurnIndex with_turns].
  set (order := List.filter _ (turnOrder b)).
  case_bool_decide as E.
  - right. destruct order; [reflexivity | discriminate].
  - left. apply Nat.mod_upper_bound. exact E.
Qed.

Lemma prune_state (w : World) (b : Battle) :
  state (pruneDeadFromTurnOrder w b) = state b.
Proof. reflexivity. Qed.

Lemma settle_shape (w : World) (b : Battle) :
  state b = in_progress -> scheduleShape (settle w b).
Proof.
  intros Hs. destruct (settle_spec w b Hs) as (H1 & _ & _ & _ & H2 & H3).
  unfold scheduleShape. rewrite H2, H3. split; [apply prune_index|].
  rewrite H1. apply recomputeState_not_pending.
Qed.

Lemma executeCommand_shape (w : World) (b : Battle) (c : Command) :
  scheduleShape b -> scheduleShape (snd (executeCommand w b c)).
Proof.
  intros Hb. unfold executeCommand.
  case_bool_decide as Hs; [exact Hb|].
  destruct (abilityId c ≫= _) as [a|]; [|exact Hb].
  destruct (bool_decide (abilityId c = Some "flee")).
  { destruct Hb as [Hb _]. split; [exact Hb | discriminate]. }
  destruct (activeRef b) as [r|]; [|exact Hb].
  destruct (bool_decide (Some (refId r) ≠ sourceId c)); [exact Hb|].
  destruct (findUnitInBattle w b (sourceId c)) as [[ks source]|]; [|exact Hb].
  destruct (findUnitInBattle w b (targetId c)) as [[kt target]|]; [|exact Hb].
  unfold resolveCommand. destruct (payMp w a source) as [w1|line]; [|exact Hb].
  destruct (applyPower w1 a source target) as [[w2 amount] verb]. cbn [snd].
  apply settle_shape. exact Hs.
Qed.

Lemma nextIndex_fields (b : Battle) :
  turnOrder (nextIndex b) = turnOrder b
  /\ state (nextIndex b) = state b
  /\ (turnOrder b ≠ [] ->
      (activeTurnIndex (nextIndex b) < length (turnOrder b))%nat).
Proof.
  unfold nextIndex. cbn. repeat split. intros Hne.
  apply Nat.mod_upper_bound. destruct (turnOrder b); [congruence | discriminate].
Qed.

Lemma skipStale_fields (w : World) (n : nat) :
  forall b, turnOrder b ≠ [] ->
    (activeTurnIndex b < length (turnOrder b))%nat ->
    turnOrder (skipStale w n b) = turnOrder b
    /\ state (skipStale w n b) = state b
    /\ (activeTurnIndex (skipStale w n b) < length (turnOrder b))%nat.
Proof.
  induction n as [|n IH]; intros b Hne Hlt; [repeat split; exact Hlt|].
  cbn [skipStale]. destruct (nextIndex_fields b) as (H1 & H2 & H3).
  assert (turnOrder (skipStale w n (nextIndex b)) = turnOrder b
          /\ state (skipStale w n (nextIndex b)) = state b
          /\ (activeTurnIndex (skipStale w n (nextIndex b)) < length (turnOrder b))%nat)
    as Hnext.
  { destruct (IH (nextIndex b)) as (K1 & K2 & K3).
    - rewrite H1. exact Hne.
    - rewrite H1. exact (H3 Hne).
    - rewrite K1, K2, H1, H2. rewrite H1 in K3. repeat split. exact K3. }
  destruct (getActiveUnit w b) as [u|]; [|exact Hnext].
  destruct (isAlive w u); [repeat split; exact Hlt | exact Hnext].
Qed.

(** [advanceTurn] restores the invariant, whatever the battle it is given,
    as long as that battle has the shape every operation keeps. *)
Lemma advanceTurn_invariant (w : World) (b : Battle) :
  scheduleShape b ->
  ~ (turnOrder b = [] /\ state b = in_progress) \/ state b = in_progress ->
  scheduleInvariant (advanceTurn w b).
Proof.
  intros Hb Hcase. unfold advanceTurn.
  case_bool_decide as Hs.
  { destruct Hcase as [Hno|Hin]; [|congruence]. apply shape_invariant; assumption. }
  set (b1 := pruneDeadFromTurnOrder w b).
  pose proof (prune_index w b) as Hidx. fold b1 in Hidx.
  pose proof (recomputeState_not_pending w b1) as Hnp.
  case_bool_decide as Hn.
  - apply shape_invariant.
    + split; [exact Hidx|]. cbn. exact Hnp.
    + cbn. intros [_ E]. congruence.
  - case_bool_decide as Hl.
    + right. split; [exact (nil_length_inv _ Hl) | right; reflexivity].
    + assert (turnOrder b1 ≠ []) as Hne by (intros E; rewrite E in Hl; apply Hl; reflexivity).
      destruct (nextIndex_fields b1) as (H1 & H2 & H3).
      destruct (skipStale_fields w (length (turnOrder (nextIndex b1))) (nextIndex b1))
        as (K1 & K2 & K3).
      * rewrite H1. exact Hne.
      * rewrite H1. exact (H3 Hne).
      * left. rewrite K1, H1. split; [exact Hne|]. rewrite H1 in K3. exact K3.
Qed.

Lemma advanceTurn_shape (w : World) (b : Battle) :
  scheduleShape b -> scheduleShape (advanceTurn w b).
Proof.
  intros Hb. destruct (decide (state b = in_progress)) as [Hs|Hs].
  - assert (scheduleInvariant (advanceTurn w b)) as Hinv
      by (apply advanceTurn_invariant; auto).
    split.
    + destruct Hinv as [[_ H]|[H _]]; auto.
    + unfold advanceTurn. rewrite bool_decide_eq_false_2 by (intros E; apply E, Hs).
      pose proof (recomputeState_not_pending w (pruneDeadFromTurnOrder w b)) as Hnp.
      case_bool_decide as Hn; [cbn; exact Hnp|].
      case_bool_decide as Hl; [cbn; discriminate|].
      destruct (nextIndex_fields (pruneDeadFromTurnOrder w b)) as (H1 & H2 & H3).
      destruct (skipStale_fields w
                  (length (turnOrder (nextIndex (pruneDeadFromTurnOrder w b))))
                  (nextIndex (pruneDeadFromTurnOrder w b))) as (K1 & K2 & K3).
      * rewrite H1. intros E. apply Hl. rewrite E. reflexivity.
      * rewrite H1. apply H3. intros E. apply Hl. rewrite E. reflexivity.
      * rewrite K2, H2. cbn. rewrite Hs. discriminate.
  - unfold advanceTurn. rewrite bool_decide_eq_true_2 by exact Hs. exact Hb.
Qed.

Lemma createBattle_invariant (lc : string -> string -> Z) (w : World) (id : string)
    (p : Party) (foes : list loc) :
  scheduleInvariant (snd (createBattle lc w id p foes)).
Proof.
  destruct (createBattle_fields lc w id p foes) as (_ & _ & _ & _ & _ & _ & Hi & Hs).
  unfold scheduleInvariant, terminal. rewrite Hi, Hs.
  case_bool_decide as E.
  - left. split; [|exact E]. intros E'. rewrite E' in E. cbn in E. lia.
  - right. split; [|right; reflexivity].
    destruct (turnOrder _); [reflexivity | cbn in E; lia].
Qed.

Lemma invariant_shape (b : Battle) :
  scheduleInvariant b -> state b ≠ pending -> scheduleShape b.
Proof.
  intros [[_ H]|[H _]] Hnp; (split; [auto | exact Hnp]).
Qed.

Lemma reachable_shape (lc : string -> string -> Z) (s : World * Battle) :
  reachable lc s -> scheduleShape (snd s).
Proof.
  induction 1 as [w id p foes | s s' Hr IH Hstep].
  - apply invariant_shape; [apply createBattle_invariant|].
    destruct (createBattle_fields lc w id p foes) as (_ & _ & _ & _ & _ & _ & _ & Hs).
    rewrite Hs. case_bool_decide; discriminate.
  - destruct Hstep as [w b c | w b]; cbn [snd] in *.
    + apply executeCommand_shape, IH.
    + apply advanceTurn_shape, IH.
Qed.

Lemma reachable_run (lc : string -> string -> Z) (s : World * Battle) (c : Command) :
  reachable lc s -> reachable lc (Stranded.run s c).
Proof.
  intros H. apply (reach_step lc s); [exact H|]. destruct s as [w b]. constructor.
Qed.

Lemma stranded_reachable : reachable JS.localeCompare Stranded.final.
Proof.
  unfold Stranded.final, Stranded.commands. cbn [foldl].
  repeat apply reachable_run. constructor.
Qed.

Lemma stranded_final :
  turnOrder (snd Stranded.final) = []
  /\ state (snd Stranded.final) = in_progress
  /\ someAlive (fst Stranded.final) (membersOf (fst Stranded.final) (snd Stranded.final))
  /\ someAlive (fst Stranded.final) (enemies (snd Stranded.final)).
Proof.
  split; [vm_compute; reflexivity|]. split; [vm_compute; reflexivity|].
  split; apply existsb_isAlive; vm_compute; reflexivity.
Qed.

(** The schedule, the state and the hit points of hero, ally, goblin and
    wisp after each of the four commands. *)
Example stranded_trace :
  let view (s : World * Battle) :=
    (map refId (turnOrder (snd s)), state (snd s),
     map (fun l => hp <$> (statsHeap (fst s) !! l))
       [1%positive; 2%positive; 3%positive; 4%positive]) in
  map (fun n => view (foldl Stranded.run Stranded.start (take n Stranded.commands)))
    [0; 1; 2; 3; 4]%nat
  = [ (["c1"; "e1"], in_progress, [Some 10; Some 0; Some 1; Some 0]%Z);
      (["c1"; "e1"], in_progress, [Some 10; Some 23; Some 1; Some 0]%Z);
      (["c1"; "e1"], in_progress, [Some 10; Some 23; Some 1; Some 23]%Z);
      (["c1"], in_progress, [Some 10; Some 23; Some 0; Some 23]%Z);
      ([], in_progress, [Some 0; Some 23; Some 0; Some 23]%Z) ].
Proof. vm_compute. reflexivity. Qed.

Lemma schedule_can_empty_in_progress : ~ scheduleInvariantAlways.
Proof.
  intros H. specialize (H JS.localeCompare Stranded.final stranded_reachable).
  destruct stranded_final as (He & Hs & _).
  destruct H as [[Hne _]|[_ [Ht|Ht]]]; congruence.
Qed.

(** C8, amended.  A battle is created with the invariant, and has it after
    every [advanceTurn].  After [executeCommand] the active index is valid
    whenever the schedule is non-empty and the state is never pending, but
    the schedule may be empty with the state still in progress; the next
    [advanceTurn] ends such a battle. *)
Theorem schedule_invariant_by_operation (lc : string -> string -> Z)
    (s : World * Battle) :
  reachable lc s ->
  (forall w id p foes, scheduleInvariant (snd (createBattle lc w id p foes)))
  /\ (forall w, scheduleInvariant (advanceTurn w (snd s)))
  /\ (forall c, let b' := snd (executeCommand (fst s) (snd s) c) in
        (turnOrder b' ≠ [] -> (activeTurnIndex b' < length (turnOrder b'))%nat)
        /\ state b' ≠ pending
        /\ (scheduleInvariant b' \/ (turnOrder b' = [] /\ state b' = in_progress))
        /\ forall w, scheduleInvariant (advanceTurn w b')
                     /\ (turnOrder b' = [] -> terminal (advanceTurn w b'))).
Proof.
  intros Hr.
  assert (forall b, scheduleShape b -> forall w, scheduleInvariant (advanceTurn w b)) as Hadv.
  { intros b Hb w. apply advanceTurn_invariant; [exact Hb|].
    destruct (decide (state b = in_progress)) as [E|E]; [right; exact E|].
    left. intros [_ E']. exact (E E'). }
  split; [apply createBattle_invariant|].
  split; [apply Hadv; eapply reachable_shape; exact Hr|].
  intros c b'.
  assert (scheduleShape b') as Hb' by (apply executeCommand_shape; eapply reachable_shape; exact Hr).
  split.
  { intros Hne. destruct Hb' as [[H|H] _]; [exact H | congruence]. }
  split; [exact (proj2 Hb')|].
  split.
  { destruct (decide (turnOrder b' = [] /\ state b' = in_progress)) as [E|E];
      [right; exact E | left; apply shape_invariant; assumption]. }
  intros w. split; [apply Hadv, Hb'|].
  intros He. destruct (Hadv b' Hb' w) as [[Hne _]|[_ Ht]]; [|exact Ht].
  exfalso. apply Hne.
  unfold advanceTurn. case_bool_decide as Hs; [exact He|].
  assert (turnOrder (pruneDeadFromTurnOrder w b') = []) as Hp
    by (unfold pruneDeadFromTurnOrder; cbn; rewrite He; reflexivity).
  case_bool_decide as Hn; [exact Hp|].
  rewrite Hp. cbn. exact Hp.
Qed.

(** From the stranded battle, whose schedule is empty in progress:
    [advanceTurn] declares the defeat, and the invariant holds again. *)
Lemma schedule_invariant_by_operation_witness :
  let b := advanceTurn (fst Stranded.final) (snd Stranded.final) in
  scheduleInvariant b /\ state b = defeat.
Proof.
  destruct (schedule_invariant_by_operation JS.localeCompare Stranded.final) as (_ & H & _).
  - exact stranded_reachable.
  - intros b. split; [apply H|]. vm_compute. reflexivity.
Defined.

(** ** C2: the initial turn order *)

Section SortFacts.

Context {A : Type} (cmp : A -> A -> Z).

Lemma sort_insert_perm (x : A) (l : list A) : JS.sort_insert cmp x l ≡ₚ x :: l.
Proof.
  induction l as [|y r IH]; [reflexivity|]. cbn.
  destruct (cmp x y <=? 0)%Z; [reflexivity|].
  rewrite IH. apply Permutation_swap.
Qed.

Lemma sort_perm (l : list A) : JS.sort cmp l ≡ₚ l.
Proof.
  unfold JS.sort. induction l as [|x l IH]; [reflexivity|]. cbn.
  rewrite sort_insert_perm, IH. reflexivity.
Qed.

(** A comparator that orders: of two elements one comes first, and coming
    first is transitive. *)
Hypothesis cmp_total : forall a b, (0 < cmp a b)%Z -> (cmp b a <= 0)%Z.
Hypothesis cmp_trans : forall a b c, (cmp a b <= 0)%Z -> (cmp b c <= 0)%Z -> (cmp a c <= 0)%Z.



End SortFacts.


Section Collation.

Variable lc : string -> string -> Z.
Hypothesis lc_total : forall a b, (0 < lc a b)%Z -> (lc b a <= 0)%Z.
Hypothesis lc_trans : forall a b c, (lc a b <= 0)%Z -> (lc b c <= 0)%Z -> (lc a c <= 0)%Z.




End Collation.




Lemma elem_of_filter_isAlive (w : World) (u : Unit) (us : list Unit) :
  u ∈ List.filter (isAlive w) us <-> u ∈ us /\ (0 < getUnitHp w u)%Z.
Proof.
  rewrite !list_elem_of_In, filter_In. unfold isAlive. rewrite Z.ltb_lt. reflexivity.
Qed.










(** Equal speeds, keys of two kinds: an enemy ("e_...") acts before a party
    member ("p_...") of the same speed. *)
Example tie_break_by_key :
  calculateInitialTurnOrder JS.localeCompare
    (Scenario.store Scenario.hero Scenario.ally Scenario.goblin Scenario.wisp
       (Scenario.makeStats 10 10 0 0 0 0 5) (Scenario.makeStats 10 10 0 0 0 0 5)
       (Scenario.makeStats 10 10 0 0 0 0 5) (Scenario.makeStats 0 10 0 0 0 0 9))
    (Scenario.party1 [2%positive; 1%positive]) [3%positive; 4%positive]
  = [ {| kind := enemy; refId := "e1" |}; {| kind := party; refId := "c1" |};
      {| kind := party; refId := "c2" |} ].
Proof. vm_compute. reflexivity. Qed.

(** Equal speeds, keys that differ in the case of a letter: the enemies "a"
    and "B" carry the keys "e_a" and "e_B".  The collation compares the
    letters before their case, so "e_a" is the smaller key and the adder
    acts before the bat; by code units "e_B" is the smaller one. *)
Example tie_break_by_collation :
  calculateInitialTurnOrder JS.localeCompare caseStore
    (Scenario.party1 [1%positive; 2%positive]) [3%positive; 4%positive]
  = [ {| kind := party; refId := "c1" |}; {| kind := enemy; refId := "a" |};
      {| kind := enemy; refId := "B" |} ]
  /\ JS.localeCompare "e_a" "e_B" = (-1)%Z
  /\ lexCompare "e_a" "e_B" = 1%Z.
Proof. repeat split; vm_compute; reflexivity. Qed.


(** * Further properties of the engine and of its callers *)

(** ** The outcomes of executeCommand *)

Lemma payMp_inl_canPay (w w1 : World) (a : Ability) (source : Unit) :
  payMp w a source = inl w1 -> canPay w a source.
Proof.
  unfold payMp, canPay. destruct (0 <? mpCost a)%Z eqn:E.
  - destruct (statsHeap w !! stats source) as [s|]; [|discriminate].
    destruct (mp s <? mpCost a)%Z eqn:E2; [discriminate|].
    intros _ _. exists s. split; [reflexivity|]. apply Z.ltb_ge, E2.
  - intros _ H. apply Z.ltb_lt in H. congruence.
Qed.

(** Every call of [executeCommand] either returns early, leaving the store
    as it is, or resolves an ability whose cost the source can pay. *)
Lemma executeCommand_outcome (w : World) (b : Battle) (c : Command) :
  (fst (executeCommand w b c) = w /\ turnedDown b (snd (executeCommand w b c)))
  \/ exists a source target, resolves w b c a source target /\ canPay w a source.
Proof.
  unfold turnedDown.
  destruct (decide (state b = in_progress)) as [Hs|Hs];
    [|left; unfold executeCommand; rewrite bool_decide_eq_true_2 by exact Hs; auto].
  destruct (abilityId c ≫= (fun i => ABILITIES_BY_ID !! i)) as [a|] eqn:Ha;
    [|left; unfold executeCommand;
      rewrite bool_decide_eq_false_2 by (intros E; apply E, Hs); rewrite Ha; cbn; eauto].
  destruct (decide (abilityId c = Some "flee")) as [Hf|Hf];
    [left; unfold executeCommand;
     rewrite bool_decide_eq_false_2 by (intros E; apply E, Hs); rewrite Ha;
     rewrite bool_decide_eq_true_2 by exact Hf; cbn; eauto|].
  destruct (activeRef b) as [r|] eqn:Hr;
    [|left; unfold executeCommand;
      rewrite bool_decide_eq_false_2 by (intros E; apply E, Hs); rewrite Ha;
      rewrite bool_decide_eq_false_2 by exact Hf; rewrite Hr; cbn; eauto].
  destruct (decide (Some (refId r) = sourceId c)) as [Hc|Hc];
    [|left; unfold executeCommand;
      rewrite bool_decide_eq_false_2 by (intros E; apply E, Hs); rewrite Ha;
      rewrite bool_decide_eq_false_2 by exact Hf; rewrite Hr;
      rewrite bool_decide_eq_true_2 by exact Hc; cbn; eauto].
  destruct (findUnitInBattle w b (sourceId c)) as [[ks source]|] eqn:Hsrc;
    [|left; unfold executeCommand;
      rewrite bool_decide_eq_false_2 by (intros E; apply E, Hs); rewrite Ha;
      rewrite bool_decide_eq_false_2 by exact Hf; rewrite Hr;
      rewrite bool_decide_eq_false_2 by (intros E; apply E, Hc); rewrite Hsrc; cbn; eauto].
  destruct (findUnitInBattle w b (targetId c)) as [[kt target]|] eqn:Htgt;
    [|left; unfold executeCommand;
      rewrite bool_decide_eq_false_2 by (intros E; apply E, Hs); rewrite Ha;
      rewrite bool_decide_eq_false_2 by exact Hf; rewrite Hr;
      rewrite bool_decide_eq_false_2 by (intros E; apply E, Hc); rewrite Hsrc, Htgt;
      cbn; eauto].
  assert (resolves w b c a source target) as Hres
    by (constructor; eauto).
  destruct (payMp w a source) as [w1|line] eqn:Ep.
  - right. exists a, source, target. split; [exact Hres|].
    eapply payMp_inl_canPay, Ep.
  - left. rewrite (resolves_execute _ _ _ _ _ _ Hres). unfold resolveCommand.
    rewrite Ep. cbn. eauto.
Qed.

(** ** What executeCommand writes *)

Lemma sameAttributes_refl (s : Stats) : sameAttributes s s.
Proof. repeat split. Qed.

(** One cell of the stats heap after the MP block and a write [g] to the
    target's hp. *)
Lemma written_cell (w : World) (a : Ability) (source target : Unit)
    (g : Stats -> Stats) (l : loc) :
  canPay w a source ->
  (forall s, sameAttributes s (g s) /\ mp (g s) = mp s) ->
  let h' := alter g (stats target) (paidHeap w a source) in
  (statsHeap w !! l = None -> h' !! l = None)
  /\ forall s, statsHeap w !! l = Some s ->
       exists s', h' !! l = Some s' /\ sameAttributes s s'
         /\ (hp s' ≠ hp s -> l = stats target)
         /\ (mp s' ≠ mp s -> (0 <= mp s' < mp s)%Z /\ l = stats source).
Proof.
  intros Hpay Hg h'. subst h'.
  assert ((paidHeap w a source !! l = statsHeap w !! l)
          \/ (l = stats source /\ exists s, statsHeap w !! l = Some s
              /\ (0 < mpCost a <= mp s)%Z
              /\ paidHeap w a source !! l
                 = Some (set_mp (Z.max 0 (mp s - mpCost a)) s))) as Hpaid.
  { unfold paidHeap. destruct (0 <? mpCost a)%Z eqn:E; [|left; reflexivity].
    apply Z.ltb_lt in E. destruct (Hpay E) as (s & Hs & Hle). rewrite Hs.
    destruct (decide (l = stats source)) as [->|Hne].
    - right. split; [reflexivity|]. exists s. rewrite lookup_insert_eq.
      repeat split; try assumption.
    - left. rewrite lookup_insert_ne by congruence. reflexivity. }
  rewrite lookup_alter. split.
  - intros Hn. destruct Hpaid as [Hp|(_ & s & Hs & _)]; [|congruence].
    case_decide; [subst l|]; rewrite Hp, Hn; reflexivity.
  - intros s Hs. destruct Hpaid as [Hp|(-> & s0 & Hs0 & Hc & Hp)].
    + case_decide as E.
      * subst l. rewrite Hp, Hs. cbn. eexists. split; [reflexivity|].
        destruct (Hg s) as [Ha Hm].
        split; [exact Ha|]. split; [intros _; congruence|]. intros Hx. congruence.
      * rewrite Hp, Hs. exists s. split; [reflexivity|].
        split; [apply sameAttributes_refl|]. split; intros Hx; congruence.
    + assert (s0 = s) as -> by congruence.
      set (s1 := set_mp (Z.max 0 (mp s - mpCost a)) s) in *.
      assert (sameAttributes s s1) as Ha1 by (repeat split).
      assert (mp s1 = Z.max 0 (mp s - mpCost a)) as Hm1 by reflexivity.
      assert (hp s1 = hp s) as Hh1 by reflexivity.
      case_decide as E.
      * rewrite E, Hp. cbn. eexists. split; [reflexivity|]. destruct (Hg s1) as [Ha Hm].
        split; [unfold sameAttributes in *; intuition congruence|].
        split; [intros _; congruence|]. intros _. split; [lia|reflexivity].
      * rewrite Hp. exists s1. split; [reflexivity|]. split; [exact Ha1|].
        split; [intros Hx; congruence|]. intros _. split; [lia|reflexivity].
Qed.

Lemma healHp_attributes (n : Z) (s : Stats) :
  sameAttributes s (healHp n s) /\ mp (healHp n s) = mp s.
Proof. repeat split. Qed.

Lemma damageHp_attributes (n : Z) (s : Stats) :
  sameAttributes s (damageHp n s) /\ mp (damageHp n s) = mp s.
Proof. repeat split. Qed.

(** X1.  What executeCommand writes.  Of the stats heap it writes at most
    two fields: the hp of the stats object of the command's target and the
    mp of the stats object of its source; no stats object appears or
    disappears, every other field of every stats object keeps its value, and
    mp never rises.  An array of the store keeps its content, unless it is
    the status array of the target: that one may gain the status tag of the
    command's ability, which it did not hold.  The party map is left alone,
    and so are the unit objects when the target carries a status array. *)
Theorem executeCommand_writes (w : World) (b : Battle) (c : Command) (l : loc) :
  let w' := fst (executeCommand w b c) in
  partyByBattleId w' = partyByBattleId w
  /\ ((forall k t, findUnitInBattle w b (targetId c) = Some (k, t) ->
         is_Some (arrayHeap w !! statusEffects t)) ->
      unitHeap w' = unitHeap w)
  /\ (forall arr, arrayHeap w !! l = Some arr ->
        arrayHeap w' !! l = Some arr
        \/ exists k t a tag,
             findUnitInBattle w b (targetId c) = Some (k, t) /\ statusEffects t = l
             /\ abilityId c ≫= (fun i => ABILITIES_BY_ID !! i) = Some a
             /\ statusEffect a = Some tag /\ (tag ∉ arr)
             /\ arrayHeap w' !! l = Some (arr ++ [tag])%list)
  /\ (statsHeap w !! l = None -> statsHeap w' !! l = None)
  /\ forall s, statsHeap w !! l = Some s ->
       exists s', statsHeap w' !! l = Some s' /\ sameAttributes s s'
         /\ (hp s' ≠ hp s ->
             exists k t, findUnitInBattle w b (targetId c) = Some (k, t) /\ stats t = l)
         /\ (mp s' ≠ mp s ->
             (0 <= mp s' < mp s)%Z
             /\ exists k u, findUnitInBattle w b (sourceId c) = Some (k, u) /\ stats u = l).
Proof.
  intros w'. destruct (executeCommand_frame w b c) as [Hu Hp].
  split; [exact Hp|]. split; [intros _; exact Hu|]. subst w'.
  destruct (executeCommand_outcome w b c) as [[Hw _]|(a & source & target & Hres & Hpay)].
  - rewrite Hw. split; [auto|]. split; [auto|]. intros s Hs. exists s. split; [exact Hs|].
    split; [apply sameAttributes_refl|]. split; intros Hx; congruence.
  - split.
    { intros arr Harr. rewrite (resolved_arrays _ _ _ _ _ _ Hres Hpay).
      destruct Hres as [_ Ha _ _ _ (kt & Htgt)].
      unfold applyStatus. destruct (statusEffect a) as [tag|] eqn:Etag; cbn [JS.truthy];
        [|left; exact Harr].
      destruct (negb (tag =? "")%string); [|left; exact Harr].
      cbn [arrayHeap with_arrays].
      destruct (decide (statusEffects target = l)) as [El|El].
      - subst l. rewrite lookup_insert_eq, Harr. unfold pushStatus. cbn [default].
        case_bool_decide as Ein; [left; reflexivity|].
        right. exists kt, target, a, tag. repeat split; assumption.
      - rewrite lookup_insert_ne by exact El. left. exact Harr. }
    rewrite (resolved_stats _ _ _ _ _ _ Hres Hpay).
    destruct Hres as [_ _ _ _ (ks & Hsrc) (kt & Htgt)].
    assert (forall g, (forall s, sameAttributes s (g s) /\ mp (g s) = mp s) ->
              let h' := alter g (stats target) (paidHeap w a source) in
              (statsHeap w !! l = None -> h' !! l = None)
              /\ forall s, statsHeap w !! l = Some s ->
                   exists s', h' !! l = Some s' /\ sameAttributes s s'
                     /\ (hp s' ≠ hp s ->
                         exists k t, findUnitInBattle w b (targetId c) = Some (k, t)
                                     /\ stats t = l)
                     /\ (mp s' ≠ mp s ->
                         (0 <= mp s' < mp s)%Z
                         /\ exists k u, findUnitInBattle w b (sourceId c) = Some (k, u)
                                        /\ stats u = l)) as K.
    { intros g Hg h'. destruct (written_cell w a source target g l Hpay Hg) as [K1 K2].
      split; [exact K1|]. intros s Hs. destruct (K2 s Hs) as (s' & E1 & E2 & E3 & E4).
      exists s'. split; [exact E1|]. split; [exact E2|]. split.
      - intros Hx. exists kt, target. split; [exact Htgt|]. symmetry. apply E3, Hx.
      - intros Hx. destruct (E4 Hx) as [E5 E6]. split; [exact E5|].
        exists ks, source. split; [exact Hsrc|]. symmetry. exact E6. }
    destruct ((0 <? power a)%Z && isHealingTarget a);
      [apply K, healHp_attributes|].
    destruct (0 <? power a)%Z; [apply K, damageHp_attributes|].
    specialize (K (fun s => s)). cbn in K.
    assert (alter (fun s : Stats => s) (stats target) (paidHeap w a source)
            = paidHeap w a source) as Hid.
    { apply map_eq. intros i. rewrite lookup_alter. case_decide; [subst i|]; [|reflexivity].
      destruct (paidHeap w a source !! stats target); reflexivity. }
    rewrite Hid in K. apply K. intros s. split; [apply sameAttributes_refl|reflexivity].
Qed.

Lemma paid_altered_Forall (P : Stats -> Prop) (w : World) (a : Ability)
    (source target : Unit) (g : Stats -> Stats) :
  (forall s v, P s -> (0 <= v <= mp s)%Z -> P (set_mp v s)) ->
  (forall s, P s -> P (g s)) ->
  canPay w a source ->
  map_Forall (fun _ => P) (statsHeap w) ->
  map_Forall (fun _ => P) (alter g (stats target) (paidHeap w a source)).
Proof.
  intros Hmp Hg Hpay Hw.
  assert (map_Forall (fun _ => P) (paidHeap w a source)) as Hpaid.
  { unfold paidHeap. destruct (0 <? mpCost a)%Z eqn:E; [|exact Hw].
    apply Z.ltb_lt in E. destruct (Hpay E) as (s & Hs & Hle). rewrite Hs.
    apply map_Forall_insert_2; [|exact Hw]. apply Hmp; [|lia].
    exact (Hw _ _ Hs). }
  intros l s'. rewrite lookup_alter. case_decide as E.
  - subst l. destruct (paidHeap w a source !! stats target) as [s|] eqn:Es; [|discriminate].
    intros [= <-]. apply Hg. exact (Hpaid _ _ Es).
  - intros Hl. exact (Hpaid _ _ Hl).
Qed.

(** X2.  executeCommand keeps every stats object within its bounds: if
    0 <= hp <= maxHp and 0 <= mp <= maxMp hold for all stats objects of the
    store before the command, they hold after it. *)
Theorem executeCommand_bounds (w : World) (b : Battle) (c : Command) :
  map_Forall (fun _ => withinBounds) (statsHeap w) ->
  map_Forall (fun _ => withinBounds) (statsHeap (fst (executeCommand w b c))).
Proof.
  intros Hw.
  destruct (executeCommand_outcome w b c) as [[E _]|(a & source & target & Hres & Hpay)].
  - rewrite E. exact Hw.
  - rewrite (resolved_stats _ _ _ _ _ _ Hres Hpay).
    assert (forall s v, withinBounds s -> (0 <= v <= mp s)%Z -> withinBounds (set_mp v s))
      as Hmp by (unfold withinBounds; cbn; intros; lia).
    destruct ((0 <? power a)%Z && isHealingTarget a).
    { apply paid_altered_Forall; try assumption.
      unfold withinBounds, healHp, clampHp. cbn. intros; lia. }
    destruct (0 <? power a)%Z.
    { apply paid_altered_Forall; try assumption.
      unfold withinBounds, damageHp, clampHp. cbn. intros; lia. }
    pose proof (paid_altered_Forall withinBounds w a source target (fun s => s) Hmp
                  (fun s H => H) Hpay Hw) as K.
    intros l s Hl. apply (K l s). rewrite lookup_alter. case_decide; [subst l|];
      rewrite Hl; reflexivity.
Qed.

(** The unit test "physical attack damage": every stats object of the store
    is within bounds after the attack, the goblin's among them. *)
Lemma executeCommand_bounds_witness :
  let w' := fst (executeCommand (fst Scenario.attack) (snd Scenario.attack)
                   (Scenario.command "c1" "e1" "basic_attack")) in
  map_Forall (fun _ => withinBounds) (statsHeap w').
Proof.
  apply executeCommand_bounds.
  intros l s Hl. change (statsHeap Scenario.attackStore !! l = Some s) in Hl.
  unfold Scenario.attackStore, Scenario.store in Hl. cbn [statsHeap] in Hl.
  cbn [list_to_map foldr uncurry] in Hl.
  repeat (rewrite lookup_insert in Hl; case_decide;
          [inversion Hl; subst; unfold withinBounds; cbn; lia|]).
  rewrite lookup_empty in Hl. discriminate.
Defined.

(** ** The history of a battle *)

Ltac same_battle :=
  unfold evolves; split; [reflexivity|]; split; [reflexivity|]; split; [reflexivity|];
  split; [try reflexivity | split; [try (let H := fresh in intros H; exact H)|]].

Lemma evolves_refl (n : nat) (b : Battle) : evolves n b b.
Proof.
  same_battle. exists []. rewrite app_nil_r. split; [reflexivity | cbn; lia].
Qed.

Lemma evolves_trans (n m : nat) (b1 b2 b3 : Battle) :
  evolves n b1 b2 -> evolves m b2 b3 -> evolves (n + m) b1 b3.
Proof.
  intros (A1 & A2 & A3 & A4 & A7 & l1 & A5 & A6) (B1 & B2 & B3 & B4 & B7 & l2 & B5 & B6).
  unfold evolves. rewrite B1, B2, B3, B5, A5.
  split; [exact A1|]. split; [exact A2|]. split; [exact A3|].
  split; [etrans; eassumption|]. split; [auto|].
  exists (l1 ++ l2)%list. rewrite app_assoc, length_app. split; [reflexivity | lia].
Qed.

Lemma evolves_weaken (n m : nat) (b b' : Battle) :
  (n <= m)%nat -> evolves n b b' -> evolves m b b'.
Proof.
  intros Hle (A1 & A2 & A3 & A4 & A7 & l1 & A5 & A6).
  split; [exact A1|]. split; [exact A2|]. split; [exact A3|]. split; [exact A4|].
  split; [exact A7|].
  exists l1. split; [exact A5 | lia].
Qed.

Lemma evolves_log_push (line : string) (b : Battle) : evolves 1 b (log_push line b).
Proof. same_battle. exists [line]. split; reflexivity. Qed.

Lemma List_filter_sublist {A : Type} (f : A -> bool) (l : list A) :
  List.filter f l `sublist_of` l.
Proof.
  induction l as [|x l IH]; cbn; [constructor|].
  destruct (f x); [apply sublist_skip | apply sublist_cons]; exact IH.
Qed.

Lemma evolves_prune (w : World) (b : Battle) : evolves 0 b (pruneDeadFromTurnOrder w b).
Proof.
  same_battle; [apply List_filter_sublist|]. exists []. cbn. rewrite app_nil_r.
  split; reflexivity.
Qed.

Lemma evolves_with_state (s : BattleState) (b : Battle) :
  s ≠ pending -> evolves 0 b (with_state s b).
Proof. intros Hs. same_battle; [intros E; cbn in E; congruence|]. exists []. cbn. rewrite app_nil_r. split; reflexivity. Qed.

Lemma evolves_with_index (i : nat) (b : Battle) :
  evolves 0 b (with_turns (turnOrder b) i b).
Proof. same_battle. exists []. cbn. rewrite app_nil_r. split; reflexivity. Qed.

Lemma settle_evolves (w : World) (b : Battle) : evolves 1 b (settle w b).
Proof.
  unfold settle. set (b1 := pruneDeadFromTurnOrder w b).
  pose proof (evolves_prune w b) as H0. fold b1 in H0.
  case_bool_decide; [|eapply evolves_weaken; [|exact H0]; lia].
  pose proof (evolves_trans _ _ _ _ _ H0
                (evolves_with_state (recomputeState w b1) b1
                   (recomputeState_not_pending w b1))) as H1.
  destruct (recomputeState w b1);
    try (eapply evolves_weaken; [|exact H1]; lia);
    exact (evolves_trans _ _ _ _ _ H1 (evolves_log_push _ _)).
Qed.

(** The safety loop only moves the index. *)
Lemma skipStale_index (w : World) (n : nat) :
  forall b, exists i, skipStale w n b = with_turns (turnOrder b) i b.
Proof.
  induction n as [|n IH]; intros b.
  - exists (activeTurnIndex b). destruct b; reflexivity.
  - cbn [skipStale]. destruct (IH (nextIndex b)) as [i Hi].
    assert (exists i, skipStale w n (nextIndex b) = with_turns (turnOrder b) i b) as Hn
      by (exists i; rewrite Hi; reflexivity).
    destruct (getActiveUnit w b) as [u|]; [|exact Hn].
    destruct (isAlive w u); [|exact Hn].
    exists (activeTurnIndex b). destruct b; reflexivity.
Qed.

Lemma advanceTurn_evolves (w : World) (b : Battle) : evolves 1 b (advanceTurn w b).
Proof.
  unfold advanceTurn. case_bool_decide; [apply evolves_refl|].
  set (b1 := pruneDeadFromTurnOrder w b).
  pose proof (evolves_prune w b) as H0. fold b1 in H0.
  case_bool_decide.
  { exact (evolves_trans _ _ _ _ _
             (evolves_trans _ _ _ _ _ H0
                (evolves_with_state _ b1 (recomputeState_not_pending w b1)))
             (evolves_log_push _ _)). }
  case_bool_decide.
  { exact (evolves_trans _ _ _ _ _
             (evolves_trans _ _ _ _ _ H0 (evolves_with_state defeat b1 ltac:(discriminate)))
             (evolves_log_push _ _)). }
  destruct (skipStale_index w (length (turnOrder (nextIndex b1))) (nextIndex b1)) as [i Hi].
  rewrite Hi. eapply evolves_weaken; [|exact H0]. lia.
Qed.

Lemma executeCommand_evolves (w : World) (b : Battle) (c : Command) :
  evolves 2 b (snd (executeCommand w b c)).
Proof.
  destruct (executeCommand_outcome w b c)
    as [[_ [E|[[line E]|[line E]]]]|(a & source & target & Hres & Hpay)].
  - rewrite E. apply evolves_refl.
  - rewrite E. eapply evolves_weaken; [|apply evolves_log_push]. lia.
  - rewrite E. eapply evolves_weaken;
      [|exact (evolves_trans _ _ _ _ _ (evolves_log_push line b)
                 (evolves_with_state defeat _ ltac:(discriminate)))].
    lia.
  - destruct (resolved_result w b c a source target Hres Hpay) as [line E].
    rewrite E. exact (evolves_trans _ _ _ _ _ (evolves_log_push line b) (settle_evolves _ _)).
Qed.

(** X3.  Both operations of the engine keep the history of a battle: its id,
    its party id and its enemies stay, the schedule only loses entries (the
    remaining ones keep their order), the state never returns to pending, and
    the log is only appended to, by at most two lines in executeCommand and
    at most one in advanceTurn. *)
Theorem engine_keeps_history (w : World) (b : Battle) (c : Command) :
  evolves 2 b (snd (executeCommand w b c)) /\ evolves 1 b (advanceTurn w b).
Proof. split; [apply executeCommand_evolves | apply advanceTurn_evolves]. Qed.

(** ** The direction of an ability *)

Lemma damageOf_positive (w : World) (a : Ability) (source target : Unit) :
  (1 <= damageOf w a source target)%Z.
Proof. unfold damageOf, damageAmount. lia. Qed.

Lemma healOf_positive (w : World) (a : Ability) (source target : Unit) :
  (1 <= healOf w a source target)%Z.
Proof. unfold healOf, healAmount. lia. Qed.

(** X4.  The direction of a resolved ability of positive power.  A healing
    ability raises the hp of every target below its maximum, fallen ones
    included (the executor never asks whether the target lives), and never
    past the maximum; any other ability strictly lowers the hp of a living
    target and leaves a fallen one at 0. *)
Theorem executeCommand_direction (w : World) (b : Battle) (c : Command) (a : Ability)
    (source target : Unit) (st : Stats) :
  resolves w b c a source target ->
  canPay w a source ->
  (0 < power a)%Z ->
  statsHeap w !! stats target = Some st ->
  exists st', statsHeap (fst (executeCommand w b c)) !! stats target = Some st'
    /\ if isHealingTarget a
       then ((hp st < maxHp st)%Z -> (hp st < hp st' <= Z.max 0 (maxHp st))%Z)
            /\ ((maxHp st <= hp st)%Z -> hp st' = Z.max 0 (maxHp st))
       else ((0 < hp st)%Z -> (0 <= hp st' < hp st)%Z)
            /\ ((hp st <= 0)%Z -> hp st' = 0%Z).
Proof.
  intros Hres Hpay Hpow Hst. destruct (isHealingTarget a) eqn:Eh.
  - destruct (resolved_heal_hp w b c a source target st Hres Hpay Hpow Eh Hst)
      as (st' & H1 & H2 & _).
    exists st'. split; [exact H1|].
    pose proof (healOf_positive w a source target). split; intros; lia.
  - destruct (resolved_damage_hp w b c a source target st Hres Hpay Hpow Eh Hst)
      as (st' & H1 & H2 & _).
    exists st'. split; [exact H1|].
    pose proof (damageOf_positive w a source target). split; intros; lia.
Qed.

(** The unit test "healing spell (sage_mend)": the ally, at 5 of 30 hp, is
    better off after the spell. *)
Lemma executeCommand_direction_witness :
  (5 < getUnitHp
         (fst (executeCommand (fst Scenario.heal) (snd Scenario.heal)
                 (Scenario.command "c1" "c2" "sage_mend")))
         Scenario.ally)%Z.
Proof.
  destruct (executeCommand_direction (fst Scenario.heal) (snd Scenario.heal)
              (Scenario.command "c1" "c2" "sage_mend")
              (mkAbility "sage_mend" "Mend" ELEMENTS.LIGHT 5 ally_single 12 None
                 (Some [CLASS_NAMES.SAGE]) 1)
              Scenario.hero Scenario.ally (Scenario.makeStats 5 30 0 0 10 10 1))
    as (st' & H1 & H2).
  - resolves_by_evaluation.
  - canPay_by_evaluation.
  - vm_compute. reflexivity.
  - vm_compute. reflexivity.
  - unfold getUnitHp. change (stats Scenario.ally) with 2%positive in *.
    rewrite H1. cbn in H2. destruct H2 as [H2 _]. apply H2. lia.
Defined.

(** ** The validator and the executor *)

(** What an accepting verdict of the validator has checked. *)
Lemma validateBattleCommand_ok (w : World) (b : Battle) (player : string) (c : Command) :
  ok (validateBattleCommand w b player c) = true ->
  exists r p a ks source kt target,
    state b = in_progress
    /\ activeRef b = Some r /\ kind r = party
    /\ getPartyForBattle w (battleId b) = Some p /\ playerId p = player
    /\ sourceId c = Some (refId r)
    /\ abilityId c ≫= (fun i => ABILITIES_BY_ID !! i) = Some a
    /\ findUnitInBattle w b (sourceId c) = Some (ks, source)
    /\ canPay w a source
    /\ findUnitInBattle w b
         (if bool_decide (targetType a = self_target) then sourceId c else targetId c)
       = Some (kt, target)
    /\ (targetType a = enemy_single -> kt = enemy)
    /\ (targetType a = ally_single -> kt = party)
    /\ targetType a ≠ party_target /\ targetType a ≠ enemy_all.
Proof.
  unfold validateBattleCommand.
  case_bool_decide as Hs; [discriminate|].
  case_bool_decide as Hl; [discriminate|].
  destruct (activeRef b) as [r|] eqn:Hr; [|discriminate].
  case_bool_decide as Hk; [discriminate|].
  destruct (getPartyForBattle w (battleId b)) as [p|] eqn:Hp; [|discriminate].
  case_bool_decide as Hpl; [discriminate|].
  destruct (sourceId c) as [src|] eqn:Hc; [|discriminate].
  case_bool_decide as Hsrc; [discriminate|]. subst src.
  destruct (abilityId c ≫= _) as [a|] eqn:Ha; [|discriminate].
  rewrite unitById_findUnitInBattle.
  destruct (findUnitInBattle w b (Some (refId r))) as [[ks source]|] eqn:Hsource;
    [|discriminate].
  destruct ((0 <? mpCost a)%Z && _) eqn:Hmp; [discriminate|].
  assert (canPay w a source) as Hpay.
  { intros Hpos. apply Z.ltb_lt in Hpos. rewrite Hpos in Hmp. cbn in Hmp.
    destruct (statsHeap w !! stats source) as [s|]; [|discriminate].
    exists s. split; [reflexivity|]. apply Z.ltb_ge, Hmp. }
  destruct (if bool_decide (targetType a = self_target) then Some (refId r) else targetId c)
    as [tgt|] eqn:Ht; [|discriminate].
  rewrite unitById_findUnitInBattle.
  destruct (findUnitInBattle w b (Some tgt)) as [[kt target]|] eqn:Htarget; [|discriminate].
  destruct (bool_decide (targetType a = enemy_single) && bool_decide (kt ≠ enemy)) eqn:H1;
    [discriminate|].
  destruct (bool_decide (targetType a = ally_single) && bool_decide (kt ≠ party)) eqn:H2;
    [discriminate|].
  destruct (bool_decide (targetType a = party_target) || bool_decide (targetType a = enemy_all))
    eqn:H3; [discriminate|].
  intros _. exists r, p, a, ks, source, kt, target. rewrite Ht.
  repeat (split; [first [assumption | reflexivity]|]).
  split; [intros E; rewrite (bool_decide_eq_true_2 _ E) in H1; cbn in H1;
          apply bool_decide_eq_false in H1; destruct kt; [exfalso; apply H1; discriminate
                                                        | reflexivity]|].
  split; [intros E; rewrite (bool_decide_eq_true_2 _ E) in H2; cbn in H2;
          apply bool_decide_eq_false in H2; destruct kt; [reflexivity
                                                        | exfalso; apply H2; discriminate]|].
  apply orb_false_elim in H3 as [H3 H4].
  apply bool_decide_eq_false in H3, H4. split; assumption.
Qed.

Lemma self_target_flee_or_defend (i : string) (a : Ability) :
  ABILITIES_BY_ID !! i = Some a -> targetType a = self_target ->
  i = "flee" \/ i = "defend".
Proof.
  unfold ABILITIES_BY_ID, ABILITIES. cbn [foldl]. intros H.
  repeat (rewrite lookup_insert in H; case_decide;
          [ inversion H; subst; cbn; first [discriminate | auto] |]).
  rewrite lookup_empty in H. discriminate.
Qed.




(** X6.  Where the validator and the executor part ways: for a self-target
    ability the validator checks the source in place of the target, but the
    executor still looks the command's own targetId up.  A validated
    self-target command other than flee (in the catalog: defend) whose
    targetId names no unit is turned down by the executor, which changes
    nothing and logs "Invalid command: missing source/target.". *)
Theorem validated_self_target_turned_down (w : World) (b : Battle) (player : string)
    (c : Command) (a : Ability) :
  ok (validateBattleCommand w b player c) = true ->
  abilityId c ≫= (fun i => ABILITIES_BY_ID !! i) = Some a ->
  targetType a = self_target ->
  abilityId c ≠ Some "flee" ->
  findUnitInBattle w b (targetId c) = None ->
  abilityId c = Some "defend"
  /\ executeCommand w b c = (w, log_push "Invalid command: missing source/target." b).
Proof.
  intros Hok Ha Hself Hf Hnone.
  destruct (validateBattleCommand_ok w b player c Hok)
    as (r & p & a' & ks & source & kt & target & Hs & Hr & Hk & Hp & Hpl & Hc & Ha' & Hsrc
        & _).
  split.
  - destruct (abilityId c) as [i|]; [|discriminate]. cbn in Ha.
    destruct (self_target_flee_or_defend i a Ha Hself) as [->| ->]; congruence.
  - unfold executeCommand.
    rewrite bool_decide_eq_false_2 by (rewrite Hs; intros E; apply E; reflexivity).
    rewrite Ha. rewrite bool_decide_eq_false_2 by exact Hf.
    rewrite Hr. rewrite bool_decide_eq_false_2 by (intros E; apply E; symmetry; exact Hc).
    rewrite Hsrc, Hnone. reflexivity.
Qed.

(** The hero defends without naming a target: accepted, then turned down. *)
Lemma validated_self_target_turned_down_witness :
  let c := {| cmdType := "ability"; sourceId := Some "c1"; targetId := None;
              abilityId := Some "defend" |} in
  validateBattleCommand (fst Scenario.attack) (snd Scenario.attack) "player1" c
  = {| ok := true; reason := None |}
  /\ executeCommand (fst Scenario.attack) (snd Scenario.attack) c
     = (fst Scenario.attack,
        log_push "Invalid command: missing source/target." (snd Scenario.attack)).
Proof.
  split; [vm_compute; reflexivity|].
  apply (validated_self_target_turned_down (fst Scenario.attack) (snd Scenario.attack)
           "player1" _
           (mkAbility "defend" "Defend" ELEMENTS.NULL 0 self_target 0 None None 1)).
  - vm_compute. reflexivity.
  - vm_compute. reflexivity.
  - reflexivity.
  - discriminate.
  - reflexivity.
Defined.

(** ** Pruning and advancing *)

Lemma aliveIds_spec (w : World) (ls : list loc) (i : string) :
  i ∈ aliveIds w ls <->
  exists u, u ∈ unitsAt w ls /\ unitId u = i /\ (0 < getUnitHp w u)%Z.
Proof.
  unfold aliveIds. rewrite elem_of_list_to_set, list_elem_of_In, in_map_iff. split.
  - intros (u & Hi & Hu). apply list_elem_of_In, elem_of_filter_isAlive in Hu as [H1 H2].
    eauto.
  - intros (u & H1 & Hi & H2). exists u. split; [exact Hi|].
    apply list_elem_of_In, elem_of_filter_isAlive. auto.
Qed.

Lemma prune_keeps (w : World) (b : Battle) (r : TurnRef) :
  r ∈ turnOrder (pruneDeadFromTurnOrder w b) <->
  r ∈ turnOrder b
  /\ exists u, u ∈ unitsAt w (sideOf w b (kind r)) /\ unitId u = refId r
               /\ (0 < getUnitHp w u)%Z.
Proof.
  unfold pruneDeadFromTurnOrder. cbn [turnOrder with_turns].
  rewrite list_elem_of_In, filter_In, <- list_elem_of_In.
  unfold sideOf. destruct (kind r); rewrite bool_decide_eq_true, aliveIds_spec; reflexivity.
Qed.

Lemma List_filter_idem {A : Type} (f : A -> bool) (l : list A) :
  List.filter f (List.filter f l) = List.filter f l.
Proof.
  induction l as [|x l IH]; [reflexivity|]. cbn. destruct (f x) eqn:E; [|exact IH].
  cbn. rewrite E, IH. reflexivity.
Qed.

(** X7.  pruneDeadFromTurnOrder keeps exactly the references that name a
    living unit of their own side, in their old order; it leaves the index
    inside the schedule; and pruning a pruned battle changes nothing. *)
Theorem pruneDeadFromTurnOrder_spec (w : World) (b : Battle) :
  let b' := pruneDeadFromTurnOrder w b in
  turnOrder b' `sublist_of` turnOrder b
  /\ (forall r, r ∈ turnOrder b' <->
        r ∈ turnOrder b
        /\ exists u, u ∈ unitsAt w (sideOf w b (kind r)) /\ unitId u = refId r
                     /\ (0 < getUnitHp w u)%Z)
  /\ ((activeTurnIndex b' < length (turnOrder b'))%nat \/ turnOrder b' = [])
  /\ pruneDeadFromTurnOrder w b' = b'.
Proof.
  intros b'. split; [apply List_filter_sublist|]. split; [apply prune_keeps|].
  split; [apply prune_index|]. subst b'.
  unfold pruneDeadFromTurnOrder.
  cbn [turnOrder activeTurnIndex with_turns battleId partyId enemies log state].
  change (membersOf w (with_turns _ _ b)) with (membersOf w b).
  match goal with
  | |- context [List.filter ?k (turnOrder b)] => set (keep := k)
  end.
  rewrite List_filter_idem. set (order := List.filter keep (turnOrder b)).
  unfold with_turns. cbn. f_equal.
  case_bool_decide as E; [reflexivity|]. apply Nat.Div0.mod_mod.
Qed.

Lemma find_hasId_Some (i : string) (us : list Unit) (u : Unit) :
  find (hasId i) us = Some u -> u ∈ us /\ unitId u = i.
Proof.
  intros H. apply find_some in H as [H1 H2]. split; [apply list_elem_of_In, H1|].
  apply String.eqb_eq, H2.
Qed.

Lemma find_hasId_unique (us : list Unit) (u : Unit) :
  NoDup (map unitId us) -> u ∈ us -> find (hasId (unitId u)) us = Some u.
Proof.
  induction us as [|x r IH]; intros Hnd Hin; [inversion Hin|].
  cbn in Hnd. apply NoDup_cons in Hnd as [Hx Hr]. cbn. unfold hasId at 1.
  apply elem_of_cons in Hin as [->|Hin]; [rewrite String.eqb_refl; reflexivity|].
  destruct (String.eqb_spec (unitId x) (unitId u)) as [E|E]; [|apply IH; assumption].
  exfalso. apply Hx. rewrite E. apply list_elem_of_fmap. exists u. auto.
Qed.

Lemma activeRef_elem (b : Battle) (r : TurnRef) :
  activeRef b = Some r -> r ∈ turnOrder b.
Proof.
  unfold activeRef. destruct (turnOrder b) eqn:E; [discriminate|].
  intros H. eapply list_elem_of_lookup_2, H.
Qed.






(** ** The start of a battle *)

Lemma someAlive_count (w : World) (ls : list loc) :
  someAlive w ls <-> (0 < length (List.filter (isAlive w) (unitsAt w ls)))%nat.
Proof.
  unfold someAlive. split.
  - intros (u & Hu). apply elem_of_filter_isAlive in Hu.
    destruct (List.filter _ _); [inversion Hu | cbn; lia].
  - destruct (List.filter _ _) as [|u r] eqn:E; [cbn; lia|]. intros _.
    exists u. apply elem_of_filter_isAlive. rewrite E. constructor.
Qed.

Lemma calculateInitialTurnOrder_length (lc : string -> string -> Z) (w : World)
    (p : Party) (foes : list loc) :
  length (calculateInitialTurnOrder lc w p foes)
  = (length (List.filter (isAlive w) (unitsAt w (members p)))
     + length (List.filter (isAlive w) (unitsAt w foes)))%nat.
Proof.
  unfold calculateInitialTurnOrder, sortedEntries. rewrite length_map.
  rewrite (Permutation_length (sort_perm _ _)). unfold turnEntries.
  rewrite length_app, !length_map. reflexivity.
Qed.

(** X9.  createBattle schedules one turn per living combatant and starts the
    battle in progress as soon as anyone is alive on either side, a party
    that is already down facing living enemies included; it is a defeat from
    the start only when nobody lives, and never a victory.  The log opens
    with the creation line, followed by "Battle started." exactly when the
    battle is in progress. *)
Theorem createBattle_start (lc : string -> string -> Z) (w : World) (id : string)
    (p : Party) (foes : list loc) :
  let b0 := snd (createBattle lc w id p foes) in
  length (turnOrder b0)
  = (length (List.filter (isAlive w) (unitsAt w (members p)))
     + length (List.filter (isAlive w) (unitsAt w foes)))%nat
  /\ (state b0 = in_progress <-> someAlive w (members p) \/ someAlive w foes)
  /\ (state b0 = defeat <-> ~ someAlive w (members p) /\ ~ someAlive w foes)
  /\ log b0 = ("Battle " ++ id ++ " created.")
              :: (if bool_decide (state b0 = in_progress) then ["Battle started."] else []).
Proof.
  intros b0. subst b0.
  pose proof (calculateInitialTurnOrder_length lc w p foes) as Hlen.
  rewrite !someAlive_count.
  unfold createBattle. destruct (spreadAll (unitHeap w) foes) as [units copies].
  cbn [turnOrder with_state state].
  destruct (bool_decide (0 < length (calculateInitialTurnOrder lc w p foes))%nat) eqn:E.
  - rewrite (bool_decide_eq_true_2 (in_progress = in_progress)) by reflexivity.
    apply bool_decide_eq_true in E. cbn.
    split; [exact Hlen|]. split; [split; [intros _; lia | reflexivity]|].
    split; [split; [discriminate | intros [H1 H2]; exfalso; lia]|]. reflexivity.
  - rewrite (bool_decide_eq_false_2 (defeat = in_progress)) by discriminate.
    apply bool_decide_eq_false in E. cbn.
    split; [exact Hlen|]. split; [split; [discriminate | intros [H|H]; exfalso; lia]|].
    split; [split; [intros _; split; intros H; lia | reflexivity]|]. reflexivity.
Qed.

(** ** The element of a unit *)

Lemma bestResonance_acc (cr : list (string * Z)) :
  forall (be : option string) (bv : option Z),
    (bestResonance cr be bv = be
     /\ forall j k v, cr !! j = Some (k, v) -> namesElement k ->
          exists x, bv = Some x /\ (v <= x)%Z)
    \/ exists i k v, firstHeaviest cr i k v
                     /\ bestResonance cr be bv = Some (JS.toUpperCase k)
                     /\ forall x, bv = Some x -> (x < v)%Z.
Proof.
  induction cr as [|[k v] rest IH]; intros be bv.
  - left. split; [reflexivity|]. intros j k v H. destruct j; discriminate.
  - cbn [bestResonance].
    destruct (ELEMENTS.hasOwnProperty (JS.toUpperCase k)) eqn:Ek; cbn [negb].
    + destruct (match bv with None => true | Some bv0 => (bv0 <? v)%Z end) eqn:Eb.
      * right. destruct (IH (Some (JS.toUpperCase k)) (Some v))
          as [[E Hall]|(i & k1 & v1 & (H1 & H2 & H3) & E & Hx)].
        -- exists 0%nat, k, v. split; [|split; [exact E|]].
           ++ split; [reflexivity|]. split; [exact Ek|].
              intros [|j] k' v' Hj Hn.
              ** injection Hj as <- <-. split; [lia | intros; lia].
              ** destruct (Hall j k' v' Hj Hn) as (x & [= <-] & Hle).
                 split; [exact Hle | intros; lia].
           ++ intros x ->. apply Z.ltb_lt, Eb.
        -- specialize (Hx v eq_refl).
           exists (S i), k1, v1. split; [|split; [exact E|]].
           ++ split; [exact H1|]. split; [exact H2|].
              intros [|j] k' v' Hj Hn.
              ** injection Hj as <- <-. split; [lia | intros; lia].
              ** destruct (H3 j k' v' Hj Hn) as [A B]. split; [exact A | intros; apply B; lia].
           ++ intros x ->. apply Z.ltb_lt in Eb. lia.
      * destruct bv as [x|]; [|discriminate]. apply Z.ltb_ge in Eb.
        destruct (IH be (Some x)) as [[E Hall]|(i & k1 & v1 & (H1 & H2 & H3) & E & Hx)].
        -- left. split; [exact E|]. intros [|j] k' v' Hj Hn.
           ++ injection Hj as <- <-. eauto.
           ++ eauto.
        -- right. specialize (Hx x eq_refl). exists (S i), k1, v1.
           split; [|split; [exact E|]].
           ++ split; [exact H1|]. split; [exact H2|].
              intros [|j] k' v' Hj Hn.
              ** injection Hj as <- <-. split; [lia | intros; lia].
              ** destruct (H3 j k' v' Hj Hn) as [A B]. split; [exact A | intros; apply B; lia].
           ++ intros y [= <-]. exact Hx.
    + destruct (IH be bv) as [[E Hall]|(i & k1 & v1 & (H1 & H2 & H3) & E & Hx)].
      * left. split; [exact E|]. intros [|j] k' v' Hj Hn.
        -- injection Hj as <- <-. unfold namesElement in Hn. congruence.
        -- eauto.
      * right. exists (S i), k1, v1. split; [|split; [exact E | exact Hx]].
        split; [exact H1|]. split; [exact H2|].
        intros [|j] k' v' Hj Hn.
        -- injection Hj as <- <-. unfold namesElement in Hn. congruence.
        -- destruct (H3 j k' v' Hj Hn) as [A B]. split; [exact A | intros; apply B; lia].
Qed.

(** X10.  getUnitElement: an explicit element that is not blank wins, as it
    is written.  Otherwise the element is read off crystalResonance: none
    when no key names an element (in any letter case); else the upper-cased
    key of the first entry of greatest weight among those that do, which is
    one of the seven element names. *)
Theorem getUnitElement_spec (u : Unit) :
  (forall e, element u = Some e -> JS.trim_truthy e = true -> getUnitElement u = Some e)
  /\ ((forall e, element u = Some e -> JS.trim_truthy e = false) ->
      (getUnitElement u = None
       /\ forall j k v, crystalResonance u !! j = Some (k, v) -> ~ namesElement k)
      \/ exists i k v, firstHeaviest (crystalResonance u) i k v
                       /\ getUnitElement u = Some (JS.toUpperCase k)
                       /\ JS.toUpperCase k ∈ ELEMENTS.keys).
Proof.
  unfold getUnitElement. split.
  - intros e -> ->. reflexivity.
  - intros Hblank.
    assert (getUnitElement u = bestResonance (crystalResonance u) None None) as E.
    { unfold getUnitElement. destruct (element u) as [e|]; [|reflexivity].
      rewrite (Hblank e eq_refl). reflexivity. }
    unfold getUnitElement in E. rewrite E.
    destruct (bestResonance_acc (crystalResonance u) None None)
      as [[E1 Hall]|(i & k & v & Hf & E1 & _)].
    + left. split; [exact E1|]. intros j k v Hj Hn.
      destruct (Hall j k v Hj Hn) as (x & Hx & _). discriminate.
    + right. exists i, k, v. split; [exact Hf|]. split; [exact E1|].
      destruct Hf as (_ & Hn & _). apply bool_decide_eq_true in Hn. exact Hn.
Qed.

(** ** The enemy turns *)

Lemma runEnemyTurns_more_fuel (n : nat) :
  forall w b res, runEnemyTurns n w b = Some res -> runEnemyTurns (S n) w b = Some res.
Proof.
  induction n as [|n IH]; intros w b res; [discriminate|].
  intros H. cbn [runEnemyTurns] in H. cbn [runEnemyTurns].
  destruct (bool_decide (state b ≠ in_progress)); [exact H|].
  destruct (activeRef b) as [r|]; [|exact H].
  destruct (bool_decide (kind r ≠ enemy)); [exact H|].
  destruct (find (hasId (refId r)) (unitsAt w (enemies b))) as [e|].
  - destruct (negb (JS.truthy (findFirstAlivePartyMemberId w b))); [exact H|].
    destruct (executeCommand w b _) as [w1 b1]. apply IH in H. exact H.
  - apply IH in H. exact H.
Qed.

Lemma runEnemyTurns_fuel_le (n m : nat) (w : World) (b : Battle) (res : World * Battle) :
  (n <= m)%nat -> runEnemyTurns n w b = Some res -> runEnemyTurns m w b = Some res.
Proof.
  induction 1 as [|m Hle IH]; [auto|]. intros H. apply runEnemyTurns_more_fuel, IH, H.
Qed.

Lemma advanceTurn_turnOrder (w : World) (b : Battle) :
  state b = in_progress ->
  turnOrder (advanceTurn w b) = turnOrder (pruneDeadFromTurnOrder w b).
Proof.
  intros Hs. unfold advanceTurn.
  rewrite bool_decide_eq_false_2 by (intros E; apply E, Hs).
  case_bool_decide; [reflexivity|]. case_bool_decide; [reflexivity|].
  destruct (skipStale_index w (length (turnOrder (nextIndex (pruneDeadFromTurnOrder w b))))
              (nextIndex (pruneDeadFromTurnOrder w b))) as [i Hi].
  rewrite Hi. reflexivity.
Qed.

Lemma List_filter_shorter {A : Type} (f : A -> bool) (l : list A) (x : A) :
  x ∈ l -> f x = false -> (length (List.filter f l) < length l)%nat.
Proof.
  induction l as [|y l IH]; intros Hin Hx; [inversion Hin|].
  pose proof (sublist_length _ _ (List_filter_sublist f l)) as Hle.
  cbn. apply elem_of_cons in Hin as [->|Hin].
  - rewrite Hx. lia.
  - specialize (IH Hin Hx). destruct (f y); cbn; lia.
Qed.

Lemma find_hasId_None (i : string) (us : list Unit) (u : Unit) :
  find (hasId i) us = None -> u ∈ us -> unitId u ≠ i.
Proof.
  intros Hn Hin E. apply list_elem_of_In in Hin.
  pose proof (find_none _ _ Hn u Hin) as H. unfold hasId in H.
  rewrite E, String.eqb_refl in H. discriminate.
Qed.

(** A reference to an enemy that is not there is dropped by advanceTurn. *)
Lemma advanceTurn_drops_missing (w : World) (b : Battle) (r : TurnRef) :
  state b = in_progress ->
  activeRef b = Some r -> kind r = enemy ->
  find (hasId (refId r)) (unitsAt w (enemies b)) = None ->
  (length (turnOrder (advanceTurn w b)) < length (turnOrder b))%nat.
Proof.
  intros Hs Hr Hk Hn. rewrite (advanceTurn_turnOrder w b Hs).
  unfold pruneDeadFromTurnOrder. cbn [turnOrder with_turns].
  apply (List_filter_shorter _ _ r (activeRef_elem _ _ Hr)).
  rewrite Hk. apply bool_decide_eq_false. rewrite aliveIds_spec.
  intros (u & Hu & Hi & _). exact (find_hasId_None _ _ u Hn Hu Hi).
Qed.

Lemma membersOf_frame (w w' : World) (b b' : Battle) :
  partyByBattleId w' = partyByBattleId w -> battleId b' = battleId b ->
  membersOf w' b' = membersOf w b.
Proof. intros H1 H2. unfold membersOf, getPartyForBattle. rewrite H1, H2. reflexivity. Qed.

Lemma unitsAt_frame (w w' : World) (ls : list loc) :
  unitHeap w' = unitHeap w -> unitsAt w' ls = unitsAt w ls.
Proof. intros H. unfold unitsAt. rewrite H. reflexivity. Qed.

Lemma sum_list_le {A : Type} (f g : A -> nat) (l : list A) :
  (forall y, y ∈ l -> (g y <= f y)%nat) ->
  (sum_list (map g l) <= sum_list (map f l))%nat.
Proof.
  induction l as [|y l IH]; intros Hle; [cbn; lia|]. cbn.
  pose proof (Hle y ltac:(left)).
  assert (forall z, z ∈ l -> (g z <= f z)%nat) as H' by (intros z Hz; apply Hle; right; exact Hz).
  specialize (IH H'). lia.
Qed.

Lemma sum_list_lower {A : Type} (f g : A -> nat) (l : list A) (x : A) :
  (forall y, y ∈ l -> (g y <= f y)%nat) -> x ∈ l -> (g x < f x)%nat ->
  (sum_list (map g l) < sum_list (map f l))%nat.
Proof.
  induction l as [|y l IH]; intros Hle Hin Hx; [inversion Hin|].
  assert (forall z, z ∈ l -> (g z <= f z)%nat) as H' by (intros z Hz; apply Hle; right; exact Hz).
  pose proof (sum_list_le f g l H') as Hrest.
  cbn. pose proof (Hle y ltac:(left)).
  apply elem_of_cons in Hin as [->|Hin]; [lia|].
  specialize (IH H' Hin Hx). lia.
Qed.

Lemma basic_attack_entry :
  ABILITIES_BY_ID !! "basic_attack"
  = Some (mkAbility "basic_attack" "Attack" ELEMENTS.NULL 0 enemy_single 4 None None 1).
Proof. vm_compute. reflexivity. Qed.

Lemma find_isAlive_Some (w : World) (us : list Unit) (m : Unit) :
  find (isAlive w) us = Some m -> m ∈ us /\ (0 < getUnitHp w m)%Z.
Proof.
  intros H. apply find_some in H as [H1 H2]. split; [apply list_elem_of_In, H1|].
  apply Z.ltb_lt, H2.
Qed.

(** The attack [runEnemyTurns] issues resolves, against the first living
    party member. *)
Lemma enemy_attack_resolves (w : World) (b : Battle) (r : TurnRef) (e m : Unit) :
  state b = in_progress ->
  activeRef b = Some r ->
  find (hasId (refId r)) (unitsAt w (enemies b)) = Some e ->
  uniqueIds w (membersOf w b) ->
  find (isAlive w) (unitsAt w (membersOf w b)) = Some m ->
  exists source,
    resolves w b (enemyAttack (unitId e) (unitId m))
      (mkAbility "basic_attack" "Attack" ELEMENTS.NULL 0 enemy_single 4 None None 1)
      source m.
Proof.
  intros Hs Hr He Hu Hm.
  destruct (find_hasId_Some _ _ _ He) as [_ Hid].
  destruct (find_isAlive_Some _ _ _ Hm) as [Hin _].
  assert (exists k source, findUnitInBattle w b (Some (unitId e)) = Some (k, source))
    as (k & source & Hsrc).
  { unfold findUnitInBattle. destruct (find (hasId (unitId e)) _) as [u|]; [eauto|].
    rewrite Hid, He. eauto. }
  exists source. constructor.
  - exact Hs.
  - exact basic_attack_entry.
  - discriminate.
  - exists r. split; [exact Hr|]. cbn. rewrite Hid. reflexivity.
  - exists k. exact Hsrc.
  - exists party. cbn. unfold findUnitInBattle.
    rewrite (find_hasId_unique _ m Hu Hin). reflexivity.
Qed.

Lemma enemy_attack_hurts (w : World) (b : Battle) (r : TurnRef) (e m : Unit) :
  state b = in_progress ->
  activeRef b = Some r ->
  find (hasId (refId r)) (unitsAt w (enemies b)) = Some e ->
  uniqueIds w (membersOf w b) ->
  find (isAlive w) (unitsAt w (membersOf w b)) = Some m ->
  let res := executeCommand w b (enemyAttack (unitId e) (unitId m)) in
  (partyHp (fst res) (snd res) < partyHp w b)%nat.
Proof.
  intros Hs Hr He Hu Hm res.
  destruct (enemy_attack_resolves w b r e m Hs Hr He Hu Hm) as [source Hres].
  set (a := mkAbility "basic_attack" "Attack" ELEMENTS.NULL 0 enemy_single 4 None None 1) in *.
  assert (canPay w a source) as Hpay by (intros H; cbn in H; lia).
  destruct (find_isAlive_Some _ _ _ Hm) as [Hin Halive].
  destruct (executeCommand_frame w b (enemyAttack (unitId e) (unitId m))) as [Hf1 Hf2].
  destruct (executeCommand_evolves w b (enemyAttack (unitId e) (unitId m))) as (Hb & _).
  fold res in Hf1, Hf2, Hb.
  unfold partyHp. rewrite (membersOf_frame _ _ _ _ Hf2 Hb), (unitsAt_frame _ _ _ Hf1).
  pose proof (resolved_stats w b _ a source m Hres Hpay) as Hheap. fold res in Hheap.
  change ((0 <? power a)%Z && isHealingTarget a) with false in Hheap.
  change (0 <? power a)%Z with true in Hheap. cbn match in Hheap.
  change (paidHeap w a source) with (statsHeap w) in Hheap.
  unfold getUnitHp in Halive.
  destruct (statsHeap w !! stats m) as [st|] eqn:Hst; [|lia].
  pose proof (damageOf_positive w a source m) as Hd.
  assert (forall u, (getUnitHp (fst res) u <= getUnitHp w u)%Z
                    /\ (stats u = stats m -> (getUnitHp (fst res) u < getUnitHp w u)%Z)) as Hcmp.
  { intros u. unfold getUnitHp. rewrite Hheap, lookup_alter. case_decide as E.
    - rewrite <- E, Hst. cbn. split; [|intros _]; lia.
    - split; [lia | congruence]. }
  apply (sum_list_lower _ _ _ m); [|exact Hin|].
  - intros u _. destruct (Hcmp u) as [H _]. lia.
  - destruct (Hcmp m) as [_ H]. specialize (H eq_refl).
    unfold getUnitHp in H |- *. rewrite Hst in H |- *. lia.
Qed.

Lemma sameBattle_refl (w : World) (b : Battle) : sameBattle w b w b.
Proof. split; [reflexivity|]. split; [reflexivity|]. exists 0%nat. apply evolves_refl. Qed.

Lemma sameBattle_trans (w1 w2 w3 : World) (b1 b2 b3 : Battle) :
  sameBattle w1 b1 w2 b2 -> sameBattle w2 b2 w3 b3 -> sameBattle w1 b1 w3 b3.
Proof.
  intros (A1 & A2 & n & A3) (B1 & B2 & m & B3). split; [congruence|]. split; [congruence|].
  exists (n + m)%nat. eapply evolves_trans; eassumption.
Qed.

Lemma sameBattle_execute (w : World) (b : Battle) (c : Command) :
  sameBattle w b (fst (executeCommand w b c)) (snd (executeCommand w b c)).
Proof.
  destruct (executeCommand_frame w b c) as [H1 H2]. split; [exact H1|]. split; [exact H2|].
  exists 2%nat. apply executeCommand_evolves.
Qed.

Lemma sameBattle_advance (w : World) (b : Battle) : sameBattle w b w (advanceTurn w b).
Proof.
  split; [reflexivity|]. split; [reflexivity|]. exists 1%nat. apply advanceTurn_evolves.
Qed.

Lemma sameBattle_members (w w' : World) (b b' : Battle) :
  sameBattle w b w' b' ->
  unitsAt w' (membersOf w' b') = unitsAt w (membersOf w b)
  /\ unitsAt w' (enemies b') = unitsAt w (enemies b)
  /\ (length (turnOrder b') <= length (turnOrder b))%nat.
Proof.
  intros (H1 & H2 & n & H3 & _ & H4 & H5 & _).
  rewrite (membersOf_frame _ _ _ _ H2 H3), !(unitsAt_frame _ _ _ H1), H4.
  split; [reflexivity|]. split; [reflexivity|]. apply sublist_length, H5.
Qed.

Lemma partyHp_advance (w : World) (b : Battle) : partyHp w (advanceTurn w b) = partyHp w b.
Proof.
  unfold partyHp. destruct (sameBattle_members _ _ _ _ (sameBattle_advance w b)) as [-> _].
  reflexivity.
Qed.

Lemma runEnemyTurns_enough (n : nat) :
  forall w b,
    (partyHp w b + length (turnOrder b) < n)%nat ->
    uniqueIds w (membersOf w b) ->
    exists w' b', runEnemyTurns n w b = Some (w', b')
                  /\ enemyTurnsOver w' b' /\ sameBattle w b w' b'.
Proof.
  induction n as [|n IH]; intros w b Hmu Hu; [lia|].
  cbn [runEnemyTurns]. unfold enemyTurnsOver.
  case_bool_decide as Hs.
  { exists w, b. split; [reflexivity|]. split; [auto | apply sameBattle_refl]. }
  assert (state b = in_progress) as Hs' by (destruct (state b); congruence).
  destruct (activeRef b) as [r|] eqn:Hr;
    [|exists w, b; split; [reflexivity|]; split; [auto | apply sameBattle_refl]].
  case_bool_decide as Hk.
  { exists w, b. split; [reflexivity|]. split; [|apply sameBattle_refl].
    right. right. left. exists r. split; [exact Hr|]. destruct (kind r); congruence. }
  assert (kind r = enemy) as Hk' by (destruct (kind r); congruence).
  destruct (find (hasId (refId r)) (unitsAt w (enemies b))) as [e|] eqn:He.
  - destruct (JS.truthy (findFirstAlivePartyMemberId w b)) eqn:Ht; cbn [negb];
      [|exists w, b; split; [reflexivity|]; split; [auto | apply sameBattle_refl]].
    unfold findFirstAlivePartyMemberId in *.
    destruct (find (isAlive w) (unitsAt w (membersOf w b))) as [m|] eqn:Hm; [|discriminate].
    cbn [fmap option_fmap option_map].
    change {| cmdType := "ability"; sourceId := Some (unitId e);
              targetId := Some (unitId m); abilityId := Some "basic_attack" |}
      with (enemyAttack (unitId e) (unitId m)).
    pose proof (enemy_attack_hurts w b r e m Hs' Hr He Hu Hm) as Hhurt.
    pose proof (sameBattle_execute w b (enemyAttack (unitId e) (unitId m))) as Hsame.
    destruct (executeCommand w b (enemyAttack (unitId e) (unitId m))) as [w1 b1].
    cbn [fst snd] in Hhurt, Hsame.
    pose proof (sameBattle_trans _ _ _ _ _ _ Hsame (sameBattle_advance w1 b1)) as Hsame2.
    destruct (sameBattle_members _ _ _ _ Hsame2) as (Hm2 & _ & Hl2).
    destruct (IH w1 (advanceTurn w1 b1)) as (w' & b' & Hrun & Hover & Hsame3).
    + rewrite partyHp_advance. lia.
    + unfold uniqueIds. rewrite Hm2. exact Hu.
    + exists w', b'. split; [exact Hrun|]. split; [exact Hover|].
      eapply sameBattle_trans; eassumption.
  - pose proof (advanceTurn_drops_missing w b r Hs' Hr Hk' He) as Hdrop.
    destruct (sameBattle_members _ _ _ _ (sameBattle_advance w b)) as (Hm2 & _ & _).
    destruct (IH w (advanceTurn w b)) as (w' & b' & Hrun & Hover & Hsame3).
    + rewrite partyHp_advance. lia.
    + unfold uniqueIds. rewrite Hm2. exact Hu.
    + exists w', b'. split; [exact Hrun|]. split; [exact Hover|].
      eapply sameBattle_trans; [apply sameBattle_advance | eassumption].
Qed.

(** X11.  The loop of runEnemyTurns ends.  When the party members carry
    distinct ids, it exits after at most (hit points the party has left +
    length of the schedule + 1) tests of its condition: each iteration either
    drops a stale enemy reference from the schedule or takes at least one hit
    point off the first living party member.  It exits with the battle over,
    on a party member's turn, or with nobody left to attack, and it never
    replaces a unit, the party, the battle's id or its enemies. *)
Theorem runEnemyTurns_terminates (w : World) (b : Battle) :
  uniqueIds w (membersOf w b) ->
  exists w' b',
    (forall fuel, (partyHp w b + length (turnOrder b) < fuel)%nat ->
                  runEnemyTurns fuel w b = Some (w', b'))
    /\ enemyTurnsOver w' b'
    /\ sameBattle w b w' b'.
Proof.
  intros Hu.
  destruct (runEnemyTurns_enough (S (partyHp w b + length (turnOrder b))) w b)
    as (w' & b' & Hrun & Hover & Hsame); [lia | exact Hu |].
  exists w', b'. split; [|split; assumption].
  intros fuel Hf. eapply runEnemyTurns_fuel_le; [|exact Hrun]. lia.
Qed.

(** The attack scenario once the hero has passed: the goblin strikes the
    hero down, and the loop exits on the defeat. *)
Lemma runEnemyTurns_terminates_witness :
  let b := advanceTurn (fst Scenario.attack) (snd Scenario.attack) in
  exists w' b',
    runEnemyTurns 20 (fst Scenario.attack) b = Some (w', b')
    /\ enemyTurnsOver w' b'.
Proof.
  destruct (runEnemyTurns_terminates (fst Scenario.attack)
              (advanceTurn (fst Scenario.attack) (snd Scenario.attack)))
    as (w' & b' & Hrun & Hover & _).
  - apply (bool_decide_unpack _). vm_compute. exact I.
  - exists w', b'. split; [|exact Hover]. apply Hrun. vm_compute. lia.
Defined.

(** One iteration on the battle of the twins: the goblin strikes the fallen
    twin, whom the shared id resolves to, and the turn comes back to it. *)
Lemma twin_iteration (n : nat) (l : list string) :
  runEnemyTurns (S n) (fst twinStart) (twinBattle l)
  = runEnemyTurns n (fst twinStart)
      (twinBattle (l ++ ["Goblin used Attack on Fallen -14 HP."])%list).
Proof. reflexivity. Qed.

(** X21.  The condition on the ids cannot be dropped: runEnemyTurns does not
    end on every battle.  When two party members share an id, the first of them
    fallen and the second alive, and a living enemy is on turn, the enemy's
    attack is aimed at the id of the living twin, resolves to the fallen one
    and changes nothing but the log; advanceTurn skips the twins' entry and
    returns the turn to the enemy.  The battle stays in progress and the loop
    never exits, whatever the number of iterations allowed. *)
Theorem runEnemyTurns_may_not_end :
  exists (w : World) (b : Battle),
    state b = in_progress
    /\ ~ uniqueIds w (membersOf w b)
    /\ forall fuel, runEnemyTurns fuel w b = None.
Proof.
  exists (fst twinStart), (twinBattle (log (snd twinStart))).
  split; [reflexivity|]. split.
  - intros H. apply (bool_decide_pack _) in H. vm_compute in H. exact H.
  - intros fuel. generalize (log (snd twinStart)).
    induction fuel as [|n IH]; intros l; [reflexivity|].
    rewrite twin_iteration. apply IH.
Qed.

(** ** The command handler *)










(** X13.  A command the validator turns down has no effect but one log
    line: the handler leaves the store as it is and appends
    "Invalid command: <reason>." to the battle's log, with the validator's
    reason, whatever the fuel.  A command sent without a sourceId is taken
    to come from the active unit, so it is never turned down for its
    source. *)
Theorem onBattleCommand_rejected (w : World) (b : Battle) (player : string)
    (cmd : Message) (fuel : nat) :
  ok (validateBattleCommand w b player (normalized b cmd)) = false ->
  exists why,
    why ∈ validatorReasons
    /\ validateBattleCommand w b player (normalized b cmd) = rejected why
    /\ onBattleCommand fuel w b player cmd
       = Some (w, log_push ("Invalid command: " ++ why ++ ".") b)
    /\ (msgSourceId cmd = None -> why ≠ "invalid source for active turn").
Proof.
  intros Hok.
  destruct (validateBattleCommand_verdict w b player (normalized b cmd))
    as [E|(why & Hin & E)]; [rewrite E in Hok; discriminate|].
  exists why. split; [exact Hin|]. split; [exact E|]. split.
  - unfold onBattleCommand. rewrite E. reflexivity.
  - intros Hnone Hwhy. subst why. revert E. unfold validateBattleCommand, normalized.
    cbn [sourceId]. rewrite Hnone.
    destruct (bool_decide (state b ≠ in_progress)); [discriminate|].
    destruct (bool_decide (length (turnOrder b) = 0%nat)); [discriminate|].
    destruct (activeRef b) as [r|]; [|discriminate]. cbn [fmap option_fmap option_map].
    destruct (bool_decide (kind r ≠ party)); [discriminate|].
    destruct (getPartyForBattle w (battleId b)) as [p|]; [|discriminate].
    destruct (bool_decide (playerId p ≠ player)); [discriminate|].
    rewrite bool_decide_eq_false_2 by (intros H; apply H; reflexivity).
    repeat case_match; discriminate.
Qed.

(** Another player's command on the attack scenario. *)
Lemma onBattleCommand_rejected_witness :
  onBattleCommand 0 (fst Scenario.attack) (snd Scenario.attack) "player2"
    {| msgType := None; msgSourceId := None; msgTargetId := Some "e1";
       msgAbilityId := Some "basic_attack" |}
  = Some (fst Scenario.attack,
          log_push "Invalid command: battle not owned by player." (snd Scenario.attack)).
Proof.
  destruct (onBattleCommand_rejected (fst Scenario.attack) (snd Scenario.attack) "player2"
              {| msgType := None; msgSourceId := None; msgTargetId := Some "e1";
                 msgAbilityId := Some "basic_attack" |} 0)
    as (why & _ & E & Hrun & _).
  - vm_compute. reflexivity.
  - vm_compute in E. injection E as <-. exact Hrun.
Defined.

(** ** The catalog, once more *)

Lemma ABILITIES_BY_ID_listed (i : string) (a : Ability) :
  ABILITIES_BY_ID !! i = Some a -> a ∈ ABILITIES.
Proof.
  unfold ABILITIES_BY_ID, ABILITIES. cbn [foldl]. intros H.
  repeat (rewrite lookup_insert in H; case_decide;
          [ inversion H; subst; apply list_elem_of_In; vm_compute; tauto |]).
  rewrite lookup_empty in H. discriminate.
Qed.

(** X20.  The ability table loses nothing: the ids of ABILITIES are pairwise
    distinct, so an ability belongs to the list exactly when ABILITIES_BY_ID
    returns it for its own id.  Every listed ability has a non-negative MP
    cost and power and an element of ELEMENTS; the self-target abilities
    have power 0 and no status effect; and only enemy_single abilities carry
    a status effect. *)
Theorem ABILITIES_BY_ID_lossless (a : Ability) :
  NoDup (map a_id ABILITIES)
  /\ (a ∈ ABILITIES <-> ABILITIES_BY_ID !! a_id a = Some a)
  /\ (a ∈ ABILITIES ->
      (0 <= mpCost a)%Z /\ (0 <= power a)%Z /\ a_element a ∈ ELEMENTS.keys
      /\ (targetType a = self_target -> power a = 0%Z /\ statusEffect a = None)
      /\ (is_Some (statusEffect a) -> targetType a = enemy_single)).
Proof.
  split; [apply (bool_decide_unpack _); vm_compute; exact I|]. split; [split|].
  - intros H. unfold ABILITIES in H.
    repeat (apply elem_of_cons in H as [->|H]; [vm_compute; reflexivity|]). inversion H.
  - apply ABILITIES_BY_ID_listed.
  - intros H. unfold ABILITIES in H.
    repeat (apply elem_of_cons in H as [->|H];
            [cbn; split; [lia|]; split; [lia|];
             split; [apply (bool_decide_unpack _); vm_compute; exact I|];
             split; [intros E; first [discriminate | split; reflexivity]
                    | intros [s E]; first [discriminate | reflexivity]]|]).
    inversion H.
Qed.

(** ** story.js: progress *)

Lemma advanceObjectives_progress (ev : Story.Event) (count : Z) (objs : list Story.Objective) :
  forall (i : nat) (prog : gmap nat Z) (ch : bool) (j : nat),
    default 0%Z ((Story.advanceObjectives ev count i objs prog ch).1 !! j)
    = match (if bool_decide (i <= j)%nat then objs !! (j - i)%nat else None) with
      | Some o => if concerns ev o
                  then Z.min (Story.requiredCount o) (default 0%Z (prog !! j) + count)
                  else default 0%Z (prog !! j)
      | None => default 0%Z (prog !! j)
      end.
Proof.
  induction objs as [|o rest IH]; intros i prog ch j.
  - cbn. case_bool_decide; [rewrite lookup_nil|]; reflexivity.
  - cbn [Story.advanceObjectives].
    assert (forall prog' ch',
              (forall k, k ≠ i -> prog' !! k = prog !! k) ->
              default 0%Z (prog' !! i)
              = (if concerns ev o
                 then Z.min (Story.requiredCount o) (default 0%Z (prog !! i) + count)
                 else default 0%Z (prog !! i)) ->
              default 0%Z ((Story.advanceObjectives ev count (S i) rest prog' ch').1 !! j)
              = match (if bool_decide (i <= j)%nat then (o :: rest) !! (j - i)%nat else None) with
                | Some o => if concerns ev o
                            then Z.min (Story.requiredCount o) (default 0%Z (prog !! j) + count)
                            else default 0%Z (prog !! j)
                | None => default 0%Z (prog !! j)
                end) as K.
    { intros prog' ch' Hother Hi. rewrite IH.
      destruct (decide (j = i)) as [->|Hne].
      - rewrite bool_decide_eq_false_2 by lia. rewrite bool_decide_eq_true_2 by lia.
        rewrite Nat.sub_diag. cbn. exact Hi.
      - rewrite (Hother j Hne). case_bool_decide as E1.
        + rewrite bool_decide_eq_true_2 by lia.
          replace (j - i)%nat with (S (j - S i)) by lia. reflexivity.
        + case_bool_decide as E2; [|reflexivity]. exfalso. lia. }
    unfold concerns in *.
    destruct (String.eqb (Story.objType o) (Story.evType ev)); cbn [negb andb];
      [|apply K; [auto | reflexivity]].
    destruct (String.eqb (Story.objTarget o) (Story.evTarget ev)); cbn [negb];
      [|apply K; [auto | reflexivity]].
    destruct (decide (Z.min (Story.requiredCount o) (default 0%Z (prog !! i) + count)
                      ≠ default 0%Z (prog !! i))) as [En|En].
    + rewrite (bool_decide_eq_true_2 _ En). apply K.
      * intros k Hk. rewrite lookup_insert_ne by congruence.
        destruct (prog !! i); [reflexivity|]. rewrite lookup_insert_ne by congruence.
        reflexivity.
      * rewrite lookup_insert_eq. reflexivity.
    + rewrite (bool_decide_eq_false_2 _ En). apply K.
      * intros k Hk. destruct (prog !! i); [reflexivity|].
        rewrite lookup_insert_ne by congruence. reflexivity.
      * apply dec_stable in En. cbn [andb]. rewrite En.
        destruct (prog !! i) eqn:E; [rewrite E; reflexivity|].
        rewrite lookup_insert_eq. reflexivity.
Qed.

Lemma freshProgress_zero (q : Story.Quest) (j : nat) :
  default 0%Z (Story.freshProgress q !! j) = 0%Z.
Proof.
  unfold Story.freshProgress.
  destruct (map_seq 0 (replicate (length (Story.objectives q)) 0%Z) !! j) as [z|] eqn:E;
    [|reflexivity].
  apply lookup_map_seq_Some in E as [_ E]. apply lookup_replicate in E as [-> _].
  reflexivity.
Qed.

Lemma ensureProgressForQuest_progressOf (s : Story.PlayerState) (i qid : string) (j : nat) :
  progressOf (Story.ensureProgressForQuest s i) qid j = progressOf s qid j.
Proof.
  unfold Story.ensureProgressForQuest, progressOf.
  destruct (Story.progressByQuestId s !! i) eqn:E; [reflexivity|].
  destruct (Story.QUESTS_BY_ID !! i) as [base|]; [|reflexivity].
  cbn. rewrite lookup_insert. case_decide as Eq; [|reflexivity].
  subst qid. rewrite E. cbn. apply freshProgress_zero.
Qed.

Lemma activateNext_progressOf (acc : Story.PlayerState * list string) (n qid : string)
    (j : nat) :
  progressOf (Story.activateNext acc n).1 qid j = progressOf acc.1 qid j.
Proof.
  destruct acc as [s activated]. unfold Story.activateNext.
  destruct (negb (JS.trim_truthy n)); [reflexivity|].
  destruct (Story.QUESTS_BY_ID !! n); [|reflexivity].
  destruct (Story.isQuestCompleted s n); [reflexivity|].
  destruct (Story.isQuestActive s n); [reflexivity|].
  destruct (negb (Story.prerequisitesMet s q)); [reflexivity|].
  cbn [fst]. rewrite ensureProgressForQuest_progressOf. reflexivity.
Qed.

Lemma activateNext_fold_progressOf (l : list string) :
  forall (acc : Story.PlayerState * list string) (qid : string) (j : nat),
    progressOf (foldl Story.activateNext acc l).1 qid j = progressOf acc.1 qid j.
Proof.
  induction l as [|n l IH]; intros acc qid j; [reflexivity|].
  cbn [foldl]. rewrite IH. apply activateNext_progressOf.
Qed.

(** One iteration of the outer loop advances the progress of the quest it
    visits and of no other. *)
Lemma updateQuest_progressOf (ev : Story.Event) (acc : Story.Acc) (i qid : string) (j : nat) :
  progressOf (stateOf (Story.updateQuest ev (countOf ev) acc i)) qid j
  = if bool_decide (qid = i)
    then progressAfter [i] ev i j (progressOf (stateOf acc) i j)
    else progressOf (stateOf acc) qid j.
Proof.
  destruct acc as [[[s completed] activated] ch]. unfold Story.updateQuest, stateOf.
  cbn [fst]. unfold progressAfter.
  destruct (Story.QUESTS_BY_ID !! i) as [quest|] eqn:Eq.
  2:{ cbn [fst]. case_bool_decide; [subst qid|]; reflexivity. }
  set (s1 := Story.ensureProgressForQuest s i).
  pose proof (advanceObjectives_progress ev (countOf ev) (Story.objectives quest) 0
                (default ∅ (Story.progressByQuestId s1 !! i)) ch j) as Hadv.
  destruct (Story.advanceObjectives ev (countOf ev) 0 (Story.objectives quest) _ ch)
    as [prog ch1]. cbn [fst] in Hadv.
  rewrite bool_decide_eq_true_2 in Hadv by lia. rewrite Nat.sub_0_r in Hadv.
  set (s2 := Story.with_progress (<[i := prog]> (Story.progressByQuestId s1)) s1).
  assert (progressOf s2 qid j
          = if bool_decide (qid = i)
            then match Story.objectives quest !! j with
                 | Some o => if bool_decide (i ∈ [i]) && concerns ev o
                             then Z.min (Story.requiredCount o)
                                    (progressOf s i j + countOf ev)
                             else progressOf s i j
                 | None => progressOf s i j
                 end
            else progressOf s qid j) as H2.
  { unfold progressOf at 1. subst s2. cbn [Story.progressByQuestId Story.with_progress].
    rewrite lookup_insert. case_bool_decide as E.
    - subst qid. rewrite decide_True by reflexivity. cbn. rewrite Hadv.
      rewrite (bool_decide_eq_true_2 (i ∈ [i])) by (apply list_elem_of_singleton; reflexivity).
      cbn [andb].
      assert (default 0%Z (default ∅ (Story.progressByQuestId s1 !! i) !! j)
              = progressOf s i j) as ->.
      { rewrite <- (ensureProgressForQuest_progressOf s i i j). fold s1. unfold progressOf.
        destruct (Story.progressByQuestId s1 !! i); [reflexivity|].
        cbn. rewrite lookup_empty. reflexivity. }
      reflexivity.
    - rewrite decide_False by congruence.
      rewrite <- (ensureProgressForQuest_progressOf s i qid j). reflexivity. }
  destruct (Story.questIsComplete quest prog).
  - match goal with
    | |- context [foldl Story.activateNext ?a ?l] =>
        pose proof (activateNext_fold_progressOf l a qid j) as Hfold;
        destruct (foldl Story.activateNext a l) as [s6 activated']
    end.
    cbn [fst] in Hfold |- *. rewrite Hfold.
    assert (forall st, progressOf (Story.applyRewards
                                     (Story.with_active
                                        (List.filter (fun j0 => negb (String.eqb j0 i))
                                           (Story.activeQuestIds st)) st)
                                     (Story.rewards quest)) qid j
                       = progressOf st qid j) as Hsame by reflexivity.
    rewrite Hsame. destruct (Story.isQuestCompleted s2 i); exact H2.
  - cbn [fst]. exact H2.
Qed.

Lemma progressAfter_absent (l : list string) (ev : Story.Event) (i : string) (j : nat) (p : Z) :
  i ∉ l -> progressAfter l ev i j p = p.
Proof.
  intros H. unfold progressAfter. rewrite (bool_decide_eq_false_2 _ H).
  destruct (Story.QUESTS_BY_ID !! i) as [q|]; [|reflexivity].
  destruct (Story.objectives q !! j); reflexivity.
Qed.

Lemma progressAfter_present (l l' : list string) (ev : Story.Event) (i : string) (j : nat)
    (p : Z) :
  i ∈ l -> i ∈ l' -> progressAfter l ev i j p = progressAfter l' ev i j p.
Proof.
  intros H H'. unfold progressAfter.
  rewrite (bool_decide_eq_true_2 _ H), (bool_decide_eq_true_2 _ H'). reflexivity.
Qed.

Lemma updateQuest_fold_progressOf (ev : Story.Event) (l : list string) :
  NoDup l ->
  forall (acc : Story.Acc) (qid : string) (j : nat),
    progressOf (stateOf (foldl (Story.updateQuest ev (countOf ev)) acc l)) qid j
    = progressAfter l ev qid j (progressOf (stateOf acc) qid j).
Proof.
  induction l as [|x rest IH]; intros Hnd acc qid j.
  - cbn [foldl]. rewrite progressAfter_absent by apply not_elem_of_nil. reflexivity.
  - apply NoDup_cons in Hnd as [Hx Hrest]. cbn [foldl].
    rewrite (IH Hrest), updateQuest_progressOf. case_bool_decide as E.
    + subst qid. rewrite progressAfter_absent by exact Hx.
      apply progressAfter_present; [apply list_elem_of_singleton; reflexivity | left].
    + unfold progressAfter.
      assert (bool_decide (qid ∈ rest) = bool_decide (qid ∈ x :: rest)) as ->; [|reflexivity].
      apply bool_decide_ext. rewrite elem_of_cons. intuition congruence.
Qed.

Lemma countOf_positive (ev : Story.Event) : (1 <= countOf ev)%Z.
Proof.
  unfold countOf. destruct (Story.evCount ev) as [c|]; [|lia].
  destruct (0 <? c)%Z eqn:E; [apply Z.ltb_lt in E|]; lia.
Qed.

(** X14.  The effect of one event on the quest progress.  When the list of
    active quests has no duplicate, updateQuestProgress advances exactly the
    objectives of active, known quests whose type and target are the
    event's: each by the event's count (1 unless a positive count is given),
    capped at the objective's required count; every other progress value, of
    any quest, reads as before.  So a progress value within its required
    count never decreases and never passes it. *)
Theorem updateQuestProgress_progress (s : Story.PlayerState) (ev : Story.Event)
    (i : string) (j : nat) :
  NoDup (Story.activeQuestIds s) ->
  let s' := (Story.updateQuestProgress s ev).1 in
  progressOf s' i j = progressAfter (Story.activeQuestIds s) ev i j (progressOf s i j)
  /\ forall q o, Story.QUESTS_BY_ID !! i = Some q -> Story.objectives q !! j = Some o ->
       (progressOf s i j <= Story.requiredCount o)%Z ->
       (progressOf s i j <= progressOf s' i j <= Story.requiredCount o)%Z.
Proof.
  intros Hnd s'.
  assert (progressOf s' i j
          = progressAfter (Story.activeQuestIds s) ev i j (progressOf s i j)) as H.
  { subst s'. unfold Story.updateQuestProgress. fold (countOf ev).
    pose proof (updateQuest_fold_progressOf ev (Story.activeQuestIds s) Hnd
                  (s, [], [], false) i j) as K.
    destruct (foldl _ _ _) as [[[s1 completed] activated] ch]. exact K. }
  split; [exact H|]. intros q o Hq Ho Hle. rewrite H. unfold progressAfter.
  rewrite Hq, Ho. pose proof (countOf_positive ev).
  destruct (bool_decide (i ∈ Story.activeQuestIds s) && concerns ev o); lia.
Qed.

(** A new game: the visit to Dawnrise advances the first objective of the
    first quest from 0 to 1. *)
Lemma updateQuestProgress_progress_witness :
  progressOf (Story.updateQuestProgress newGame visitDawnrise).1
    "act1_investigate_dawnrise" 0 = 1%Z.
Proof.
  destruct (updateQuestProgress_progress newGame visitDawnrise
              "act1_investigate_dawnrise" 0) as [H _].
  - apply (bool_decide_unpack _). vm_compute. exact I.
  - rewrite H. vm_compute. reflexivity.
Defined.

(** ** story.js: the quest lists *)

Lemma prerequisitesMet_completed (s s' : Story.PlayerState) (q : Story.Quest) :
  Story.completedQuestIds s' = Story.completedQuestIds s ->
  Story.prerequisitesMet s' q = Story.prerequisitesMet s q.
Proof.
  intros H. unfold Story.prerequisitesMet, Story.isQuestCompleted. rewrite H. reflexivity.
Qed.

Lemma ensureProgressForQuest_lists (s : Story.PlayerState) (i : string) :
  Story.activeQuestIds (Story.ensureProgressForQuest s i) = Story.activeQuestIds s
  /\ Story.completedQuestIds (Story.ensureProgressForQuest s i) = Story.completedQuestIds s
  /\ purse (Story.ensureProgressForQuest s i) = purse s.
Proof.
  unfold Story.ensureProgressForQuest. destruct (Story.progressByQuestId s !! i); [auto|].
  destruct (Story.QUESTS_BY_ID !! i); auto.
Qed.

(** The loop over nextQuestIds: it appends to the active list the quests it
    activates, each known, neither completed nor active before, with its
    prerequisites completed; nothing else of the lists or the purse moves. *)
Lemma activateNext_fold (l : list string) :
  forall (s : Story.PlayerState) (activated : list string),
    exists N,
      (foldl Story.activateNext (s, activated) l).2 = (activated ++ N)%list
      /\ Story.activeQuestIds (foldl Story.activateNext (s, activated) l).1
         = (Story.activeQuestIds s ++ N)%list
      /\ Story.completedQuestIds (foldl Story.activateNext (s, activated) l).1
         = Story.completedQuestIds s
      /\ purse (foldl Story.activateNext (s, activated) l).1 = purse s
      /\ (NoDup (Story.activeQuestIds s) -> NoDup (Story.activeQuestIds s ++ N)%list)
      /\ forall n, n ∈ N ->
           (n ∉ Story.completedQuestIds s) /\ (n ∈ l)
           /\ exists q, Story.QUESTS_BY_ID !! n = Some q /\ Story.prerequisitesMet s q = true.
Proof.
  induction l as [|n l IH]; intros s activated.
  - exists []. cbn. rewrite !app_nil_r.
    split; [reflexivity|]. split; [reflexivity|]. split; [reflexivity|].
    split; [reflexivity|]. split; [auto|]. intros m Hm. inversion Hm.
  - cbn [foldl].
    assert (Story.activateNext (s, activated) n = (s, activated)
            \/ ((n ∉ Story.completedQuestIds s) /\ (n ∉ Story.activeQuestIds s)
                /\ (exists q, Story.QUESTS_BY_ID !! n = Some q
                              /\ Story.prerequisitesMet s q = true)
                /\ Story.activateNext (s, activated) n
                   = (Story.ensureProgressForQuest
                        (Story.with_active (Story.activeQuestIds s ++ [n])%list s) n,
                      (activated ++ [n])%list))) as [E|(H1 & H2 & H3 & E)].
    { unfold Story.activateNext. destruct (negb (JS.trim_truthy n)); [auto|].
      destruct (Story.QUESTS_BY_ID !! n) as [q|]; [|auto].
      unfold Story.isQuestCompleted, Story.isQuestActive.
      case_bool_decide as E1; [auto|]. case_bool_decide as E2; [auto|].
      destruct (Story.prerequisitesMet s q) eqn:E3; cbn [negb]; [|auto].
      right. eauto 10. }
    + rewrite E. destruct (IH s activated) as (N & A1 & A2 & A3 & A4 & A5 & A6).
      exists N. repeat (split; [assumption|]). intros m Hm.
      destruct (A6 m Hm) as (B1 & B2 & B3). split; [exact B1|]. split; [right; exact B2|].
      exact B3.
    + rewrite E. set (s1 := Story.ensureProgressForQuest _ n).
      destruct (ensureProgressForQuest_lists
                  (Story.with_active (Story.activeQuestIds s ++ [n])%list s) n)
        as (L1 & L2 & L3). fold s1 in L1, L2, L3. cbn in L1, L2.
      destruct (IH s1 (activated ++ [n])%list) as (N & A1 & A2 & A3 & A4 & A5 & A6).
      exists (n :: N). rewrite A1, A2, A3, A4, L1, L2, L3, <- !app_assoc. cbn.
      split; [reflexivity|]. split; [reflexivity|]. split; [reflexivity|].
      split; [reflexivity|]. split.
      * intros Hnd. rewrite L1, <- app_assoc in A5. cbn in A5. apply A5.
        apply NoDup_app. split; [exact Hnd|]. split.
        -- intros x Hx Hx'. apply list_elem_of_singleton in Hx'. subst x. exact (H2 Hx).
        -- apply NoDup_singleton.
      * intros m Hm. apply elem_of_cons in Hm as [->|Hm].
        -- split; [exact H1|]. split; [left | exact H3].
        -- destruct (A6 m Hm) as (B1 & B2 & q & B3 & B4). rewrite L2 in B1.
           split; [exact B1|]. split; [right; exact B2|]. exists q. split; [exact B3|].
           rewrite <- B4. symmetry. apply prerequisitesMet_completed. exact L2.
Qed.

Lemma applyRewards_purse (s1 s2 : Story.PlayerState) (r : Story.Rewards) :
  purse s1 = purse s2 -> purse (Story.applyRewards s1 r) = purse (Story.applyRewards s2 r).
Proof.
  unfold purse. intros [= H1 H2 H3]. cbn. rewrite H1, H2, H3. reflexivity.
Qed.

Lemma grant_purse (s1 s2 : Story.PlayerState) (i : string) :
  purse s1 = purse s2 -> purse (grant s1 i) = purse (grant s2 i).
Proof.
  intros H. unfold grant. destruct (Story.QUESTS_BY_ID !! i); [|exact H].
  apply applyRewards_purse, H.
Qed.

(** One iteration of the outer loop, as far as the lists and the purse go:
    either nothing moves, or quest [i] is completed. *)
Lemma updateQuest_lists (ev : Story.Event) (count : Z) (s : Story.PlayerState)
    (C A : list string) (ch : bool) (i : string) :
  let r := Story.updateQuest ev count (s, C, A, ch) i in
  (Story.activeQuestIds (stateOf r) = Story.activeQuestIds s
   /\ Story.completedQuestIds (stateOf r) = Story.completedQuestIds s
   /\ purse (stateOf r) = purse s
   /\ r.1.1.2 = C /\ r.1.2 = A)
  \/ exists N,
       Story.activeQuestIds (stateOf r)
       = (List.filter (fun j => negb (String.eqb j i)) (Story.activeQuestIds s) ++ N)%list
       /\ Story.completedQuestIds (stateOf r)
          = (if bool_decide (i ∈ Story.completedQuestIds s) then Story.completedQuestIds s
             else (Story.completedQuestIds s ++ [i])%list)
       /\ purse (stateOf r) = purse (grant s i)
       /\ r.1.1.2 = (C ++ [i])%list /\ r.1.2 = (A ++ N)%list /\ r.2 = true
       /\ (NoDup (List.filter (fun j => negb (String.eqb j i)) (Story.activeQuestIds s)) ->
           NoDup (List.filter (fun j => negb (String.eqb j i)) (Story.activeQuestIds s)
                  ++ N)%list)
       /\ forall n, n ∈ N ->
            (n ∉ Story.completedQuestIds (stateOf r))
            /\ exists q, Story.QUESTS_BY_ID !! n = Some q
                         /\ Story.prerequisitesMet (stateOf r) q = true.
Proof.
  intros r. subst r. unfold Story.updateQuest, stateOf, grant.
  destruct (Story.QUESTS_BY_ID !! i) as [quest|] eqn:Eq; [|left; cbn; auto].
  destruct (ensureProgressForQuest_lists s i) as (L1 & L2 & L3).
  set (s1 := Story.ensureProgressForQuest s i) in *.
  destruct (Story.advanceObjectives ev count 0 (Story.objectives quest) _ ch) as [prog ch1].
  set (s2 := Story.with_progress (<[i := prog]> (Story.progressByQuestId s1)) s1).
  destruct (Story.questIsComplete quest prog); [|left; cbn; auto].
  right.
  set (s3 := if Story.isQuestCompleted s2 i then s2
             else Story.with_completed (Story.completedQuestIds s2 ++ [i])%list s2).
  set (s4 := Story.with_active
               (List.filter (fun j => negb (String.eqb j i)) (Story.activeQuestIds s3)) s3).
  set (s5 := Story.applyRewards s4 (Story.rewards quest)).
  assert (Story.activeQuestIds s3 = Story.activeQuestIds s) as A3
    by (unfold s3; destruct (Story.isQuestCompleted s2 i); exact L1).
  assert (Story.completedQuestIds s3
          = if bool_decide (i ∈ Story.completedQuestIds s) then Story.completedQuestIds s
            else (Story.completedQuestIds s ++ [i])%list) as C3.
  { unfold s3, Story.isQuestCompleted.
    change (Story.completedQuestIds s2) with (Story.completedQuestIds s1).
    rewrite L2. destruct (bool_decide (i ∈ Story.completedQuestIds s)); [exact L2|].
    reflexivity. }
  assert (purse s3 = purse s) as P3
    by (unfold s3; destruct (Story.isQuestCompleted s2 i); exact L3).
  assert (purse s5 = purse (Story.applyRewards s (Story.rewards quest))) as P5
    by (apply applyRewards_purse; exact P3).
  destruct (activateNext_fold (Story.nextQuestIds quest) s5 A)
    as (N & F1 & F2 & F3 & F4 & F5 & F6).
  destruct (foldl Story.activateNext (s5, A) (Story.nextQuestIds quest)) as [s6 A'].
  cbn [fst snd] in *. exists N.
  change (Story.activeQuestIds s5)
    with (List.filter (fun j => negb (String.eqb j i)) (Story.activeQuestIds s3)) in F2, F5.
  change (Story.completedQuestIds s5) with (Story.completedQuestIds s3) in F3, F6.
  rewrite A3 in F2, F5. rewrite F2, F3, F4, C3, P5.
  repeat (split; [first [reflexivity | assumption]|]).
  intros n Hn. destruct (F6 n Hn) as (B1 & _ & q & B2 & B3). rewrite C3 in B1.
  split; [exact B1|]. exists q. split; [exact B2|]. rewrite <- B3.
  apply prerequisitesMet_completed. exact F3.
Qed.

Lemma prerequisitesMet_mono (s s' : Story.PlayerState) (q : Story.Quest) :
  (forall i, i ∈ Story.completedQuestIds s -> i ∈ Story.completedQuestIds s') ->
  Story.prerequisitesMet s q = true -> Story.prerequisitesMet s' q = true.
Proof.
  intros Hsub. unfold Story.prerequisitesMet, Story.isQuestCompleted.
  rewrite !forallb_forall. intros H x Hx. specialize (H x Hx).
  apply bool_decide_eq_true in H. apply bool_decide_eq_true. auto.
Qed.

Lemma without_spec (c l : list string) (x : string) :
  x ∈ without c l <-> x ∈ l /\ x ∉ c.
Proof.
  unfold without. rewrite list_elem_of_In, filter_In, <- list_elem_of_In.
  rewrite negb_true_iff, bool_decide_eq_false. reflexivity.
Qed.

Lemma without_snoc (c l : list string) (i : string) :
  List.filter (fun j => negb (String.eqb j i)) (without c l) = without (c ++ [i])%list l.
Proof.
  unfold without. induction l as [|x l IH]; [reflexivity|]. cbn.
  assert (bool_decide (x ∈ (c ++ [i])%list)
          = bool_decide (x ∈ c) || String.eqb x i) as E.
  { destruct (String.eqb_spec x i) as [->|Hne].
    - rewrite orb_true_r. apply bool_decide_eq_true. apply elem_of_app. right. left.
    - rewrite orb_false_r. apply bool_decide_ext. rewrite elem_of_app, list_elem_of_singleton.
      intuition congruence. }
  rewrite E. destruct (bool_decide (x ∈ c)); cbn; [exact IH|].
  destruct (String.eqb x i); cbn; [exact IH | rewrite IH; reflexivity].
Qed.

Lemma filter_ne_absent (l : list string) (i : string) :
  i ∉ l -> List.filter (fun j => negb (String.eqb j i)) l = l.
Proof.
  induction l as [|x l IH]; intros H; [reflexivity|]. cbn.
  apply not_elem_of_cons in H as [H1 H2].
  destruct (String.eqb_spec x i) as [->|_]; [congruence|]. cbn. rewrite (IH H2). reflexivity.
Qed.

Lemma List_filter_NoDup {A : Type} (f : A -> bool) (l : list A) :
  NoDup l -> NoDup (List.filter f l).
Proof.
  induction l as [|x l IH]; intros H; [constructor|]. apply NoDup_cons in H as [H1 H2].
  cbn. destruct (f x); [|auto]. apply NoDup_cons. split; [|auto].
  intros Hx. apply H1. apply list_elem_of_In in Hx. apply filter_In in Hx as [Hx _].
  apply list_elem_of_In, Hx.
Qed.

(** The outer loop keeps the quest lists, the delta and the purse in step. *)
Lemma updateQuest_fold_lists (ev : Story.Event) (count : Z) (s : Story.PlayerState)
    (rest : list string) :
  forall (sk : Story.PlayerState) (C A : list string) (ch : bool),
    questSets sk ->
    Story.completedQuestIds sk = (Story.completedQuestIds s ++ C)%list ->
    Story.activeQuestIds sk = (without C (Story.activeQuestIds s) ++ A)%list ->
    NoDup rest ->
    (forall i, i ∈ rest -> i ∈ Story.activeQuestIds s /\ i ∉ C) ->
    (forall i, i ∈ C -> i ∈ Story.activeQuestIds s) ->
    (forall n, n ∈ A -> n ∉ Story.activeQuestIds s) ->
    purse sk = purse (foldl grant s C) ->
    (forall n, n ∈ A -> exists q, Story.QUESTS_BY_ID !! n = Some q
                                  /\ Story.prerequisitesMet sk q = true) ->
    let r := foldl (Story.updateQuest ev count) (sk, C, A, ch) rest in
    questSets (stateOf r)
    /\ Story.completedQuestIds (stateOf r) = (Story.completedQuestIds s ++ r.1.1.2)%list
    /\ Story.activeQuestIds (stateOf r) = (without r.1.1.2 (Story.activeQuestIds s) ++ r.1.2)%list
    /\ (forall i, i ∈ r.1.1.2 -> i ∈ Story.activeQuestIds s)
    /\ (forall n, n ∈ r.1.2 -> n ∉ Story.activeQuestIds s)
    /\ purse (stateOf r) = purse (foldl grant s r.1.1.2)
    /\ (forall n, n ∈ r.1.2 -> exists q, Story.QUESTS_BY_ID !! n = Some q
                                         /\ Story.prerequisitesMet (stateOf r) q = true).
Proof.
  induction rest as [|i rest IH]; intros sk C A ch Hwf Hc Ha Hnd Hrest HC HA Hp Hpre r.
  - subst r. cbn. auto 10.
  - subst r. cbn [foldl]. apply NoDup_cons in Hnd as [Hi Hnd].
    destruct (Hrest i ltac:(left)) as [Hia HiC].
    pose proof (updateQuest_lists ev count sk C A ch i) as Hstep. cbn zeta in Hstep.
    destruct (Story.updateQuest ev count (sk, C, A, ch) i) as [[[s1 C1] A1] ch1].
    unfold stateOf in Hstep. cbn [fst snd] in Hstep.
    destruct Hstep as [(E1 & E2 & E3 & -> & ->)|(N & E1 & E2 & E3 & -> & -> & _ & E4 & E5)].
    + apply IH; try assumption.
      * destruct Hwf as (W1 & W2 & W3). unfold questSets. rewrite E1, E2. auto.
      * congruence.
      * congruence.
      * intros j Hj. apply Hrest. right. exact Hj.
      * congruence.
      * intros n Hn. destruct (Hpre n Hn) as (q & Q1 & Q2). exists q. split; [exact Q1|].
        rewrite <- Q2. apply prerequisitesMet_completed. exact E2.
    + destruct Hwf as (W1 & W2 & W3).
      assert (i ∈ Story.activeQuestIds sk) as Hik.
      { rewrite Ha. apply elem_of_app. left. apply without_spec. auto. }
      pose proof (W3 i Hik) as Hnc.
      rewrite (bool_decide_eq_false_2 _ Hnc) in E2.
      assert (i ∉ A) as HiA by (intros H; exact (HA i H Hia)).
      assert (Story.activeQuestIds s1
              = (without (C ++ [i])%list (Story.activeQuestIds s) ++ (A ++ N))%list) as Ha1.
      { rewrite E1, Ha, List.filter_app, without_snoc, (filter_ne_absent A i HiA), app_assoc.
        reflexivity. }
      assert (NoDup (Story.activeQuestIds s1)) as Hnd1.
      { rewrite E1. apply E4. apply List_filter_NoDup, W1. }
      assert (Story.completedQuestIds s1 = (Story.completedQuestIds s ++ (C ++ [i]))%list)
        as Hc1 by (rewrite E2, Hc, app_assoc; reflexivity).
      assert (forall n, n ∈ N -> n ∉ Story.activeQuestIds s) as HN.
      { intros n Hn Hin. destruct (E5 n Hn) as [Hncomp _].
        destruct (decide (n ∈ (C ++ [i])%list)) as [HnC|HnC].
        - apply Hncomp. rewrite Hc1. apply elem_of_app. right. exact HnC.
        - rewrite Ha1, app_assoc in Hnd1. apply NoDup_app in Hnd1 as (_ & Hdis & _).
          apply (Hdis n); [|exact Hn]. apply elem_of_app. left. apply without_spec. auto. }
      apply IH; try assumption.
      * split; [exact Hnd1|]. split.
        -- rewrite E2. apply NoDup_app. split; [exact W2|]. split; [|apply NoDup_singleton].
           intros x Hx Hx'. apply list_elem_of_singleton in Hx'. subst x. exact (Hnc Hx).
        -- intros x Hx. rewrite E1 in Hx. apply elem_of_app in Hx as [Hx|Hx].
           ++ apply list_elem_of_In, filter_In in Hx as [Hx Hne].
              apply list_elem_of_In in Hx. rewrite E2. intros Hx'.
              apply elem_of_app in Hx' as [Hx'|Hx']; [exact (W3 x Hx Hx')|].
              apply list_elem_of_singleton in Hx'. subst x.
              rewrite String.eqb_refl in Hne. discriminate.
           ++ destruct (E5 x Hx) as [Hncomp _]. exact Hncomp.
      * intros j Hj. destruct (Hrest j ltac:(right; exact Hj)) as [H1 H2].
        split; [exact H1|]. intros H. apply elem_of_app in H as [H|H]; [exact (H2 H)|].
        apply list_elem_of_singleton in H. subst j. exact (Hi Hj).
      * intros j Hj. apply elem_of_app in Hj as [Hj|Hj]; [exact (HC j Hj)|].
        apply list_elem_of_singleton in Hj. subst j. exact Hia.
      * intros n Hn. apply elem_of_app in Hn as [Hn|Hn]; [exact (HA n Hn) | exact (HN n Hn)].
      * rewrite E3, foldl_app. cbn [foldl]. apply grant_purse, Hp.
      * intros n Hn. apply elem_of_app in Hn as [Hn|Hn].
        -- destruct (Hpre n Hn) as (q & Q1 & Q2). exists q. split; [exact Q1|].
           apply (prerequisitesMet_mono sk); [|exact Q2].
           intros x Hx. rewrite E2. apply elem_of_app. left. exact Hx.
        -- destruct (E5 n Hn) as [_ H]. exact H.
Qed.

Lemma without_nil (l : list string) : without [] l = l.
Proof.
  unfold without. induction l as [|x l IH]; [reflexivity|]. cbn.
  rewrite bool_decide_eq_false_2 by apply not_elem_of_nil. cbn. f_equal. exact IH.
Qed.

Lemma updateQuestProgress_fold (s : Story.PlayerState) (ev : Story.Event) :
  let r := foldl (Story.updateQuest ev (countOf ev)) (s, [], [], false)
             (Story.activeQuestIds s) in
  Story.updateQuestProgress s ev
  = (stateOf r, {| Story.changed := r.2; Story.deltaCompleted := r.1.1.2;
                   Story.newlyActivatedQuestIds := r.1.2;
                   Story.availableQuests :=
                     map Story.questId (Story.getAvailableQuestsForPlayer (stateOf r)) |}).
Proof.
  unfold Story.updateQuestProgress. fold (countOf ev).
  destruct (foldl _ _ _) as [[[s' C] A] ch]. reflexivity.
Qed.

Lemma updateQuestProgress_invariant (s : Story.PlayerState) (ev : Story.Event) :
  questSets s ->
  let s' := (Story.updateQuestProgress s ev).1 in
  let d := (Story.updateQuestProgress s ev).2 in
  questSets s'
  /\ Story.completedQuestIds s' = (Story.completedQuestIds s ++ Story.deltaCompleted d)%list
  /\ Story.activeQuestIds s'
     = (without (Story.deltaCompleted d) (Story.activeQuestIds s)
        ++ Story.newlyActivatedQuestIds d)%list
  /\ (forall i, i ∈ Story.deltaCompleted d -> i ∈ Story.activeQuestIds s)
  /\ (forall n, n ∈ Story.newlyActivatedQuestIds d -> n ∉ Story.activeQuestIds s)
  /\ purse s' = purse (foldl grant s (Story.deltaCompleted d))
  /\ (forall n, n ∈ Story.newlyActivatedQuestIds d ->
        exists q, Story.QUESTS_BY_ID !! n = Some q /\ Story.prerequisitesMet s' q = true).
Proof.
  intros Hwf s' d. subst s' d. rewrite updateQuestProgress_fold. cbn [fst snd Story.deltaCompleted
    Story.newlyActivatedQuestIds].
  pose proof Hwf as (W1 & W2 & W3).
  apply (updateQuest_fold_lists ev (countOf ev) s (Story.activeQuestIds s) s [] [] false).
  - exact Hwf.
  - rewrite app_nil_r. reflexivity.
  - rewrite app_nil_r, without_nil. reflexivity.
  - exact W1.
  - intros i Hi. split; [exact Hi | apply not_elem_of_nil].
  - intros i Hi. inversion Hi.
  - intros n Hn. inversion Hn.
  - reflexivity.
  - intros n Hn. inversion Hn.
Qed.

(** X15.  The quest lists under one event.  If the active and the completed
    list are duplicate-free and disjoint, they are so after
    updateQuestProgress; the completed list only grows, by the quests the
    returned delta reports as completed, each of which was active; the
    active list is the old one without those quests, followed by the newly
    activated ones, none of which was active; and every newly activated
    quest is a known quest whose prerequisites are all completed. *)
Theorem updateQuestProgress_lists (s : Story.PlayerState) (ev : Story.Event) :
  questSets s ->
  let s' := (Story.updateQuestProgress s ev).1 in
  let d := (Story.updateQuestProgress s ev).2 in
  questSets s'
  /\ Story.completedQuestIds s' = (Story.completedQuestIds s ++ Story.deltaCompleted d)%list
  /\ Story.activeQuestIds s'
     = (without (Story.deltaCompleted d) (Story.activeQuestIds s)
        ++ Story.newlyActivatedQuestIds d)%list
  /\ (forall i, i ∈ Story.deltaCompleted d -> i ∈ Story.activeQuestIds s)
  /\ (forall n, n ∈ Story.newlyActivatedQuestIds d ->
        (n ∉ Story.activeQuestIds s)
        /\ exists q, Story.QUESTS_BY_ID !! n = Some q /\ Story.prerequisitesMet s' q = true).
Proof.
  intros Hwf s' d.
  destruct (updateQuestProgress_invariant s ev Hwf) as (H1 & H2 & H3 & H4 & H5 & _ & H7).
  split; [exact H1|]. split; [exact H2|]. split; [exact H3|]. split; [exact H4|].
  intros n Hn. split; [exact (H5 n Hn) | exact (H7 n Hn)].
Qed.

Lemma questSets_after_visit : questSets (Story.updateQuestProgress newGame visitDawnrise).1.
Proof.
  split; [|split].
  - apply (bool_decide_unpack _). vm_compute. exact I.
  - apply (bool_decide_unpack _). vm_compute. exact I.
  - intros i _ H. vm_compute in H. inversion H.
Defined.

(** A new game: after the visit to Dawnrise, the talk with the elder
    completes the first quest and activates the second. *)
Lemma updateQuestProgress_lists_witness :
  let s1 := (Story.updateQuestProgress newGame visitDawnrise).1 in
  let s2 := (Story.updateQuestProgress s1 talkToElder).1 in
  Story.completedQuestIds s2 = ["act1_investigate_dawnrise"]
  /\ Story.activeQuestIds s2 = ["act1_reach_light_shrine"].
Proof.
  destruct (updateQuestProgress_lists (Story.updateQuestProgress newGame visitDawnrise).1
              talkToElder questSets_after_visit) as (_ & H2 & H3 & _).
  split; [rewrite H2 | rewrite H3]; vm_compute; reflexivity.
Defined.

Lemma grant_gold (s : Story.PlayerState) (C : list string) :
  default 0%Z (Story.gold (foldl grant s C))
  = (default 0%Z (Story.gold s) + foldr Z.add 0 (map goldOf C))%Z.
Proof.
  revert s. induction C as [|i C IH]; intros s; [cbn; lia|].
  cbn [foldl map foldr]. rewrite IH. unfold grant, goldOf.
  destruct (Story.QUESTS_BY_ID !! i) as [q|]; cbn; [|lia].
  destruct (Story.rewardGold (Story.rewards q)); cbn; lia.
Qed.

(** X16.  Rewards are granted once per completed quest.  Under the same
    condition on the quest lists, the gold, experience and inventory after
    updateQuestProgress are those obtained by applying the rewards of the
    quests the delta reports as completed, one after the other; no quest is
    reported twice; the gold rises by the sum of their gold rewards; and when
    no quest is completed the three are untouched. *)
Theorem updateQuestProgress_rewards (s : Story.PlayerState) (ev : Story.Event) :
  questSets s ->
  let s' := (Story.updateQuestProgress s ev).1 in
  let d := (Story.updateQuestProgress s ev).2 in
  NoDup (Story.deltaCompleted d)
  /\ purse s' = purse (foldl grant s (Story.deltaCompleted d))
  /\ default 0%Z (Story.gold s')
     = (default 0%Z (Story.gold s) + foldr Z.add 0 (map goldOf (Story.deltaCompleted d)))%Z
  /\ (Story.deltaCompleted d = [] -> purse s' = purse s).
Proof.
  intros Hwf s' d.
  destruct (updateQuestProgress_invariant s ev Hwf) as ((_ & H1 & _) & H2 & _ & _ & _ & H6 & _).
  fold s' d in H1, H2, H6. split.
  - rewrite H2 in H1. apply NoDup_app in H1 as (_ & _ & H1). exact H1.
  - split; [exact H6|]. split.
    + rewrite <- grant_gold. apply (f_equal (fun x => default 0%Z x.1.1)) in H6. exact H6.
    + intros E. rewrite E in H6. exact H6.
Qed.

(** A new game: completing the first quest pays 10 gold and a potion. *)
Lemma updateQuestProgress_rewards_witness :
  let s1 := (Story.updateQuestProgress newGame visitDawnrise).1 in
  let s2 := (Story.updateQuestProgress s1 talkToElder).1 in
  Story.gold s2 = Some 20%Z
  /\ Story.inventory s2 = Some {[ "potion" := 2%Z ]}.
Proof.
  destruct (updateQuestProgress_rewards (Story.updateQuestProgress newGame visitDawnrise).1
              talkToElder questSets_after_visit) as (_ & H & _).
  pose proof (f_equal (fun x => x.1.1) H) as H1.
  pose proof (f_equal (fun x => x.2) H) as H3. cbn in H1, H3.
  split; [rewrite H1 | rewrite H3].
  - vm_compute. reflexivity.
  - vm_compute. reflexivity.
Defined.

(** ** story.js: completion *)

Lemma questIsCompleteFrom_spec (objs : list Story.Objective) (prog : gmap nat Z) :
  forall k,
    Story.questIsCompleteFrom k objs prog = true <->
    forall j o, objs !! j = Some o ->
                (Story.requiredCount o <= default 0%Z (prog !! (k + j)%nat))%Z.
Proof.
  induction objs as [|o rest IH]; intros k.
  - cbn. split; [intros _ j o H; destruct j; discriminate | reflexivity].
  - cbn [Story.questIsCompleteFrom].
    destruct (default 0%Z (prog !! k) <? Story.requiredCount o)%Z eqn:E.
    + apply Z.ltb_lt in E. split; [discriminate|]. intros H.
      specialize (H 0%nat o eq_refl). rewrite Nat.add_0_r in H. lia.
    + apply Z.ltb_ge in E. rewrite IH. split.
      * intros H [|j] o' Hj.
        -- injection Hj as <-. rewrite Nat.add_0_r. exact E.
        -- replace (k + S j)%nat with (S k + j)%nat by lia. apply H. exact Hj.
      * intros H j o' Hj. replace (S k + j)%nat with (k + S j)%nat by lia.
        apply H. exact Hj.
Qed.

(** One iteration of the outer loop reports quest [i] as completed exactly
    when it is known and its objectives are met once its progress has been
    advanced. *)
Lemma updateQuest_completion (ev : Story.Event) (acc : Story.Acc) (i : string) :
  let r := Story.updateQuest ev (countOf ev) acc i in
  (r.1.1.2 = (acc.1.1.2 ++ [i])%list
   /\ exists q, Story.QUESTS_BY_ID !! i = Some q /\ objectivesMet (stateOf r) i q)
  \/ (r.1.1.2 = acc.1.1.2
      /\ forall q, Story.QUESTS_BY_ID !! i = Some q -> ~ objectivesMet (stateOf r) i q).
Proof.
  intros r.
  assert (forall j, progressOf (stateOf r) i j
                    = progressAfter [i] ev i j (progressOf (stateOf acc) i j)) as Hprog.
  { intros j. subst r. rewrite updateQuest_progressOf.
    rewrite bool_decide_eq_true_2 by reflexivity. reflexivity. }
  destruct acc as [[[s C] A] ch]. unfold stateOf in *. cbn [fst snd] in *.
  subst r. revert Hprog. unfold Story.updateQuest.
  destruct (Story.QUESTS_BY_ID !! i) as [quest|] eqn:Eq;
    [|intros _; right; cbn; split; [reflexivity | intros q H; discriminate]].
  set (s1 := Story.ensureProgressForQuest s i).
  pose proof (advanceObjectives_progress ev (countOf ev) (Story.objectives quest) 0
                (default ∅ (Story.progressByQuestId s1 !! i)) ch) as Hadv.
  destruct (Story.advanceObjectives ev (countOf ev) 0 (Story.objectives quest) _ ch)
    as [prog ch1]. cbn [fst] in Hadv.
  assert (forall j, default 0%Z (prog !! j)
                    = progressAfter [i] ev i j (progressOf s i j)) as Hp.
  { intros j. rewrite Hadv. rewrite bool_decide_eq_true_2 by lia. rewrite Nat.sub_0_r.
    unfold progressAfter. rewrite Eq.
    rewrite (bool_decide_eq_true_2 (i ∈ [i])) by (apply list_elem_of_singleton; reflexivity).
    cbn [andb].
    assert (default 0%Z (default ∅ (Story.progressByQuestId s1 !! i) !! j)
            = progressOf s i j) as ->; [|reflexivity].
    rewrite <- (ensureProgressForQuest_progressOf s i i j). fold s1. unfold progressOf.
    destruct (Story.progressByQuestId s1 !! i); [reflexivity|].
    cbn. rewrite lookup_empty. reflexivity. }
  pose proof (questIsCompleteFrom_spec (Story.objectives quest) prog 0) as Hspec.
  fold (Story.questIsComplete quest prog) in Hspec.
  destruct (Story.questIsComplete quest prog).
  - destruct (foldl Story.activateNext _ _) as [s6 A']. cbn [fst snd]. intros Hprog.
    left. split; [reflexivity|]. exists quest. split; [reflexivity|].
    intros j o Ho. rewrite Hprog, <- Hp. apply (proj1 Hspec eq_refl j o Ho).
  - cbn [fst snd]. intros Hprog. right. split; [reflexivity|].
    intros q [= <-] Hmet. assert (false = true); [|discriminate].
    apply Hspec. intros j o Ho. cbn. rewrite Hp, <- Hprog. apply Hmet, Ho.
Qed.

Lemma updateQuest_fold_completion (ev : Story.Event) (l : list string) :
  NoDup l ->
  forall (acc : Story.Acc) (i : string),
    let r := foldl (Story.updateQuest ev (countOf ev)) acc l in
    i ∈ r.1.1.2 <->
    i ∈ acc.1.1.2
    \/ (i ∈ l /\ exists q, Story.QUESTS_BY_ID !! i = Some q /\ objectivesMet (stateOf r) i q).
Proof.
  induction l as [|x rest IH]; intros Hnd acc i r.
  - subst r. cbn. split; [auto|]. intros [H|[H _]]; [exact H | inversion H].
  - apply NoDup_cons in Hnd as [Hx Hnd]. subst r. cbn [foldl].
    rewrite (IH Hnd).
    set (acc1 := Story.updateQuest ev (countOf ev) acc x).
    set (r := foldl (Story.updateQuest ev (countOf ev)) acc1 rest).
    assert (forall q, objectivesMet (stateOf r) x q <-> objectivesMet (stateOf acc1) x q)
      as Hstable.
    { intros q. unfold objectivesMet.
      assert (forall j, progressOf (stateOf r) x j = progressOf (stateOf acc1) x j) as E.
      { intros j. subst r. rewrite (updateQuest_fold_progressOf ev rest Hnd).
        apply progressAfter_absent, Hx. }
      split; intros H j o Ho; [rewrite <- E | rewrite E]; apply H, Ho. }
    destruct (updateQuest_completion ev acc x) as [[E (q & Hq & Hmet)]|[E Hno]];
      [fold acc1 in E, Hmet | fold acc1 in E, Hno]; rewrite E.
    + rewrite elem_of_app, list_elem_of_singleton, elem_of_cons. split.
      * intros [[H| ->]|[H K]]; [auto | | right; split; [right; exact H | exact K]].
        right. split; [left; reflexivity|]. exists q. split; [exact Hq|].
        apply Hstable, Hmet.
      * intros [H|[[->|H] K]]; [auto | auto | right; auto].
    + rewrite elem_of_cons. split.
      * intros [H|[H K]]; [auto|]. right. split; [right; exact H | exact K].
      * intros [H|[[->|H] K]]; [auto | | right; auto].
        exfalso. destruct K as (q & Hq & Hmet). apply (Hno q Hq), Hstable, Hmet.
Qed.

(** X17.  When a quest is completed.  If the list of active quests has no
    duplicate, the quests updateQuestProgress reports as completed are
    exactly the active, known quests all of whose objectives have reached
    their required count once the event is counted. *)
Theorem updateQuestProgress_completion (s : Story.PlayerState) (ev : Story.Event)
    (i : string) :
  NoDup (Story.activeQuestIds s) ->
  let s' := (Story.updateQuestProgress s ev).1 in
  let d := (Story.updateQuestProgress s ev).2 in
  i ∈ Story.deltaCompleted d <->
  i ∈ Story.activeQuestIds s
  /\ exists q, Story.QUESTS_BY_ID !! i = Some q /\ objectivesMet s' i q.
Proof.
  intros Hnd s' d. subst s' d. rewrite updateQuestProgress_fold.
  cbn [fst snd Story.deltaCompleted].
  rewrite (updateQuest_fold_completion ev _ Hnd (s, [], [], false) i). cbn [fst snd].
  split; [intros [H|H]; [inversion H | exact H] | auto].
Qed.

(** A new game: the talk with the elder alone does not complete the first
    quest, whose first objective is still open. *)
Lemma updateQuestProgress_completion_witness :
  "act1_investigate_dawnrise"
  ∉ Story.deltaCompleted (Story.updateQuestProgress newGame talkToElder).2.
Proof.
  intros H.
  apply (updateQuestProgress_completion newGame talkToElder "act1_investigate_dawnrise")
    in H as (_ & q & Hq & Hmet).
  - vm_compute in Hq. injection Hq as <-.
    specialize (Hmet 0%nat _ eq_refl). vm_compute in Hmet. apply Hmet. reflexivity.
  - apply (bool_decide_unpack _). vm_compute. exact I.
Defined.

(** ** world.js: the maps *)

Lemma length_list_ascii (r : string) : length (list_ascii_of_string r) = String.length r.
Proof. induction r as [|c r IH]; [reflexivity|]. cbn. rewrite IH. reflexivity. Qed.

Lemma forallb_Forall_length (rows : list string) (w : nat) :
  forallb (fun r => (Z.of_nat (String.length r) =? Z.of_nat w)%Z) rows = true
  <-> Forall (fun r => String.length r = w) rows.
Proof.
  rewrite forallb_forall, Forall_forall. split; intros H r Hr.
  - apply list_elem_of_In in Hr. specialize (H r Hr). apply Z.eqb_eq in H. lia.
  - apply list_elem_of_In in Hr. specialize (H r Hr). apply Z.eqb_eq. lia.
Qed.

(** What [fromAscii] builds from rows it accepts. *)
Lemma fromAscii_rectangular (rows : list string) :
  rectangular rows ->
  fromAscii rows
  = Some {| width := Z.of_nat (String.length (hd "" rows));
            height := Z.of_nat (length rows);
            tiles := map (fun r => map tileOfChar (list_ascii_of_string r)) rows |}.
Proof.
  intros (first & rest & -> & Hne & Hall). unfold fromAscii. cbn [hd].
  set (rows := first :: rest) in *.
  rewrite (proj2 (Z.eqb_neq _ 0)) by lia.
  rewrite (proj2 (forallb_Forall_length rows (String.length first)) Hall). cbn [negb].
  unfold newMapGrid.
  rewrite (proj2 (Z.leb_gt _ _)) by lia.
  rewrite (proj2 (Z.leb_gt _ _)) by (subst rows; cbn; lia).
  rewrite length_map, Z.eqb_refl. cbn [negb].
  assert (forallb (fun row : list string =>
                     (Z.of_nat (length row) =? Z.of_nat (String.length first))%Z)
            (map (fun r => map tileOfChar (list_ascii_of_string r)) rows) = true) as ->;
    [|reflexivity].
  apply forallb_forall. intros row Hrow. apply in_map_iff in Hrow as (r & <- & Hr).
  rewrite length_map, length_list_ascii. apply Z.eqb_eq. f_equal.
  rewrite Forall_forall in Hall. apply Hall, list_elem_of_In, Hr.
Qed.

Lemma fromAscii_Some (rows : list string) (g : MapGrid) :
  fromAscii rows = Some g -> rectangular rows.
Proof.
  unfold fromAscii, rectangular. destruct rows as [|first rest]; [discriminate|].
  destruct (Z.of_nat (String.length first) =? 0)%Z eqn:E0; [discriminate|].
  destruct (forallb _ (first :: rest)) eqn:Eall; [|discriminate]. intros _.
  exists first, rest. split; [reflexivity|]. apply Z.eqb_neq in E0. split; [lia|].
  apply forallb_Forall_length, Eall.
Qed.

(** [tileAt] reads the text back. *)
Lemma fromAscii_reads (rows : list string) (g : MapGrid) :
  fromAscii rows = Some g ->
  forall x y, tileAt g x y = tileOfChar <$> charAt rows x y.
Proof.
  intros Hg. pose proof (fromAscii_Some rows g Hg) as Hrect.
  rewrite (fromAscii_rectangular rows Hrect) in Hg. injection Hg as <-.
  intros x y. unfold tileAt, charAt. cbn [width height tiles].
  destruct (x <? 0)%Z eqn:Ex; [reflexivity|]. destruct (y <? 0)%Z eqn:Ey; [reflexivity|].
  apply Z.ltb_ge in Ex, Ey. cbn [orb].
  destruct Hrect as (first & rest & -> & Hne & Hall). cbn [hd].
  set (rs := first :: rest) in *.
  rewrite list_lookup_fmap.
  destruct (Z.of_nat (length rs) <=? y)%Z eqn:Eh.
  { rewrite orb_true_r. apply Z.leb_le in Eh.
    rewrite (lookup_ge_None_2 rs) by lia. reflexivity. }
  rewrite orb_false_r. destruct (rs !! Z.to_nat y) as [r|] eqn:Er; [|cbn;
    destruct (_ <=? x)%Z; reflexivity].
  cbn. rewrite list_lookup_fmap.
  destruct (Z.of_nat (String.length first) <=? x)%Z eqn:Ew; [|reflexivity].
  apply Z.leb_le in Ew. rewrite Forall_forall in Hall.
  pose proof (Hall r (list_elem_of_lookup_2 _ _ _ Er)) as Hr.
  rewrite (lookup_ge_None_2 (list_ascii_of_string r))
    by (rewrite length_list_ascii; lia).
  reflexivity.
Qed.

(** X18.  MapGrid.fromAscii succeeds exactly on a non-empty list of
    non-empty rows of equal length.  The grid it returns has the width of
    the first row and one row of tiles per row of text, and tileAt reads it
    back: at every integer position tileAt returns the tile that the legend
    gives for the character at column x of row y, and null where there is no
    such character (outside of the grid). *)
Theorem fromAscii_tileAt (rows : list string) :
  (is_Some (fromAscii rows) <-> rectangular rows)
  /\ forall g, fromAscii rows = Some g ->
       width g = Z.of_nat (String.length (hd "" rows))
       /\ height g = Z.of_nat (length rows)
       /\ forall x y, tileAt g x y = tileOfChar <$> charAt rows x y.
Proof.
  split.
  - split; [intros [g Hg]; exact (fromAscii_Some rows g Hg)|].
    intros H. rewrite (fromAscii_rectangular rows H). eauto.
  - intros g Hg. split; [|split; [|exact (fromAscii_reads rows g Hg)]].
    + pose proof (fromAscii_Some rows g Hg) as Hrect.
      rewrite (fromAscii_rectangular rows Hrect) in Hg. injection Hg as <-. reflexivity.
    + pose proof (fromAscii_Some rows g Hg) as Hrect.
      rewrite (fromAscii_rectangular rows Hrect) in Hg. injection Hg as <-. reflexivity.
Qed.

Lemma tileOfChar_passable (ch : ascii) :
  JS.truthy (Some (tileOfChar ch)) = true
  /\ (String.eqb (tileOfChar ch) TILE_TYPES.BLOCKING = false <-> passable ch).
Proof.
  unfold tileOfChar, passable.
  destruct (Ascii.eqb_spec ch "."%char) as [->|H1]; [split; [reflexivity|]; split; auto|].
  destruct (Ascii.eqb_spec ch "#"%char) as [->|H2].
  { split; [reflexivity|]. split; [discriminate|]. intros [H|[H|[H|H]]]; discriminate. }
  destruct (Ascii.eqb_spec ch "!"%char) as [->|H3]; [split; [reflexivity|]; split; auto|].
  destruct (Ascii.eqb_spec ch "^"%char) as [->|H4]; [split; [reflexivity|]; split; auto|].
  destruct (Ascii.eqb_spec ch "+"%char) as [->|H5]; [split; [reflexivity|]; split; auto|].
  split; [reflexivity|]. split; [discriminate|]. intros [H|[H|[H|H]]]; congruence.
Qed.

Lemma rectangular_dec (rows : list string) :
  match rows with
  | [] => False
  | first :: _ =>
      String.length first ≠ 0%nat
      /\ forallb (fun r => (String.length r =? String.length first)%nat) rows = true
  end -> rectangular rows.
Proof.
  destruct rows as [|first rest]; [tauto|]. intros [H1 H2].
  exists first, rest. split; [reflexivity|]. split; [exact H1|].
  apply Forall_forall. intros r Hr. rewrite forallb_forall in H2.
  apply Nat.eqb_eq, H2, list_elem_of_In, Hr.
Qed.

Lemma region_rows_rectangular :
  rectangular villageOfDawnriseRows /\ rectangular stormfellRows
  /\ rectangular lightShrineRows.
Proof.
  repeat split; apply rectangular_dec; (split; [discriminate | vm_compute; reflexivity]).
Qed.

(** The module loads, and each region carries the grid of its rows. *)
Lemma getRegionById_rows (i : string) :
  match rowsOf i with
  | Some rows => exists r, getRegionById i = Some r /\ fromAscii rows = Some (regionMap r)
  | None => getRegionById i = None
  end.
Proof.
  destruct region_rows_rectangular as (Rv & Rs & Rl).
  unfold getRegionById, REGIONS, loadRegions, rowsOf.
  rewrite (fromAscii_rectangular _ Rv), (fromAscii_rectangular _ Rs),
    (fromAscii_rectangular _ Rl).
  cbn [mbind option_bind from_option id find regionId].
  rewrite (String.eqb_sym i), (String.eqb_sym i REGION_IDS.STORMFELL),
    (String.eqb_sym i REGION_IDS.LIGHT_SHRINE).
  destruct (String.eqb REGION_IDS.VILLAGE_DAWNRISE i);
    [eexists; split; [reflexivity|]; apply fromAscii_rectangular, Rv|].
  destruct (String.eqb REGION_IDS.STORMFELL i);
    [eexists; split; [reflexivity|]; apply fromAscii_rectangular, Rs|].
  destruct (String.eqb REGION_IDS.LIGHT_SHRINE i);
    [eexists; split; [reflexivity|]; apply fromAscii_rectangular, Rl|].
  reflexivity.
Qed.

Lemma walled_spec (rows : list string) (x y : Z) (ch : ascii) :
  walled rows = true -> rectangular rows ->
  charAt rows x y = Some ch -> ch ≠ "#"%char ->
  (0 < x < Z.of_nat (String.length (hd "" rows)) - 1)%Z
  /\ (0 < y < Z.of_nat (length rows) - 1)%Z.
Proof.
  intros Hw (first & rest & -> & Hne & Hall) Hch Hnot. cbn [hd].
  set (rows := first :: rest) in *. unfold charAt in Hch.
  destruct (x <? 0)%Z eqn:Ex; [discriminate|]. destruct (y <? 0)%Z eqn:Ey; [discriminate|].
  apply Z.ltb_ge in Ex, Ey. cbn [orb] in Hch.
  destruct (rows !! Z.to_nat y) as [r|] eqn:Er; [|discriminate]. cbn in Hch.
  unfold walled in Hw. rewrite forallb_forall in Hw.
  specialize (Hw (Z.to_nat y, r)). cbn [fst snd] in Hw.
  rewrite forallb_forall in Hw.
  assert (In (Z.to_nat y, r) (imap pair rows)) as Hin1.
  { apply list_elem_of_In, (list_elem_of_lookup_2 _ (Z.to_nat y)).
    rewrite list_lookup_imap, Er. reflexivity. }
  specialize (Hw Hin1 (Z.to_nat x, ch)). cbn [fst snd] in Hw.
  assert (In (Z.to_nat x, ch) (imap pair (list_ascii_of_string r))) as Hin2.
  { apply list_elem_of_In, (list_elem_of_lookup_2 _ (Z.to_nat x)).
    rewrite list_lookup_imap, Hch. reflexivity. }
  specialize (Hw Hin2).
  rewrite (proj2 (Ascii.eqb_neq _ _) Hnot) in Hw.
  destruct (onRim rows (Z.to_nat x) (Z.to_nat y)) eqn:Erim; [discriminate|].
  unfold onRim in Erim. cbn [hd] in Erim.
  apply orb_false_elim in Erim as [Erim E4]. apply orb_false_elim in Erim as [Erim E3].
  apply orb_false_elim in Erim as [E1 E2].
  apply Nat.eqb_neq in E1, E2, E3, E4.
  rewrite Forall_forall in Hall.
  pose proof (Hall r (list_elem_of_lookup_2 _ _ _ Er)) as Hr.
  apply lookup_lt_Some in Er, Hch. rewrite length_list_ascii in Hch.
  subst rows. cbn [hd] in E3. lia.
Qed.

Lemma rowsOf_walled (i : string) (rows : list string) :
  rowsOf i = Some rows -> walled rows = true /\ rectangular rows.
Proof.
  destruct region_rows_rectangular as (Rv & Rs & Rl). unfold rowsOf.
  destruct (String.eqb i REGION_IDS.VILLAGE_DAWNRISE);
    [intros [= <-]; split; [vm_compute; reflexivity | exact Rv]|].
  destruct (String.eqb i REGION_IDS.STORMFELL);
    [intros [= <-]; split; [vm_compute; reflexivity | exact Rs]|].
  destruct (String.eqb i REGION_IDS.LIGHT_SHRINE);
    [intros [= <-]; split; [vm_compute; reflexivity | exact Rl]|].
  discriminate.
Qed.

(** X19.  The three region maps load (no constructor throws), and canMoveTo
    answers from their text: a move to (x, y) of a region is allowed exactly
    when the region is one of the three and the character at column x of row
    y of its map is one of . ! ^ + (walkable, interactive, warp, door).
    Every map is walled in: an allowed position is never on the rim of the
    map, so no sequence of allowed moves leaves it. *)
Theorem canMoveTo_spec (i : string) (x y : Z) :
  is_Some loadRegions
  /\ (canMoveTo i x y = true <->
      exists rows ch, rowsOf i = Some rows /\ charAt rows x y = Some ch /\ passable ch)
  /\ (canMoveTo i x y = true ->
      exists rows, rowsOf i = Some rows
                   /\ (0 < x < Z.of_nat (String.length (hd "" rows)) - 1)%Z
                   /\ (0 < y < Z.of_nat (length rows) - 1)%Z).
Proof.
  assert (canMoveTo i x y = true <->
          exists rows ch, rowsOf i = Some rows /\ charAt rows x y = Some ch /\ passable ch)
    as Hiff.
  { unfold canMoveTo. pose proof (getRegionById_rows i) as Hr.
    destruct (rowsOf i) as [rows|].
    - destruct Hr as (r & -> & Hg).
      rewrite (fromAscii_reads rows _ Hg).
      destruct (charAt rows x y) as [ch|] eqn:Ech; cbn [fmap option_fmap option_map].
      + destruct (tileOfChar_passable ch) as [-> Hp]. rewrite negb_true_iff, Hp.
        split; [intros H; exists rows, ch; split; [reflexivity|];
                split; [exact Ech | exact H]|].
        intros (rows' & ch' & [= <-] & K1 & K). rewrite Ech in K1.
        injection K1 as <-. exact K.
      + split; [discriminate|]. intros (rows' & ch' & [= <-] & H & _).
        rewrite Ech in H. discriminate.
    - rewrite Hr. split; [discriminate|]. intros (rows' & ch' & H & _). discriminate. }
  split; [|split; [exact Hiff|]].
  - destruct region_rows_rectangular as (Rv & Rs & Rl). unfold loadRegions.
    rewrite (fromAscii_rectangular _ Rv), (fromAscii_rectangular _ Rs),
      (fromAscii_rectangular _ Rl). cbn [mbind option_bind]. eauto.
  - intros H. apply Hiff in H as (rows & ch & Hrows & Hch & Hp). exists rows.
    split; [exact Hrows|]. destruct (rowsOf_walled i rows Hrows) as [Hw Hrect].
    apply (walled_spec rows x y ch Hw Hrect Hch).
    destruct Hp as [->|[->|[->| ->]]]; discriminate.
Qed.
